(** * Mobile navigation overlay (mobilize_nav.js): a shallow embedding

    The development follows [pagespeed.MobNav] in
    [src/pagespeed/opt/mobilize/mobilize_nav.js].  The DOM is a rose tree of
    nodes; a JavaScript reference to a node is the path of child indices
    leading to it from the root of the tree under consideration.  Values that
    the browser computes (visibility, computed style, rendered text) are
    fields of the node, read where the script reads them. *)

From Stdlib Require Import Ascii String DecimalString ZArith Bool.
From Stdlib Require DecimalNat DecimalFacts.
From stdpp Require Import base option list gmap strings.

Local Open Scope string_scope.
Local Open Scope list_scope.
Local Open Scope stdpp_scope.

(** ** JavaScript strings *)

Module JS.

Definition upcase (c : ascii) : ascii :=
  let n := nat_of_ascii c in
  if (97 <=? n)%nat && (n <=? 122)%nat then ascii_of_nat (n - 32) else c.

Definition downcase (c : ascii) : ascii :=
  let n := nat_of_ascii c in
  if (65 <=? n)%nat && (n <=? 90)%nat then ascii_of_nat (n + 32) else c.

Fixpoint mapChars (f : ascii -> ascii) (s : string) : string :=
  match s with
  | EmptyString => EmptyString
  | String c r => String (f c) (mapChars f r)
  end.

(** [String.prototype.toUpperCase], which the script applies to node names
    to compare them with tag names (A, UL, LI, IMG, SCRIPT, DIV): the
    letters a to z go to A to Z.  A name with a code unit from 128 on is
    none of these tag names before or after the mapping of the engine. *)
Definition toUpperCase : string -> string := mapChars upcase.

(** The ASCII lower case of a name, as the HTML serialiser writes the name
    of an element. *)
Definition asciiLower : string -> string := mapChars downcase.

(** [String(n)] for a non-negative integer: its decimal numeral. *)
Definition ofNat (n : nat) : string := NilEmpty.string_of_uint (Nat.to_uint n).

(** [String(z)] for an integer. *)
Definition ofZ (z : Z) : string :=
  match z with
  | Z0 => "0"
  | Zpos p => ofNat (Pos.to_nat p)
  | Zneg p => "-" +:+ ofNat (Pos.to_nat p)
  end.

(** [ToNumber] on the strings the script subtracts: a decimal numeral gives
    its value, anything else gives NaN ([None]). *)
Definition toNumber (s : string) : option Z :=
  match s with
  | EmptyString => Some 0%Z
  | _ => match NilEmpty.uint_of_string s with
         | Some u => Some (Z.of_nat (Nat.of_uint u))
         | None => None
         end
  end.

(** [a < b] when both operands are strings: comparison of the code units,
    left to right. *)
Definition ltStr (a b : string) : bool := String.ltb a b.

(** [a - b] on two strings: both are converted to numbers first. *)
Definition subStr (a b : string) : option Z :=
  match toNumber a, toNumber b with
  | Some x, Some y => Some (x - y)%Z
  | _, _ => None
  end.

(** [goog.string.startsWith]. *)
Definition startsWith (s pre : string) : bool := String.prefix pre s.

(** Characters matched by the class [[\s\xa0]] of [goog.string.trim]. *)
Definition isSpace (c : ascii) : bool :=
  let n := nat_of_ascii c in
  ((9 <=? n)%nat && (n <=? 13)%nat) || (n =? 32)%nat || (n =? 160)%nat.

Fixpoint trimLeft (s : string) : string :=
  match s with
  | String c r => if isSpace c then trimLeft r else s
  | EmptyString => EmptyString
  end.

(** Drops trailing white space: the result is empty when only white space
    is left. *)
Fixpoint trimRight (s : string) : string :=
  match s with
  | EmptyString => EmptyString
  | String c r =>
      match trimRight r with
      | EmptyString => if isSpace c then EmptyString else String c EmptyString
      | r' => String c r'
      end
  end.

(** [goog.string.trim]. *)
Definition trim (s : string) : string := trimRight (trimLeft s).

End JS.

(** ** The DOM *)

(** [goog.dom.NodeType], as far as the script tells the kinds apart. *)
Inductive NodeType := ELEMENT | TEXT | COMMENT | DOCUMENT | DOCUMENT_TYPE.

Global Instance NodeType_eq_dec : EqDecision NodeType.
Proof. solve_decision. Defined.

(** [node.offsetParent]: not a property of the node, null, or an element. *)
Inductive OffsetParent := OPundefined | OPnull | OPelement.

(** What the script reads off a node besides its children.  The last block
    holds what the browser computes from layout. *)
Record props := Props {
  nodeType : NodeType;
  nodeName : string;
  attrs : list (string * string);   (* attributes, in source order *)
  data : string;                    (* character data of a text node *)
  (* layout *)
  offsetParent : OffsetParent;
  innerText : string;
  cssPosition : string;             (* getComputedStyle: position *)
  cssTop : string;                  (* getComputedStyle: top *)
  styleTop : string;                (* element.style.top *)
  rectTop : Z;                      (* MobUtil.boundingRect(el).top *)
  (* element.className is an SVGAnimatedString, as on the elements of the
     SVG namespace, and no string *)
  svgClassName : bool;
}.

Unset Elimination Schemes.
Inductive node := Node (p : props) (cs : list node).
Set Elimination Schemes.

Definition nprops (n : node) : props := match n with Node p _ => p end.
Definition childNodes (n : node) : list node := match n with Node _ cs => cs end.

Abbreviation path := (list nat).

Section NodeInd.
Variable P : node -> Prop.
Hypothesis HNode : forall p cs, Forall P cs -> P (Node p cs).

Fixpoint node_ind' (n : node) : P n :=
  match n with
  | Node p cs =>
      HNode p cs
        ((fix go (l : list node) : Forall P l :=
            match l with
            | [] => @List.Forall_nil node P
            | c :: r => @List.Forall_cons node P c r (node_ind' c) (go r)
            end) cs)
  end.
End NodeInd.

Module Dom.

Fixpoint lookupAttr (k : string) (l : list (string * string)) : option string :=
  match l with
  | [] => None
  | (k', v) :: r => if String.eqb k k' then Some v else lookupAttr k r
  end.

Fixpoint storeAttr (k v : string) (l : list (string * string))
  : list (string * string) :=
  match l with
  | [] => [(k, v)]
  | (k', v') :: r =>
      if String.eqb k k' then (k, v) :: r else (k', v') :: storeAttr k v r
  end.

(** [node.getAttribute(k)]: [None] is null. *)
Definition getAttribute (n : node) (k : string) : option string :=
  lookupAttr k (attrs (nprops n)).

Definition setProps (f : props -> props) (n : node) : node :=
  match n with Node p cs => Node (f p) cs end.

Definition withAttrs (l : list (string * string)) (p : props) : props :=
  Props (nodeType p) (nodeName p) l (data p) (offsetParent p) (innerText p)
        (cssPosition p) (cssTop p) (styleTop p) (rectTop p) (svgClassName p).

(** [node.setAttribute(k, v)]. *)
Definition setAttribute (k v : string) (n : node) : node :=
  setProps (fun p => withAttrs (storeAttr k v (attrs p)) p) n.

(** [node.nodeName.toUpperCase() == tag]. *)
Definition isTag (tag : string) (n : node) : bool :=
  String.eqb (JS.toUpperCase (nodeName (nprops n))) tag.

(** The node a reference denotes. *)
Fixpoint nodeAt (n : node) (p : path) : option node :=
  match p with
  | [] => Some n
  | i :: q =>
      match childNodes n !! i with
      | Some c => nodeAt c q
      | None => None
      end
  end.

Section Descendants.
Variable desc : node -> list path.

Fixpoint descFrom (i : nat) (l : list node) : list path :=
  match l with
  | [] => []
  | c :: r => ([i] :: map (cons i) (desc c)) ++ descFrom (S i) r
  end.
End Descendants.

(** References to the descendants of a node, in document order. *)
Fixpoint descendants (n : node) : list path :=
  match n with
  | Node _ cs => descFrom descendants 0 cs
  end.

(** [goog.dom.isElement]. *)
Definition isElement (n : node) : bool :=
  bool_decide (nodeType (nprops n) = ELEMENT).

Definition isText (n : node) : bool :=
  bool_decide (nodeType (nprops n) = TEXT).

(** [node.offsetParent === null]. *)
Definition offsetParentIsNull (n : node) : bool :=
  match offsetParent (nprops n) with OPnull => true | _ => false end.

(** [element.id]: the attribute, or the empty string.  An [id] the script
    stores on the document node is kept with the attributes as well. *)
Definition idOf (n : node) : string := default "" (getAttribute n "id").

(** [element.className]: the class attribute, or the empty string; [None]
    where the property is an SVGAnimatedString and no string. *)
Definition className (n : node) : option string :=
  if svgClassName (nprops n) then None else Some (default "" (getAttribute n "class")).

(** The test a reference passes when its node does. *)
Definition holdsAt (f : node -> bool) (t : node) (q : path) : bool :=
  match nodeAt t q with Some n => f n | None => false end.

(** The descendants that pass a test, in document order. *)
Definition select (f : node -> bool) (t : node) : list path :=
  List.filter (holdsAt f t) (descendants t).

(** The same, read off the children from child [k] on. *)
Fixpoint selectFrom (f : node -> bool) (k : nat) (l : list node) : list path :=
  match l with
  | [] => []
  | c :: r =>
      map (cons k) ((if f c then [[]] else []) ++ select f c)
      ++ selectFrom f (S k) r
  end.

(** What a child adds to the number of selected descendants of its parent. *)
Definition weight (f : node -> bool) (c : node) : nat :=
  (if f c then 1 else 0) + length (select f c).

(** The test reads nothing but the properties of the node. *)
Definition propsOnly (f : node -> bool) : Prop :=
  forall p cs cs', f (Node p cs) = f (Node p cs').

Definition isNamed (tag : string) (n : node) : bool := isElement n && isTag tag n.

(** [node.getElementsByTagName(tag)]: the descendant elements of that name,
    in document order. *)
Definition getElementsByTagName (t : node) (tag : string) : list path :=
  select (isNamed tag) t.

Section TextContent.
Variable text : node -> string.

Fixpoint textOfChildren (l : list node) : string :=
  match l with
  | [] => ""
  | c :: r =>
      (match nodeType (nprops c) with COMMENT => "" | _ => text c end)
      +:+ textOfChildren r
  end.
End TextContent.

(** [node.textContent] of a text node or an element. *)
Fixpoint textContent (n : node) : string :=
  match n with
  | Node p cs =>
      match nodeType p with
      | TEXT | COMMENT => data p
      | _ => textOfChildren textContent cs
      end
  end.

(** [node.parentNode], for a node given by its reference. *)
Definition parentNode (q : path) : option path :=
  match q with
  | [] => None
  | _ => Some (removelast q)
  end.

(** The index of a node among the children of its parent. *)
Definition childIndex (q : path) : nat := List.last q 0.

(** Applies [f] to the node a reference denotes. *)
Fixpoint updateAt (f : node -> node) (q : path) (t : node) : node :=
  match q with
  | [] => f t
  | i :: q' =>
      match t with
      | Node p cs => Node p (alter (updateAt f q') i cs)
      end
  end.

(** The tree without the node a reference denotes. *)
Fixpoint removeAt (q : path) (t : node) : node :=
  match q with
  | [] => t
  | [i] => match t with Node p cs => Node p (delete i cs) end
  | i :: q' =>
      match t with
      | Node p cs => Node p (alter (removeAt q') i cs)
      end
  end.

(** Where [target] is found once the node at [removed] is gone. *)
Fixpoint shift (removed target : path) : path :=
  match removed, target with
  | [i], j :: t' => if (i <? j)%nat then (j - 1)%nat :: t' else target
  | i :: r', j :: t' => if (i =? j)%nat then j :: shift r' t' else target
  | _, _ => target
  end.

Fixpoint isPrefix (p q : path) : bool :=
  match p, q with
  | [], _ => true
  | i :: p', j :: q' => (i =? j)%nat && isPrefix p' q'
  | _ :: _, [] => false
  end.

(** Adds [c] as the last child of the node at [q]. *)
Definition appendAt (q : path) (c : node) (t : node) : node :=
  updateAt (fun n => Node (nprops n) (childNodes n ++ [c])) q t.

(** [parent.appendChild(child)] for two nodes of one tree: the child leaves
    its place and becomes the last child of the parent.  The result holds
    the new tree and the new reference to the child; [None] stands for the
    exception raised when the child contains the parent. *)
Definition appendChild (t : node) (parent child : path) : option (node * path) :=
  if isPrefix child parent then None
  else
    match nodeAt t child with
    | None => None
    | Some n =>
        let t1 := removeAt child t in
        let parent' := shift child parent in
        match nodeAt t1 parent' with
        | Some pn =>
            Some (appendAt parent' n t1, parent' ++ [length (childNodes pn)])
        | None => None
        end
    end.

Definition hasId (id : string) (n : node) : bool :=
  isElement n && String.eqb (idOf n) id.

(** [document.getElementById(id)]: the first element of that id in document
    order; the empty id finds nothing. *)
Definition getElementById (doc : node) (id : string) : option path :=
  if String.eqb id "" then None else head (select (hasId id) doc).

(** [document.querySelector('[id=...]')]: the first element that has an id
    attribute of this value, the empty one included. *)
Definition querySelectorId (doc : node) (id : string) : option path :=
  head (select (fun n => isElement n
                         && bool_decide (getAttribute n "id" = Some id)) doc).

(** A body or a frameset. *)
Definition isBody (c : node) : bool :=
  isElement c && (isTag "BODY" c || isTag "FRAMESET" c).

(** [document.body]: the first body or frameset among the children of the
    html element, if the document has one. *)
Definition body (doc : node) : option path :=
  match list_find (fun c => isElement c) (childNodes doc) with
  | Some (i, html) =>
      if isTag "HTML" html then
        match list_find (fun c => isBody c) (childNodes html) with
        | Some (j, _) => Some [i; j]
        | None => None
        end
      else None
  | None => None
  end.

(** The properties of the node a reference denotes. *)
Definition propsAt (t : node) (q : path) : option props := nprops <$> nodeAt t q.


End Dom.

(** ** What the sources leave out

    [pagespeed.MobUtil] (mobilize_util.js), the browser's URL resolution and
    the case mapping of the engine are not part of the sources.  The
    functions below take them from this record, and what is proved of them
    holds whatever these are. *)
Record Env := {
  NAV_PANEL : string;                  (* MobUtil.ElementId.NAV_PANEL *)
  PROGRESS_SCRIM : string;             (* MobUtil.ElementId.PROGRESS_SCRIM *)
  pixelValue : string -> option Z;     (* MobUtil.pixelValue; None is null *)
  resolveURL : string -> string;       (* the [href] property of an attribute *)
  toLowerCase : string -> string;      (* String.prototype.toLowerCase *)
}.

(** ** Hierarchy extraction: [labelNavDepth_] *)

Module Hierarchy.
Import Dom.

Definition NAV_LEVEL : string := "data-mobilize-nav-level".

Section Children.
Variable rec : node -> nat -> bool -> node * list path.
Variables (currDepth : nat) (inUl : bool).

(** One turn of the loop over the children.  The references it returns are
    relative to [child]; [[]] is [child] itself.  The attribute is written
    before the recursive call in the script; the call reads the children of
    [child] only, so the order does not show. *)
Definition labelChild (child : node) : node * list path :=
  if isTag "UL" child then
    rec child (if inUl then currDepth + 1 else currDepth) true
  else
    let '(child', sub) := rec child currDepth inUl in
    if isTag "A" child
    then (setAttribute NAV_LEVEL (JS.ofNat currDepth) child', [] :: sub)
    else (child', sub).

Fixpoint labelChildren (i : nat) (l : list node) : list node * list path :=
  match l with
  | [] => ([], [])
  | child :: rest =>
      let '(child', sub) := labelChild child in
      let '(rest', more) := labelChildren (S i) rest in
      (child' :: rest', map (cons i) sub ++ more)
  end.
End Children.

(** Returns the subtree with the attributes written and the references to
    the A tags it labelled, relative to [nd]. *)
Fixpoint labelNavDepth_ (nd : node) (currDepth : nat) (inUl : bool)
  {struct nd} : node * list path :=
  match nd with
  | Node p cs =>
      let '(cs', navATags) :=
        labelChildren labelNavDepth_ currDepth inUl 0 cs in
      (Node p cs', navATags)
  end.

(** The level written on the tag a reference denotes. *)
Definition levelAt (t : node) (p : path) : option string :=
  nodeAt t p ≫= fun n => getAttribute n NAV_LEVEL.

(** The levels of the labelled tags, in the order of the result. *)
Definition levelsOf (t : node) (d : nat) (inUl : bool) : list (option string) :=
  let '(t', tags) := labelNavDepth_ t d inUl in map (levelAt t') tags.

(** *** What the spec counts *)

Definition isLinkAt (t : node) (p : path) : bool := holdsAt (isTag "A") t p.

(** The list elements on the way from below [t] down to the node at [p]. *)
Fixpoint listNesting (t : node) (p : path) : nat :=
  match p with
  | [] => 0
  | i :: q =>
      match childNodes t !! i with
      | Some c => (if isTag "UL" c then 1 else 0) + listNesting c q
      | None => 0
      end
  end.

(** The list elements around the node at [p], the section among them when
    it is one: the list levels of the spec. *)
Definition enclosingLists (t : node) (p : path) : nat :=
  (if isTag "UL" t then 1 else 0) + listNesting t p.

(** The first list element met outside a list context sets the context
    and leaves the depth alone; every further one adds one. *)
Definition nestingDepth (start : nat) (inUl : bool) (lists : nat) : nat :=
  if inUl then start + lists else start + (lists - 1).

(** Content that is neither a link nor a list and holds nothing: a text
    node, an image, a comment. *)
Definition isNoise (n : node) : bool :=
  bool_decide (childNodes n = []) && negb (isTag "A" n) && negb (isTag "UL" n).

Section Strip.
Variable strip : node -> node.

Fixpoint stripChildren (l : list node) : list node :=
  match l with
  | [] => []
  | c :: r => if isNoise c then stripChildren r else strip c :: stripChildren r
  end.
End Strip.

(** The subtree without its noise. *)
Fixpoint stripNoise (n : node) : node :=
  match n with
  | Node p cs => Node p (stripChildren stripNoise cs)
  end.

(** The references returned are the links among the descendants, in
    document order. *)
Definition tagsOk (t : node) : Prop :=
  forall d u, (labelNavDepth_ t d u).2 = List.filter (isLinkAt t) (descendants t).

(** Every link below [t] carries the depth the nesting of lists gives it. *)
Definition levelsOk (t : node) : Prop :=
  forall d u q n,
    q <> [] -> nodeAt t q = Some n -> isTag "A" n = true ->
    levelAt (labelNavDepth_ t d u).1 q =
    Some (JS.ofNat (nestingDepth d u (listNesting t q))).

(** The nesting counts of the links, in document order. *)
Definition nestSeq (t : node) : list nat :=
  map (listNesting t) (List.filter (isLinkAt t) (descendants t)).

(** What one child adds to the nesting counts of its parent. *)
Definition childSeq (c : node) : list nat :=
  (if isTag "A" c then [0] else []) ++
  map (Nat.add (if isTag "UL" c then 1 else 0)) (nestSeq c).

End Hierarchy.

(** ** Section discovery: the enlarge heuristic *)

Module Enlarge.
Import Dom.

Definition hasImages_ (visibilityMatters : bool) (nd : node) : bool :=
  if negb (isElement nd) then false
  else if isTag "IMG" nd then
    negb visibilityMatters || negb (offsetParentIsNull nd)
  else
    let images := getElementsByTagName nd "IMG" in
    if visibilityMatters then
      existsb (holdsAt (fun img => negb (offsetParentIsNull img)) nd) (rev images)
    else (0 <? length images)%nat.

(** [goog.string.trim(child.textContent).length]. *)
Definition textSize (child : node) : nat :=
  String.length (JS.trim (textContent child)).

(** The loop over the children of the parent; [k] is the index of the
    child at hand and [idx] the index of [element], so that [k =? idx] is
    [child == element]. *)
Fixpoint enlargeLoop (elementIsVisible : bool) (idx k : nat)
    (sawElement : bool) (preElementTextSize : nat) (l : list node) : bool :=
  match l with
  | [] => true
  | child :: rest =>
      if (k =? idx)%nat then
        enlargeLoop elementIsVisible idx (S k) true preElementTextSize rest
      else if offsetParentIsNull child && elementIsVisible then
        enlargeLoop elementIsVisible idx (S k) sawElement preElementTextSize rest
      else if negb (isText child) && negb (isElement child) then
        enlargeLoop elementIsVisible idx (S k) sawElement preElementTextSize rest
      else if hasImages_ elementIsVisible child then false
      else
        let textSize := textSize child in
        if (0 <? textSize)%nat then
          if sawElement then false
          else
            let preElementTextSize := (preElementTextSize + textSize)%nat in
            if (60 <? preElementTextSize)%nat then false
            else enlargeLoop elementIsVisible idx (S k) sawElement
                             preElementTextSize rest
        else
          enlargeLoop elementIsVisible idx (S k) sawElement preElementTextSize rest
  end.

(** [canEnlargeNav_] on the parent and the index of the element in it. *)
Definition canEnlargeIn (parent : node) (idx : nat) : bool :=
  match childNodes parent !! idx with
  | None => false
  | Some element =>
      if (0 <? length (getElementsByTagName parent "SCRIPT"))%nat then false
      else enlargeLoop (negb (offsetParentIsNull element)) idx 0 false 0
                       (childNodes parent)
  end.

(** [canEnlargeNav_(element)], the element given by its reference in the
    document. *)
Definition canEnlargeNav_ (doc : node) (element : path) : bool :=
  match parentNode element with
  | None => false
  | Some parent =>
      match nodeAt doc parent with
      | Some parentNd => canEnlargeIn parentNd (childIndex element)
      | None => false
      end
  end.

(** *** The conditions the spec names *)





(** The nodes of a list with their indices, counted from [k]. *)
Definition indexed (k : nat) (l : list node) : list (nat * node) :=
  combine (seq k (length l)) l.

(** The siblings of the element, with their indices. *)
Definition siblingsFrom (idx k : nat) (l : list node) : list (nat * node) :=
  List.filter (fun kc => negb (kc.1 =? idx)%nat) (indexed k l).

Definition siblings (parent : node) (idx : nat) : list (nat * node) :=
  siblingsFrom idx 0 (childNodes parent).


Definition textBefore (parent : node) (idx : nat) : nat :=
  list_sum (map (fun kc => textSize kc.2)
                (List.filter (fun kc => (kc.1 <? idx)%nat) (siblings parent idx))).

(** *** The conditions the loop tests *)





End Enlarge.

(** ** Section discovery: [findNavSections_] *)

Module Discovery.
Import Dom Enlarge.

(** The members every object literal inherits: [k in {}] holds for them. *)
Definition objectPrototypeKeys : list string :=
  ["constructor"; "hasOwnProperty"; "isPrototypeOf"; "propertyIsEnumerable";
   "toLocaleString"; "toString"; "valueOf"; "__defineGetter__";
   "__defineSetter__"; "__lookupGetter__"; "__lookupSetter__"; "__proto__"].

Definition inherited (k : string) : bool :=
  bool_decide (k ∈ objectPrototypeKeys).

(** [k in obj] for an object literal used as a map. *)
Definition jsIn {V} (k : string) (obj : gmap string V) : bool :=
  bool_decide (is_Some (obj !! k)) || inherited k.

(** The truth value of [obj[k]]: an own entry gives its value, an inherited
    member is a function or an object. *)
Definition jsTruthy (k : string) (obj : gmap string bool) : bool :=
  match obj !! k with
  | Some b => b
  | None => inherited k
  end.

Definition isDigit (c : ascii) : bool :=
  let n := nat_of_ascii c in (48 <=? n)%nat && (n <=? 57)%nat.

(** Takes the longest run of characters that pass [f] off the front. *)
Fixpoint span (f : ascii -> bool) (l : list ascii) : list ascii * list ascii :=
  match l with
  | c :: r => if f c then let '(a, b) := span f r in (c :: a, b) else ([], l)
  | [] => ([], [])
  end.

(** What precedes a match of [/-[0-9]+$/], if there is one. *)
Definition beforeNumericSuffix (s : string) : option string :=
  let '(digits, rest) := span isDigit (rev (list_ascii_of_string s)) in
  match digits, rest with
  | _ :: _, "-"%char :: pre => Some (string_of_list_ascii (rev pre))
  | _, _ => None
  end.

Definition isLineTerminator (c : ascii) : bool :=
  let n := nat_of_ascii c in (n =? 10)%nat || (n =? 13)%nat.

(** [id.match(/^PageSpeed-.*-[0-9]+$/)]. *)
Definition matchesPageSpeedId (id : string) : bool :=
  match beforeNumericSuffix id with
  | Some pre =>
      String.prefix "PageSpeed-" pre
      && negb (existsb isLineTerminator
                 (list_ascii_of_string (String.substring 10 (String.length pre) pre)))
  | None => false
  end.

(** The id given to a parent that has none. *)
Definition parentIdFor (elementId : string) : string :=
  if matchesPageSpeedId elementId then
    default elementId (beforeNumericSuffix elementId)
  else "PageSpeed-" +:+ elementId +:+ "-P".

Definition idAt (doc : node) (q : path) : string :=
  match nodeAt doc q with Some n => idOf n | None => "" end.

(** [getElementById(id) || querySelector('[id=...]')]; the escaping by
    [MobUtil.toCssString1] is taken to select the id as it is. *)
Definition lookupElement (doc : node) (id : string) : option path :=
  match getElementById doc id with
  | Some e => Some e
  | None => querySelectorId doc id
  end.

(** How a run of the script ends: it returns, or an exception leaves it. *)
Inductive result (A : Type) := Done (a : A) | TypeError (a : A).
Arguments Done {A} a.
Arguments TypeError {A} a.

(** What a run leaves, however it ends. *)
Definition leftBy {A} (r : result A) : A :=
  match r with Done a => a | TypeError a => a end.

(** The state of the loop: the document, [parents], [elements]. *)
Definition loopState : Type := node * gmap string bool * list path.

(** One turn of the loop over [pagespeedNavigationalIds]. *)
Definition discoverId (st : loopState) (id : string) : result loopState :=
  let '(doc, parents, elements) := st in
  match lookupElement doc id with
  | None => TypeError st
  | Some element =>
      match parentNode element with
      | Some parent =>
          let doc :=
            if String.eqb (idAt doc parent) "" then
              updateAt (setAttribute "id" (parentIdFor (idAt doc element)))
                       parent doc
            else doc in
          let parentId := idAt doc parent in
          if negb (jsIn parentId parents) then
            let parents := <[parentId := canEnlargeNav_ doc element]> parents in
            Done (doc, parents,
                  elements ++ [if jsTruthy parentId parents then parent else element])
          else if negb (jsTruthy parentId parents) then
            Done (doc, parents, elements ++ [element])
          else Done (doc, parents, elements)
      | None => Done (doc, parents, elements ++ [element])
      end
  end.

Fixpoint discoverIds (st : loopState) (ids : list string) : result loopState :=
  match ids with
  | [] => Done st
  | id :: rest =>
      match discoverId st id with
      | Done st' => discoverIds st' rest
      | TypeError st' => TypeError st'
      end
  end.

(** The fields of the [MobNav] object the functions below use. *)
Record MobNav := {
  navSections_ : list path;
  navPanel_ : option path;
  headerBar_ : option path;
  headerBarHeight_ : Z;
  elementsToOffset_ : gset path;
  redrawNavCalled_ : bool;
}.

(** The object as the constructor leaves it. *)
Definition newMobNav : MobNav :=
  {| navSections_ := []; navPanel_ := None; headerBar_ := None;
     headerBarHeight_ := (-1)%Z; elementsToOffset_ := ∅;
     redrawNavCalled_ := false |}.

Definition withNavPanel (panel : option path) (m : MobNav) : MobNav :=
  {| navSections_ := navSections_ m; navPanel_ := panel;
     headerBar_ := headerBar_ m; headerBarHeight_ := headerBarHeight_ m;
     elementsToOffset_ := elementsToOffset_ m;
     redrawNavCalled_ := redrawNavCalled_ m |}.

Definition withNavSections (sections : list path) (m : MobNav) : MobNav :=
  {| navSections_ := sections; navPanel_ := navPanel_ m;
     headerBar_ := headerBar_ m; headerBarHeight_ := headerBarHeight_ m;
     elementsToOffset_ := elementsToOffset_ m;
     redrawNavCalled_ := redrawNavCalled_ m |}.

(** [findNavSections_]; [ids] is [window.pagespeedNavigationalIds], [None]
    when the page does not define it.  The result holds the document and the
    object as the call leaves them. *)
Definition findNavSections_ (E : Env) (ids : option (list string))
    (doc : node) (this : MobNav) : result (node * MobNav) :=
  let panel := getElementById doc (NAV_PANEL E) in
  let this := withNavPanel panel this in
  match panel with
  | Some navPanel =>
      match body doc with
      | None => TypeError (doc, this)
      | Some bodyRef =>
          match appendChild doc bodyRef navPanel with
          | None => TypeError (doc, this)
          | Some (doc', navPanel') =>
              Done (doc', withNavSections [] (withNavPanel (Some navPanel') this))
          end
      end
  | None =>
      match ids with
      | Some ids =>
          match discoverIds (doc, ∅, []) ids with
          | Done (doc', _, elements) => Done (doc', withNavSections elements this)
          | TypeError (doc', _, _) => TypeError (doc', this)
          end
      | None => Done (doc, withNavSections [] this)
      end
  end.

End Discovery.

(** ** Sample nodes *)

Module Sample.

(** [document.createElement(tag)]: an element that is not laid out yet. *)
Definition createElement (tag : string) : node :=
  Node (Props ELEMENT (JS.toUpperCase tag) [] "" OPnull "" "static" "auto" "" 0 false) [].

(** [document.createTextNode(s)]. *)
Definition createTextNode (s : string) : node :=
  Node (Props TEXT "#text" [] s OPundefined "" "" "" "" 0 false) [].

(** The elements of a page are those the HTML parser makes of their tags:
    of the tag svg it makes an element of the SVG namespace, whose
    [className] is no string. *)
Definition parsedAsSvg (tag : string) : bool :=
  String.eqb (JS.toUpperCase tag) "SVG".

(** An element of the page that is shown. *)
Definition element (tag : string) (attrs : list (string * string))
    (cs : list node) : node :=
  Node (Props ELEMENT (JS.toUpperCase tag) attrs "" OPelement "" "static" "auto"
              "" 0 (parsedAsSvg tag)) cs.

(** An element of the page that is not shown. *)
Definition hiddenElement (tag : string) (attrs : list (string * string))
    (cs : list node) : node :=
  Node (Props ELEMENT (JS.toUpperCase tag) attrs "" OPnull "" "static" "auto"
              "" 0 (parsedAsSvg tag)) cs.

(** An element with a computed position and top. *)
Definition positioned (tag : string) (attrs : list (string * string))
    (position top : string) (cs : list node) : node :=
  Node (Props ELEMENT (JS.toUpperCase tag) attrs "" OPelement "" position top
              "" 0 (parsedAsSvg tag)) cs.

(** An element below an svg element, of the SVG namespace as well: the name
    as it is written, a [className] that is no string. *)
Definition svgElement (name : string) (attrs : list (string * string))
    (cs : list node) : node :=
  Node (Props ELEMENT name attrs "" OPundefined "" "static" "auto" "" 0 true) cs.

Definition documentNode (cs : list node) : node :=
  Node (Props DOCUMENT "#document" [] "" OPundefined "" "" "" "" 0 false) cs.

(** A page with the given content of its body. *)
Definition page (content : list node) : node :=
  documentNode [element "html" [] [element "head" [] []; element "body" [] content]].

End Sample.

(** ** The panel builder: [constructNavPanel_] and [dedupNavMenuItems_] *)

Module Panel.
Import Dom Hierarchy Discovery Sample.

(** The value [getAttribute] gives, as a number; null is zero. *)
Definition toNum (v : option string) : option Z :=
  match v with
  | None => Some 0%Z
  | Some s => JS.toNumber s
  end.

(** [a < b] on two values of [getAttribute]: two strings are compared as
    strings; with null on a side both sides are compared as numbers. *)
Definition jsLt (a b : option string) : bool :=
  match a, b with
  | Some x, Some y => JS.ltStr x y
  | _, _ =>
      match toNum a, toNum b with
      | Some x, Some y => (x <? y)%Z
      | _, _ => false
      end
  end.

(** [a - b] on two values of [getAttribute]; [None] is NaN. *)
Definition jsSub (a b : option string) : option Z :=
  match toNum a, toNum b with
  | Some x, Some y => Some (x - y)%Z
  | _, _ => None
  end.

(** [parent.appendChild(child)] for a child that is in no tree yet. *)
Definition appendTo (parent child : node) : node :=
  Node (nprops parent) (childNodes parent ++ [child]).

(** [link.textContent || link.innerText]. *)
Definition titleOf (link : node) : string :=
  if String.eqb (textContent link) "" then innerText (nprops link)
  else textContent link.

(** The label of a submenu: a DIV that holds an A with the text of the link
    and the href [#]. *)
Definition submenuTitle (link : node) : node :=
  appendTo (createElement "DIV")
    (setAttribute "href" "#"
       (appendTo (createElement "A") (createTextNode (titleOf link)))).

(** The item that opens a submenu, with the submenu put in. *)
Definition submenuItem (link : node) (submenu : node) : node :=
  appendTo (appendTo (createElement "LI") (submenuTitle link)) submenu.

(** The item of a link: an LI that holds [link.cloneNode(true)]. *)
Definition leafItem (link : node) : node :=
  appendTo (createElement "LI") link.

(** [navSubmenus[navSubmenus.length - 1]]; the array is never empty. *)
Definition topSubmenu (navSubmenus : list path) : path :=
  default [] (last navSubmenus).

(** The loop that pops [popCnt] submenus and leaves the first. *)
Fixpoint popN (popCnt : nat) (navSubmenus : list path) : list path :=
  match popCnt with
  | O => navSubmenus
  | S n =>
      if (1 <? length navSubmenus)%nat then popN n (removelast navSubmenus)
      else navSubmenus
  end.

Definition popSubmenus (popCnt : option Z) (navSubmenus : list path) : list path :=
  match popCnt with
  | Some z => popN (Z.to_nat z) navSubmenus
  | None => navSubmenus
  end.

(** The body of the loop over [navATags]: the top list and the array of
    submenus before and after. *)
Definition addItem (navLevel1 navLevel2 : option string) (link : node)
    (st : node * list path) : node * list path :=
  let '(navTopUl, navSubmenus) := st in
  let here := topSubmenu navSubmenus in
  let k := match nodeAt navTopUl here with
           | Some ul => length (childNodes ul)
           | None => 0
           end in
  if jsLt navLevel1 navLevel2 then
    (appendAt here (submenuItem link (createElement "UL")) navTopUl,
     navSubmenus ++ [here ++ [k; 1]])
  else
    (appendAt here (leafItem link) navTopUl,
     popSubmenus (jsSub navLevel1 navLevel2) navSubmenus).

Fixpoint addItems (navATags : list node) (st : node * list path)
  : node * list path :=
  match navATags with
  | [] => st
  | link :: rest =>
      let navLevel1 := getAttribute link NAV_LEVEL in
      let navLevel2 :=
        match rest with
        | [] => navLevel1
        | next :: _ => getAttribute next NAV_LEVEL
        end in
      addItems rest (addItem navLevel1 navLevel2 link st)
  end.

(** The labelled links of a section, as the loop reads them. *)
Definition navATagsOf (nav : node) : list node :=
  let '(nav', tags) := labelNavDepth_ nav 0 false in
  omap (nodeAt nav') tags.

(** The turn of the outer loop for one section. *)
Definition addSection (navTopUl : node) (nav : node) : node :=
  (addItems (navATagsOf nav) (navTopUl, [[]])).1.

(** [constructNavPanel_] up to its two clean-up calls: the panel with the
    items of all sections.  [sections] holds the subtrees of the sections
    that have a parent, as the loop finds them; writing the section index on
    them and detaching them in layout mode changes the page, not the panel. *)
Definition constructNavPanel_ (E : Env) (sections : list node) : node :=
  let navTopUl := setAttribute "class" "open" (createElement "UL") in
  appendTo (setAttribute "id" (NAV_PANEL E) (createElement "NAV"))
           (foldl addSection navTopUl sections).

(** *** Serialisation *)

Definition quote : string := String (ascii_of_nat 34) EmptyString.

Fixpoint escape (inAttr : bool) (s : string) : string :=
  match s with
  | EmptyString => EmptyString
  | String c r =>
      (if Ascii.eqb c "&" then "&amp;"
       else if negb inAttr && Ascii.eqb c "<" then "&lt;"
       else if negb inAttr && Ascii.eqb c ">" then "&gt;"
       else if inAttr && Ascii.eqb c (ascii_of_nat 34) then "&quot;"
       else String c EmptyString) +:+ escape inAttr r
  end.

Definition voidElements : list string :=
  ["area"; "base"; "br"; "col"; "embed"; "hr"; "img"; "input"; "link";
   "meta"; "param"; "source"; "track"; "wbr"].

Fixpoint serializeAttrs (l : list (string * string)) : string :=
  match l with
  | [] => EmptyString
  | (k, v) :: r =>
      " " +:+ k +:+ "=" +:+ quote +:+ escape true v +:+ quote +:+ serializeAttrs r
  end.

Section Serialize.
Variable outer : node -> string.

Fixpoint serializeChildren (l : list node) : string :=
  match l with
  | [] => EmptyString
  | c :: r => outer c +:+ serializeChildren r
  end.
End Serialize.

(** [node.outerHTML], for the text, comments and elements of a menu. *)
Fixpoint outerHTML (n : node) : string :=
  match n with
  | Node p cs =>
      match nodeType p with
      | TEXT => escape false (data p)
      | COMMENT => "<!--" +:+ data p +:+ "-->"
      | ELEMENT =>
          let name := JS.asciiLower (nodeName p) in
          "<" +:+ name +:+ serializeAttrs (attrs p) +:+ ">" +:+
          (if bool_decide (name ∈ voidElements) then EmptyString
           else serializeChildren outerHTML cs +:+ "</" +:+ name +:+ ">")
      | _ => EmptyString
      end
  end.

(** [node.innerHTML]. *)
Definition innerHTML (n : node) : string :=
  serializeChildren outerHTML (childNodes n).

(** *** Deduplication *)

(** [aTag.href]: the resolved URL, empty without the attribute. *)
Definition hrefOf (E : Env) (aTag : node) : string :=
  match getAttribute aTag "href" with
  | Some ref => resolveURL E ref
  | None => ""
  end.

(** [aTag.innerHTML.toLowerCase()]. *)
Definition labelOf (E : Env) (aTag : node) : string :=
  toLowerCase E (innerHTML aTag).

(** What the scan reads of one A tag: its href, its label, and its parent
    when that is an LI. *)
Definition scanned : Type := string * string * option path.

Definition readTag (E : Env) (panel : node) (aTag : path) : scanned :=
  match nodeAt panel aTag with
  | Some a =>
      (hrefOf E a, labelOf E a,
       match parentNode aTag with
       | Some parent =>
           if holdsAt (isTag "LI") panel parent then Some parent else None
       | None => None
       end)
  | None => ("", "", None)
  end.

(** The state of the scan: [menuItems] and [nodesToDelete]. *)
Definition scanState : Type := gmap string (list string) * list path.

(** One turn of the first loop.  [None] stands for the exception raised
    when [menuItems[href]] is a member the object inherits. *)
Definition scanTag (st : scanState) (tag : scanned) : option scanState :=
  let '(menuItems, nodesToDelete) := st in
  let '(href, label, parentLi) := tag in
  if negb (jsIn href menuItems) then
    Some (<[href := [label]]> menuItems, nodesToDelete)
  else
    match menuItems !! href with
    | None => None
    | Some labels =>
        if bool_decide (label ∈ labels) then
          match parentLi with
          | Some li => Some (menuItems, nodesToDelete ++ [li])
          | None => Some (menuItems, nodesToDelete)
          end
        else Some (<[href := labels ++ [label]]> menuItems, nodesToDelete)
    end.

Fixpoint scanTags (st : scanState) (tags : list scanned) : option scanState :=
  match tags with
  | [] => Some st
  | tag :: rest =>
      match scanTag st tag with
      | Some st' => scanTags st' rest
      | None => None
      end
  end.

(** The references below child [i] among [marks], relative to that child. *)
Definition below (i : nat) (marks : list path) : list path :=
  omap (fun q => match q with
                 | j :: q' => if (j =? i)%nat then Some q' else None
                 | [] => None
                 end) marks.

Section Prune.
Variable rec : list path -> node -> node.
Variable marks : list path.

Fixpoint pruneChildren (i : nat) (l : list node) : list node :=
  match l with
  | [] => []
  | c :: r =>
      (if bool_decide ([i] ∈ marks) then [] else [rec (below i marks) c])
      ++ pruneChildren (S i) r
  end.
End Prune.

(** The tree without the nodes [marks] refers to. *)
Fixpoint prune (marks : list path) (t : node) : node :=
  match t with
  | Node p cs => Node p (pruneChildren prune marks 0 cs)
  end.

(** [dedupNavMenuItems_] on the panel.  The nodes are removed after the scan,
    one by one and each from its parent: a node that is queued twice has no
    parent the second time, which raises the exception; otherwise the panel
    is left without the queued nodes. *)
Definition dedupNavMenuItems_ (E : Env) (navPanel : node) : option node :=
  let aTags := getElementsByTagName navPanel "A" in
  match scanTags (∅, []) (map (readTag E navPanel) aTags) with
  | Some (_, nodesToDelete) =>
      if bool_decide (NoDup nodesToDelete)
      then Some (prune nodesToDelete navPanel) else None
  | None => None
  end.

(** *** The menu a panel renders *)

(** A menu entry: a link, or a submenu under the text of a link. *)
Unset Elimination Schemes.
Inductive item := Leaf (link : node) | Group (link : node) (sub : list item).
Set Elimination Schemes.

Section ItemInd.
Variable P : item -> Prop.
Hypothesis HLeaf : forall link, P (Leaf link).
Hypothesis HGroup : forall link sub, Forall P sub -> P (Group link sub).

Fixpoint item_ind' (it : item) : P it :=
  match it with
  | Leaf link => HLeaf link
  | Group link sub =>
      HGroup link sub
        ((fix go (l : list item) : Forall P l :=
            match l with
            | [] => @List.Forall_nil item P
            | i :: r => @List.Forall_cons item P i r (item_ind' i) (go r)
            end) sub)
  end.
End ItemInd.

(** The list item a menu entry is rendered as. *)
Fixpoint render (it : item) : node :=
  match it with
  | Leaf link => leafItem link
  | Group link sub =>
      submenuItem link (Node (nprops (createElement "UL")) (map render sub))
  end.

Definition renderUl (p : props) (items : list item) : node :=
  Node p (map render items).

(** The top list of a panel and the panel itself. *)
Definition topUlProps : props :=
  nprops (setAttribute "class" "open" (createElement "UL")).

Definition panelOf (E : Env) (items : list item) : node :=
  appendTo (setAttribute "id" (NAV_PANEL E) (createElement "NAV"))
           (renderUl topUlProps items).

(** The links of a menu, in document order. *)
Fixpoint linksOf (it : item) : list node :=
  match it with
  | Leaf link => [link]
  | Group link sub => link :: flat_map linksOf sub
  end.

(** The submenus that are open while the builder runs, outermost first:
    the items before each and the link it is named after. *)
Definition frames : Type := list (list item * node).

Fixpoint plugItems (outer : frames) (inner : list item) : list item :=
  match outer with
  | [] => inner
  | (done, link) :: outer' => done ++ [Group link (plugItems outer' inner)]
  end.

Fixpoint stackOf (outer : frames) : list path :=
  match outer with
  | [] => [[]]
  | (done, link) :: outer' =>
      [] :: map (fun q => length done :: 1 :: q) (stackOf outer')
  end.

(** The reference to the innermost open submenu. *)
Fixpoint topPath (outer : frames) : path :=
  match outer with
  | [] => []
  | (done, _) :: outer' => length done :: 1 :: topPath outer'
  end.

(** The state of the builder shows the menu with the given open submenus
    and the given links put in so far. *)
Definition builds (p : props) (links : list node) (st : node * list path) : Prop :=
  exists outer inner,
    st = (renderUl p (plugItems outer inner), stackOf outer)
    /\ flat_map linksOf (plugItems outer inner) = links.

(** The A tag of a submenu title. *)
Definition titleAnchor (link : node) : node :=
  setAttribute "href" "#"
    (appendTo (createElement "A") (createTextNode (titleOf link))).

(** A link as the HTML parser yields it: an A element with no A element
    inside. *)
Definition plainLink (link : node) : Prop :=
  isElement link = true /\ isTag "A" link = true
  /\ getElementsByTagName link "A" = [].

(** The links a menu shows as leaves. *)
Fixpoint leavesOf (it : item) : list node :=
  match it with
  | Leaf link => [link]
  | Group _ sub => flat_map leavesOf sub
  end.

(** The leaves of a menu are plain links. *)
Definition plainItems (items : list item) : Prop :=
  Forall plainLink (flat_map leavesOf items).

(** The key of an A tag: its href and its label in lower case. *)
Definition keyOf (E : Env) (aTag : node) : string * string :=
  (hrefOf E aTag, labelOf E aTag).

(** The A tags of a menu in document order: whether the tag is a leaf, and
    its key. *)
Fixpoint keysOf (E : Env) (it : item) : list (bool * (string * string)) :=
  match it with
  | Leaf link => [(true, keyOf E link)]
  | Group link sub =>
      (false, keyOf E (titleAnchor link)) :: flat_map (keysOf E) sub
  end.

(** First occurrence wins: a leaf stays unless an earlier A tag, leaf or
    title, has its key; a title stays. *)
Fixpoint survivors (earlier : list (string * string))
    (tags : list (bool * (string * string))) : list (bool * (string * string)) :=
  match tags with
  | [] => []
  | (leaf, key) :: rest =>
      (if leaf && bool_decide (key ∈ earlier) then [] else [(leaf, key)])
      ++ survivors (earlier ++ [key]) rest
  end.

(** What the scan has seen. *)
Definition seenKey (m : gmap string (list string)) (key : string * string) : bool :=
  match m !! key.1 with
  | Some labels => bool_decide (key.2 ∈ labels)
  | None => false
  end.

Definition addKey (m : gmap string (list string)) (key : string * string)
  : gmap string (list string) :=
  match m !! key.1 with
  | Some labels =>
      if bool_decide (key.2 ∈ labels) then m
      else <[key.1 := labels ++ [key.2]]> m
  | None => <[key.1 := [key.2]]> m
  end.

(** The keys the scan has seen are those of the A tags before. *)
Definition tracks (m : gmap string (list string))
    (earlier : list (string * string)) : Prop :=
  forall key, seenKey m key = bool_decide (key ∈ earlier).

Section DedupItems.
Variable rec : gmap string (list string) -> nat -> item
               -> gmap string (list string) * list item * list path.

Fixpoint dedupFrom (m : gmap string (list string)) (k : nat) (l : list item)
  : gmap string (list string) * list item * list path :=
  match l with
  | [] => (m, [], [])
  | it :: r =>
      let '(m1, kept, marks) := rec m k it in
      let '(m2, kept', marks') := dedupFrom m1 (S k) r in
      (m2, kept ++ kept', marks ++ marks')
  end.
End DedupItems.

(** Deduplication on the menu: the keys seen, the items that stay, and the
    list items that go, as references relative to the list that holds item
    [k]. *)
Fixpoint dedupItem (E : Env) (m : gmap string (list string)) (k : nat)
    (it : item) : gmap string (list string) * list item * list path :=
  match it with
  | Leaf link =>
      (addKey m (keyOf E link),
       if seenKey m (keyOf E link) then [] else [Leaf link],
       if seenKey m (keyOf E link) then [[k]] else [])
  | Group link sub =>
      let '(m', sub', marks) :=
        dedupFrom (dedupItem E) (addKey m (keyOf E (titleAnchor link))) 0 sub in
      (m', [Group link sub'], map (fun q => k :: 1 :: q) marks)
  end.

Definition dedupItems (E : Env) (items : list item) : list item :=
  (dedupFrom (dedupItem E) ∅ 0 items).1.2.

(** What the scan reads of the A tags of a menu, with references relative
    to the list that holds item [k]. *)
Definition liftTag (pre : path) (tag : scanned) : scanned :=
  (tag.1.1, tag.1.2, app pre <$> tag.2).

(** What the scan reads in a tree, and the same read off its children. *)
Definition entriesOf (E : Env) (t : node) : list scanned :=
  map (readTag E t) (getElementsByTagName t "A").

Fixpoint entriesChildren (E : Env) (parentIsLi : bool) (k : nat)
    (l : list node) : list scanned :=
  match l with
  | [] => []
  | c :: r =>
      ((if isNamed "A" c
        then [(hrefOf E c, labelOf E c, if parentIsLi then Some [] else None)]
        else [])
       ++ map (liftTag [k]) (entriesOf E c))
      ++ entriesChildren E parentIsLi (S k) r
  end.

Section Entries.
Variable rec : nat -> item -> list scanned.

Fixpoint entriesWith (k : nat) (l : list item) : list scanned :=
  match l with
  | [] => []
  | it :: r => rec k it ++ entriesWith (S k) r
  end.
End Entries.

Fixpoint entriesItem (E : Env) (k : nat) (it : item) : list scanned :=
  match it with
  | Leaf link => [(hrefOf E link, labelOf E link, Some [k])]
  | Group link sub =>
      (hrefOf E (titleAnchor link), labelOf E (titleAnchor link), None)
      :: map (liftTag [k; 1]) (entriesWith (entriesItem E) 0 sub)
  end.

Definition entriesFrom (E : Env) (k : nat) (l : list item) : list scanned :=
  entriesWith (entriesItem E) k l.

End Panel.

(** Modelled from the spec: [MobUtil.pixelValue] (mobilize_util.js is not in
    the sources), the CSS pixel-value parsing of the geometry utilities: a
    decimal integer, with or without the unit px. *)
Definition samplePixelValue (s : string) : option Z :=
  let n := String.length s in
  let digits :=
    if String.eqb (String.substring (n - 2) 2 s) "px"
    then String.substring 0 (n - 2) s else s in
  let parse (d : string) : option Z :=
    match d with
    | EmptyString => None
    | _ => (fun u => Z.of_nat (Nat.of_uint u)) <$> NilEmpty.uint_of_string d
    end in
  match digits with
  | String "-" d => Z.opp <$> parse d
  | _ => parse digits
  end.

(** The case mapping of the examples: [String.prototype.toLowerCase] on text
    whose letters are those of ASCII and Latin-1.  A letter beyond ASCII is
    the character of its code, 201 for the capital E with an acute accent
    and 233 for the small one; in a literal typed in this file it is the
    two bytes of its UTF-8 form, 195 137 and 195 169.  The capitals, A to Z
    and the codes 192 to 222 other than the multiplication sign 215, go to
    the letters 32 places after them, in both forms; a byte from 194 to 223
    before one from 128 to 191 is read as the first of the UTF-8 form. *)
Definition lowerUnit (c : ascii) : ascii :=
  let n := nat_of_ascii c in
  if ((65 <=? n)%nat && (n <=? 90)%nat)
     || ((192 <=? n)%nat && (n <=? 222)%nat && negb (n =? 215)%nat)
  then ascii_of_nat (n + 32) else c.

Definition lowerSecond (first second : ascii) : ascii :=
  let n := nat_of_ascii second in
  if (nat_of_ascii first =? 195)%nat
     && (128 <=? n)%nat && (n <=? 158)%nat && negb (n =? 151)%nat
  then ascii_of_nat (n + 32) else second.

Fixpoint sampleLowerCase (s : string) : string :=
  match s with
  | EmptyString => EmptyString
  | String c r =>
      match r with
      | String c' r' =>
          if (194 <=? nat_of_ascii c)%nat && (nat_of_ascii c <=? 223)%nat
             && (128 <=? nat_of_ascii c')%nat && (nat_of_ascii c' <=? 191)%nat
          then String c (String (lowerSecond c c') (sampleLowerCase r'))
          else String (lowerUnit c) (sampleLowerCase r)
      | EmptyString => String (lowerUnit c) EmptyString
      end
  end.

(** An environment for the examples: the identifiers of mobilize_util.js, a
    page served from one directory, and the case mapping above. *)
Definition sampleEnv : Env :=
  {| NAV_PANEL := "psmob-nav-panel";
     PROGRESS_SCRIM := "ps-progress-scrim";
     pixelValue := samplePixelValue;
     resolveURL := fun ref => "http://example.com/" +:+ ref;
     toLowerCase := sampleLowerCase |}.

(** Links and lists for the examples. *)
Definition sampleLink (href text : string) : node :=
  Sample.element "a" [("href", href)] [Sample.createTextNode text].

Definition sampleLi (cs : list node) : node := Sample.element "li" [] cs.
Definition sampleUl (cs : list node) : node := Sample.element "ul" [] cs.

(** [n] lists, one in the other, around [inner]. *)
Fixpoint nestedLists (n : nat) (inner : list node) : list node :=
  match n with
  | O => inner
  | S k => [sampleUl [sampleLi (nestedLists k inner)]]
  end.

(** A section whose lists go eleven deep: the link Nine stands in the tenth
    list, the link Ten in the eleventh, which is nested under Nine. *)
Definition deepNav : node :=
  Sample.element "nav" []
    (nestedLists 9
       [sampleUl [sampleLi [sampleLink "/nine" "Nine";
                            sampleUl [sampleLi [sampleLink "/ten" "Ten"]]]]]).


(** The section of the spec's scenario: Home, and Sub in a nested list. *)
Definition homeSubNav : node :=
  Sample.element "nav" []
    [sampleUl [sampleLi [sampleLink "/" "Home"];
               sampleLi [sampleUl [sampleLi [sampleLink "/sub" "Sub"]]]]].







(** A page that has the panel, inside a container. *)
Definition panelPage : node :=
  Sample.page
    [Sample.element "div" []
       [Sample.element "nav" [("id", "psmob-nav-panel")] []];
     Sample.element "p" [] []].

(** The same page with the panel moved to the end of the body. *)
Definition panelPageMoved : node :=
  Sample.page
    [Sample.element "div" [] [];
     Sample.element "p" [] [];
     Sample.element "nav" [("id", "psmob-nav-panel")] []].

(** A list of links whose parent has the id toString. *)
Definition inheritedIdPage : node :=
  Sample.page
    [Sample.element "div" [("id", "toString")]
       [Sample.element "ul" [("id", "nav")] []]].

(** Two lists of links, each in a container of its own. *)
Definition twoNavPage : node :=
  Sample.page
    [Sample.element "div" [] [Sample.element "ul" [("id", "main")] []];
     Sample.element "div" [] [Sample.element "ul" [("id", "foot")] []]].

(** A list of links followed by a note that is not shown. *)
Definition hiddenNoteParent : node :=
  Sample.element "div" []
    [Sample.element "ul" [("id", "nav")] [];
     Sample.hiddenElement "span" [] [Sample.createTextNode "hello"]].

Definition hiddenNotePage : node := Sample.page [hiddenNoteParent].



(** A section that is itself a list: Home, and Sub in a list inside. *)
Definition listSection : node :=
  sampleUl [sampleLi [sampleLink "/" "Home";
                      sampleUl [sampleLi [sampleLink "/sub" "Sub"]]]].




(** ** The elements to offset: [findElementsToOffset_] *)

Module Offsets.
Import Dom Discovery.

(** What [!=] makes of a [className] that is an SVGAnimatedString before it
    compares it with a string. *)
Definition SVG_CLASS_NAME : string := "[object SVGAnimatedString]".

(** The test that keeps the walk out of the overlay.  [None] is the
    TypeError of [goog.string.startsWith] on a [className] that is no
    string; the comparison before it does not raise, and ends the test when
    it finds the two equal. *)
Definition outsideOverlay (E : Env) (element : node) : option bool :=
  match className element with
  | Some cls =>
      Some (negb (String.eqb cls (PROGRESS_SCRIM E))
            && negb (JS.startsWith cls "psmob-")
            && negb (JS.startsWith (idOf element) "psmob-"))
  | None =>
      if String.eqb SVG_CLASS_NAME (PROGRESS_SCRIM E) then Some false else None
  end.

(** What [position] and [top] of an element say: whether it is added to the
    set. *)
Definition addsOffset (E : Env) (element : node) (fixedPositionOnly : bool) : bool :=
  let position := cssPosition (nprops element) in
  negb (String.eqb position "static")
  && bool_decide (pixelValue E (cssTop (nprops element)) <> None)
  && (String.eqb position "fixed"
      || (negb fixedPositionOnly && String.eqb position "absolute")).

(** The references added before and in a run that goes on. *)
Definition andThen (added : list path) (r : result (list path))
  : result (list path) :=
  match r with
  | Done more => Done (added ++ more)
  | TypeError more => TypeError (added ++ more)
  end.

Section Helper.
Variable rec : node -> bool -> result (list path).
Variable fixedPositionOnly : bool.

(** The loop over [firstElementChild], [nextElementSibling]; an exception
    in a call ends it. *)
Fixpoint offsetChildren (i : nat) (l : list node) : result (list path) :=
  match l with
  | [] => Done []
  | childElement :: rest =>
      if isElement childElement then
        match rec childElement fixedPositionOnly with
        | Done added =>
            andThen (map (cons i) added) (offsetChildren (S i) rest)
        | TypeError added => TypeError (map (cons i) added)
        end
      else offsetChildren (S i) rest
  end.
End Helper.

(** [findElementsToOffsetHelper_]: the references it adds to the set, relative
    to [element], and whether it returns. *)
Fixpoint findElementsToOffsetHelper_ (E : Env) (element : node)
    (fixedPositionOnly : bool) {struct element} : result (list path) :=
  match element with
  | Node p cs =>
      match outsideOverlay E element with
      | None => TypeError []
      | Some false => Done []
      | Some true =>
          let positioned := negb (String.eqb (cssPosition p) "static") in
          andThen (if addsOffset E element fixedPositionOnly then [[]] else [])
                  (offsetChildren (findElementsToOffsetHelper_ E)
                     (if positioned then true else fixedPositionOnly) 0 cs)
      end
  end.

(** The object with more elements in the set. *)
Definition withOffsets (added : gset path) (this : MobNav) : MobNav :=
  {| navSections_ := navSections_ this; navPanel_ := navPanel_ this;
     headerBar_ := headerBar_ this;
     headerBarHeight_ := headerBarHeight_ this;
     elementsToOffset_ := elementsToOffset_ this ∪ added;
     redrawNavCalled_ := redrawNavCalled_ this |}.

(** [findElementsToOffset_]: the object after the call, with what was added
    before an exception, if there was one. *)
Definition findElementsToOffset_ (E : Env) (doc : node) (this : MobNav)
  : result MobNav :=
  match body doc with
  | Some bodyRef =>
      match nodeAt doc bodyRef with
      | Some bodyNd =>
          match findElementsToOffsetHelper_ E bodyNd false with
          | Done added =>
              Done (withOffsets (list_to_set (map (app bodyRef) added)) this)
          | TypeError added =>
              TypeError (withOffsets (list_to_set (map (app bodyRef) added)) this)
          end
      | None => Done this
      end
  | None => Done this
  end.

(** *** The elements the walk adds, read off the path to them *)

(** The node at [q] below [element] is reached through elements outside the
    overlay and is itself one. *)
Fixpoint reached (E : Env) (element : node) (q : path) : bool :=
  bool_decide (outsideOverlay E element = Some true)
  && match q with
     | [] => true
     | i :: q' =>
         match childNodes element !! i with
         | Some c => isElement c && reached E c q'
         | None => false
         end
     end.



(** Some node from [element] down to the parent of the node at [q] has a
    position other than static. *)
Fixpoint positionedAbove (element : node) (q : path) : bool :=
  match q with
  | [] => false
  | i :: q' =>
      negb (String.eqb (cssPosition (nprops element)) "static")
      || match childNodes element !! i with
         | Some c => positionedAbove c q'
         | None => false
         end
  end.

(** The node at [q] below [element] is one the walk adds. *)
Definition tracked (E : Env) (element : node) (fixedPositionOnly : bool)
    (q : path) : bool :=
  reached E element q
  && holdsAt (fun n => addsOffset E n
                         (fixedPositionOnly || positionedAbove element q))
             element q.



End Offsets.

(** ** The header redraw: [redrawHeader_] *)

Module Redraw.
Import Dom Discovery.

Definition withStyleTop (top : string) (p : props) : props :=
  Props (nodeType p) (nodeName p) (attrs p) (data p) (offsetParent p)
        (innerText p) (cssPosition p) (cssTop p) top (rectTop p) (svgClassName p).

(** One turn of the loop over the elements to offset: what it does to the
    element at hand.  Pixel quantities are integers here. *)
Definition offsetTop (E : Env) (redrawNavCalled : bool)
    (oldHeight newHeight : Z) (el : props) : props :=
  let position := cssPosition el in
  let top := pixelValue E (cssTop el) in
  if negb (String.eqb position "static") && bool_decide (top <> None) then
    if redrawNavCalled then
      match pixelValue E (styleTop el) with
      | Some oldTop =>
          withStyleTop (JS.ofZ (oldTop + (newHeight - oldHeight)) +:+ "px") el
      | None => el
      end
    else withStyleTop (JS.ofZ (rectTop el + newHeight) +:+ "px") el
  else el.

Definition withRedraw (height : Z) (m : MobNav) : MobNav :=
  {| navSections_ := navSections_ m; navPanel_ := navPanel_ m;
     headerBar_ := headerBar_ m; headerBarHeight_ := height;
     elementsToOffset_ := elementsToOffset_ m;
     redrawNavCalled_ := true |}.

(** [redrawHeader_], as far as the elements to offset, the scroll position
    and the object go.  [measuredBefore] and [measuredAfter] are the rounded
    heights [getTransformedSize] gives for the header bar before and after
    the scale is applied; [scrolls] lists the calls of [window.scrollBy].
    What the function writes on the overlay is left out: the transform, the
    top and the left of the header bar and its class [hide], the left and
    the right of the logo, the height of the spacer.  So the document below
    says nothing of these three nodes. *)
Definition redrawHeader_ (E : Env) (measuredBefore measuredAfter : Z)
    (doc : node) (this : MobNav) (scrolls : list (Z * Z))
  : node * MobNav * list (Z * Z) :=
  match headerBar_ this with
  | None => (doc, this, scrolls)
  | Some _ =>
      let oldHeight :=
        if (headerBarHeight_ this =? -1)%Z then measuredBefore
        else headerBarHeight_ this in
      let newHeight := measuredAfter in
      let offsets := elements (elementsToOffset_ this) in
      let doc :=
        foldl (fun d el =>
                 updateAt (setProps (offsetTop E (redrawNavCalled_ this)
                                               oldHeight newHeight)) el d)
              doc offsets in
      let scrolls :=
        if redrawNavCalled_ this && negb (newHeight =? oldHeight)%Z
        then scrolls ++ [(0, newHeight - oldHeight)%Z] else scrolls in
      (doc, withRedraw newHeight this, scrolls)
  end.

(** The height the redraw compares the new one with. *)
Definition oldHeightOf (this : MobNav) (measuredBefore : Z) : Z :=
  if (headerBarHeight_ this =? -1)%Z then measuredBefore
  else headerBarHeight_ this.

Definition styleTopAt (t : node) (q : path) : option string :=
  styleTop <$> propsAt t q.

End Redraw.

(** A page with a fixed banner, and the object after the pre-pass and the
    insertion of the header bar. *)
Definition bannerPage : node :=
  Sample.page [Sample.positioned "div" [("id", "banner")] "fixed" "0px" []].

Definition bannerNav : Discovery.MobNav :=
  {| Discovery.navSections_ := []; Discovery.navPanel_ := None;
     Discovery.headerBar_ := Some [0; 1; 1];
     Discovery.headerBarHeight_ := (-1)%Z;
     Discovery.elementsToOffset_ := {[ [0; 1; 0] ]};
     Discovery.redrawNavCalled_ := false |}.

(** A page with an inline picture of the SVG namespace ahead of a fixed
    banner. *)
Definition svgBannerPage : node :=
  Sample.page
    [Sample.element "svg" [("class", "icon")] [Sample.svgElement "path" [] []];
     Sample.positioned "div" [("id", "banner")] "fixed" "0px" []].


(** ** Notions for the further properties *)

(** *** Labelling *)

Module Traversal.
Import Dom Hierarchy.

(** What labelling from depth [d] makes of the properties of the node at
    [q] below [t]: a node named A gets its level, every other node stays. *)
Definition labelledProps (t : node) (d : nat) (u : bool) (q : path) (n : node)
  : props :=
  if bool_decide (q <> []) && isTag "A" n
  then nprops (setAttribute NAV_LEVEL
                 (JS.ofNat (nestingDepth d u (listNesting t q))) n)
  else nprops n.

(** A section as the parser yields it: what is named A below it is an
    element and holds no A element. *)
Definition plainSection (nav : node) : Prop :=
  forall q a, q <> [] -> nodeAt nav q = Some a -> isTag "A" a = true ->
              isElement a = true /\ getElementsByTagName a "A" = [].

(** A section without a list inside a list: every link lies in at most one
    list. *)
Definition flatSection (nav : node) : Prop :=
  forall q a, q <> [] -> nodeAt nav q = Some a -> isTag "A" a = true ->
              listNesting nav q <= 1.

End Traversal.

(** *** Runs and what they leave *)

Module Runs.
Import Dom Discovery Redraw.

(** The reference denotes a node of the page. *)
Definition valid (doc : node) (q : path) : Prop := is_Some (nodeAt doc q).

(** The page [doc'] is [doc] with ids written on elements that had none. *)
Definition onlyIdsAdded (doc doc' : node) : Prop :=
  forall q,
    propsAt doc' q = propsAt doc q \/
    (idAt doc q = "" /\
     exists id, id <> "" /\
       propsAt doc' q = (fun n => nprops (setAttribute "id" id n)) <$> nodeAt doc q).

(** The redraws that follow one another as the events bring them; each is
    given the two heights it measures. *)
Fixpoint redraws (E : Env) (measured : list (Z * Z))
    (st : node * MobNav * list (Z * Z)) : node * MobNav * list (Z * Z) :=
  match measured with
  | [] => st
  | (measuredBefore, measuredAfter) :: rest =>
      redraws E rest
        (redrawHeader_ E measuredBefore measuredAfter st.1.1 st.1.2 st.2)
  end.

(** The distance the calls of [scrollBy] add up to, downwards. *)
Definition scrolledBy (scrolls : list (Z * Z)) : Z :=
  foldr Z.add 0%Z (map snd scrolls).

End Runs.

(** *** Siblings of a candidate *)

Module Siblings.
Import Dom Enlarge.

(** The node once the browser lays it out: its [offsetParent] is an
    element. *)
Definition shown (n : node) : node :=
  setProps (fun p => Props (nodeType p) (nodeName p) (attrs p) (data p) OPelement
                           (innerText p) (cssPosition p) (cssTop p) (styleTop p)
                           (rectTop p) (svgClassName p)) n.


End Siblings.

(** *** Repeated tags *)

Module Repeats.
Import Dom Panel.


End Repeats.


(** ** Cleaning the panel: [cleanupNavPanel_] *)

Module Cleanup.
Import Dom Sample Panel Redraw.

(** What the clean-up takes from the page besides the panel. *)
Record Page := {
  MENU_EXPAND_ICON : string;     (* MobUtil.ElementClass.MENU_EXPAND_ICON *)
  naturalHeight : props -> nat;  (* img.naturalHeight *)
  FastClick : bool;              (* window['FastClick'] is there *)
}.

Fixpoint dropAttr (k : string) (l : list (string * string))
  : list (string * string) :=
  match l with
  | [] => []
  | (k', v) :: r => if String.eqb k k' then dropAttr k r else (k', v) :: dropAttr k r
  end.

(** [node.removeAttribute(k)]. *)
Definition removeAttribute (k : string) (n : node) : node :=
  setProps (fun p => withAttrs (dropAttr k (attrs p)) p) n.

(** [node.removeAttribute('style')]: the inline styles go with the
    attribute. *)
Definition removeStyle (n : node) : node :=
  setProps (withStyleTop "") (removeAttribute "style" n).

(** [node.hasAttribute(k)]. *)
Definition hasAttribute (n : node) (k : string) : bool :=
  bool_decide (is_Some (getAttribute n k)).

(** The elements that have a [src] property. *)
Definition srcElements : list string :=
  ["IMG"; "SCRIPT"; "IFRAME"; "EMBED"; "INPUT"; "AUDIO"; "VIDEO"; "SOURCE";
   "TRACK"].

(** [node.src]: the resolved URL, empty without the attribute; [None] is
    undefined, for an element that has no such property. *)
Definition srcOf (E : Env) (nd : node) : option string :=
  if bool_decide (JS.toUpperCase (nodeName (nprops nd)) ∈ srcElements) then
    Some (match getAttribute nd "src" with
          | Some ref => resolveURL E ref
          | None => ""
          end)
  else None.

(** [logoImg ? logoImg.src : ''], for the element with the id of the logo
    image, if the page has one. *)
Definition logoSrcOf (E : Env) (logoImg : option node) : option string :=
  match logoImg with
  | Some img => srcOf E img
  | None => Some ""
  end.

(** The body of the first loop on one node: the node as the turn leaves
    it, and whether it is queued. *)
Definition cleanNode (E : Env) (logoSrc : option string) (nd : node)
  : node * bool :=
  let nd := removeAttribute "height" (removeAttribute "width" (removeStyle nd)) in
  if isTag "A" nd then
    let nd :=
      if String.eqb (textContent nd) "" && hasAttribute nd "title"
      then appendTo nd (createTextNode (default "" (getAttribute nd "title")))
      else nd in
    (nd, String.eqb (hrefOf E nd) "")
  else if isTag "IMG" nd then
    (nd, bool_decide (srcOf E nd = logoSrc))
  else (nd, false).

(** One turn of the first loop: the panel and [nodesToDelete]. *)
Definition cleanAt (E : Env) (logoSrc : option string)
    (st : node * list path) (q : path) : node * list path :=
  match nodeAt st.1 q with
  | Some nd =>
      let '(nd', queued) := cleanNode E logoSrc nd in
      (updateAt (fun _ => nd') q st.1, if queued then st.2 ++ [q] else st.2)
  | None => st
  end.

(** The walk [node = node.parentNode] up to an LI, from a queued node, which
    is an A or an IMG: the deepest LI from [t] down to the parent of the
    node at [q]; [[]] is [t] itself, [None] that there is none. *)
Fixpoint enclosingLi (t : node) (q : path) : option path :=
  match q with
  | [] => None
  | i :: q' =>
      match childNodes t !! i ≫= fun c => enclosingLi c q' with
      | Some r => Some (i :: r)
      | None => if isTag "LI" t then Some [] else None
      end
  end.

(** The second loop.  The panel is a child of the body, and neither the
    body nor what lies above it is an LI: a walk that finds no LI in the
    panel ends on the parent of the document, which raises.  An LI that is
    reached twice has no parent the second time, which raises as well. *)
Definition removeQueued (panel : node) (nodesToDelete : list path) : option node :=
  match mapM (enclosingLi panel) nodesToDelete with
  | Some lis => if bool_decide (NoDup lis) then Some (prune lis panel) else None
  | None => None
  end.

(** *** Class lists *)

Definition isAsciiSpace (c : ascii) : bool :=
  let n := nat_of_ascii c in
  (n =? 9)%nat || (n =? 10)%nat || (n =? 12)%nat || (n =? 13)%nat || (n =? 32)%nat.

(** Splits at white space; [cur] holds the token at hand, last character
    first. *)
Fixpoint splitTokens (cur : list ascii) (l : list ascii) : list string :=
  match l with
  | [] => match cur with [] => [] | _ => [string_of_list_ascii (rev cur)] end
  | c :: r =>
      if isAsciiSpace c then
        match cur with [] => [] | _ => [string_of_list_ascii (rev cur)] end
        ++ splitTokens [] r
      else splitTokens (c :: cur) r
  end.

(** Keeps the first of equal tokens. *)
Fixpoint orderedSet (seen : list string) (l : list string) : list string :=
  match l with
  | [] => []
  | x :: r =>
      if bool_decide (x ∈ seen) then orderedSet seen r
      else x :: orderedSet (seen ++ [x]) r
  end.

(** [element.classList]. *)
Definition classList (n : node) : list string :=
  orderedSet [] (splitTokens [] (list_ascii_of_string
                                   (default "" (getAttribute n "class")))).

Fixpoint joinTokens (l : list string) : string :=
  match l with
  | [] => ""
  | [x] => x
  | x :: r => x +:+ " " +:+ joinTokens r
  end.

(** [goog.dom.classlist.add(element, c)], by way of [classList.add]. *)
Definition addClass (c : string) (p : props) : props :=
  let tokens := orderedSet [] (splitTokens []
                  (list_ascii_of_string (default "" (lookupAttr "class" (attrs p))))) in
  withAttrs (storeAttr "class"
               (joinTokens (if bool_decide (c ∈ tokens) then tokens
                            else tokens ++ [c]))
               (attrs p)) p.

(** [img.setAttribute('height', Math.min(img.naturalHeight * 2, 40))]. *)
Definition capHeight (P : Page) (p : props) : props :=
  withAttrs (storeAttr "height"
               (JS.ofNat (Nat.min (naturalHeight P p * 2) 40)) (attrs p)) p.

(** A loop that rewrites the properties of the nodes of a list. *)
Definition rewriteAll (g : props -> props) (refs : list path) (t : node) : node :=
  foldl (fun t q => updateAt (setProps g) q t) t refs.

(** [cleanupNavPanel_] on the panel; [logoImg] is the element with the id of
    the logo image, if the page has one.  [None] stands for the
    exception. *)
Definition cleanupNavPanel_ (E : Env) (P : Page) (logoImg : option node)
    (navPanel : node) : option node :=
  let nodes := select isElement navPanel in
  let '(navPanel, nodesToDelete) :=
    foldl (cleanAt E (logoSrcOf E logoImg)) (navPanel, []) nodes in
  match removeQueued navPanel nodesToDelete with
  | None => None
  | Some navPanel =>
      let images :=
        select (fun n => isNamed "IMG" n
                         && negb (bool_decide (MENU_EXPAND_ICON P ∈ classList n)))
               navPanel in
      let navPanel := rewriteAll (capHeight P) images navPanel in
      if FastClick P then
        let navPanel :=
          rewriteAll (addClass "needsclick")
                     (getElementsByTagName navPanel "A") navPanel in
        Some (rewriteAll (addClass "needsclick")
                         (getElementsByTagName navPanel "DIV") navPanel)
      else Some navPanel
  end.

Definition samplePage : Page :=
  {| MENU_EXPAND_ICON := "psmob-menu-expand-icon";
     naturalHeight := fun _ => 15;
     FastClick := true |}.

(** A panel with a styled entry, an entry whose link has no [href], and a
    picture. *)
Definition samplePanel : node :=
  Sample.element "nav" []
    [sampleUl
       [Sample.element "li" [("style", "color:red")]
          [Sample.element "a" [("href", "/a"); ("width", "10")]
             [Sample.element "img" [("src", "a.png"); ("height", "100")] []]];
        sampleLi [Sample.element "a" [("title", "gone")] []]]].

(** The same without the entry that has no [href]. *)
Definition livePanel : node :=
  Sample.element "nav" []
    [sampleUl
       [Sample.element "li" [("style", "color:red")]
          [Sample.element "a" [("href", "/a"); ("width", "10")]
             [Sample.element "img" [("src", "a.png"); ("height", "100")] []]]]].



End Cleanup.


(** *** The first loop, by recursion on the tree *)

Module CleanupTree.
Import Dom Sample Panel Redraw Cleanup.

Section Below.
Variables (E : Env) (logoSrc : option string).
Variable rec : node -> node * list path.

(** What the loop makes of one child and of what lies below it: the turn
    of the child itself, when it is an element, and the turns of its
    descendants; a text node the turn appends comes after the children. *)
Definition cleanChild (c : node) : node * list path :=
  let '(below, sub) := rec c in
  if isElement c then
    let '(c', queued) := cleanNode E logoSrc c in
    (Node (nprops c')
          (childNodes below ++ drop (length (childNodes c)) (childNodes c')),
     (if queued then [[]] else []) ++ sub)
  else (below, sub).

Fixpoint cleanChildren (i : nat) (l : list node) : list node * list path :=
  match l with
  | [] => ([], [])
  | c :: r =>
      let '(c', marks) := cleanChild c in
      let '(r', more) := cleanChildren (S i) r in
      (c' :: r', map (cons i) marks ++ more)
  end.
End Below.

(** The tree and the queue after the first loop. *)
Fixpoint cleanBelow (E : Env) (logoSrc : option string) (n : node)
  : node * list path :=
  match n with
  | Node p cs =>
      let '(cs', marks) := cleanChildren E logoSrc (cleanBelow E logoSrc) 0 cs in
      (Node p cs', marks)
  end.

(** The loop on the subtree of [c], started on a tree that has the children
    of [c] and more behind them. *)
Definition cleanLoopOk (E : Env) (logoSrc : option string) (c : node) : Prop :=
  forall p' extra m0,
    foldl (cleanAt E logoSrc) (Node p' (childNodes c ++ extra), m0)
          (select isElement c)
    = (Node p' (childNodes (cleanBelow E logoSrc c).1 ++ extra),
       m0 ++ (cleanBelow E logoSrc c).2).

(** A node of the tree the clean-up returns has the properties its turn of
    the first loop left, but for the height and the class. *)
Definition restyled (P : Page) (p p' : props) : Prop :=
  nodeType p' = nodeType p /\ nodeName p' = nodeName p /\
  styleTop p' = styleTop p /\
  (forall k, k <> "height" -> k <> "class" ->
             lookupAttr k (attrs p') = lookupAttr k (attrs p)) /\
  (lookupAttr "height" (attrs p') = lookupAttr "height" (attrs p) \/
   (nodeType p = ELEMENT /\ JS.toUpperCase (nodeName p) = "IMG" /\
    exists h, h <= 40 /\ lookupAttr "height" (attrs p') = Some (JS.ofNat h))).

(** Whether the first loop queues an element: an A whose [href] is empty,
    an IMG whose [src] is that of the logo. *)
Definition queues (E : Env) (logoSrc : option string) (nd : node) : bool :=
  if isTag "A" nd then String.eqb (hrefOf E nd) ""
  else if isTag "IMG" nd then bool_decide (srcOf E nd = logoSrc)
  else false.

End CleanupTree.

(** ** The panel builder with its clean-up calls *)

Module Whole.
Import Dom Hierarchy Panel Cleanup CleanupTree.




End Whole.

(** ** The arrows of the submenus: [addSubmenuArrows_] *)

Module Arrows.
Import Dom Sample Panel Cleanup.

(** Whether the node at [q] matches [ptag > ctag]: an element named [ctag]
    whose parent is an element named [ptag]. *)
Definition isChildOfAt (ptag ctag : string) (t : node) (q : path) : bool :=
  holdsAt (isNamed ctag) t q &&
  match parentNode q with
  | Some parent => holdsAt (isNamed ptag) t parent
  | None => false
  end.

(** [t.querySelectorAll(ptag + ' > ' + ctag)]. *)
Definition selectChildren (ptag ctag : string) (t : node) : list path :=
  List.filter (isChildOfAt ptag ctag t) (descendants t).

(** [submenu.insertBefore(icon, submenu.firstChild)]. *)
Definition insertFirst (icon : node) (submenu : node) : node :=
  Node (nprops submenu) (icon :: childNodes submenu).

(** Where [target] is found once the node at [q] has a new first child. *)
Fixpoint pushed (q target : path) : path :=
  match q, target with
  | [], j :: t' => S j :: t'
  | i :: q', j :: t' => if (i =? j)%nat then j :: pushed q' t' else target
  | _, _ => target
  end.

(** The icon of one turn of the loop, with its [src] and its class. *)
Definition expandIcon (P : Page) (arrowIcon : string) : node :=
  setProps (addClass (MENU_EXPAND_ICON P))
           (setAttribute "src" arrowIcon (createElement "IMG")).

(** Turn [i] of the loop: the panel, and the list with the references as
    they are once the icon is in. *)
Definition arrowTurn (icon : node) (st : node * list path) (i : nat)
  : node * list path :=
  match st.2 !! i with
  | Some q => (updateAt (insertFirst icon) q st.1, map (pushed q) st.2)
  | None => st
  end.

(** [addSubmenuArrows_]; [arrowIcon] is what [synthesizeImage] returns for
    the arrow in the colour of the theme, [None] for null. *)
Definition addSubmenuArrows_ (P : Page) (arrowIcon : option string)
    (navPanel : node) : node :=
  let submenuTitleAs := selectChildren "DIV" "A" navPanel in
  let n := length submenuTitleAs in
  if (n =? 0)%nat then navPanel
  else
    match arrowIcon with
    | None => navPanel
    | Some src =>
        if String.eqb src "" then navPanel
        else (foldl (arrowTurn (expandIcon P src))
                    (navPanel, submenuTitleAs) (seq 0 n)).1
    end.

(** *** The panel with its arrows, by recursion on the tree *)

Section Below.
Variable icon : node.
Variable rec : node -> node.

Definition arrowChild (parentIsDiv : bool) (c : node) : node :=
  if parentIsDiv && isNamed "A" c then insertFirst icon (rec c) else rec c.
End Below.

(** The panel with the icon put first into every A whose parent is a DIV. *)
Fixpoint arrowsBelow (icon : node) (n : node) : node :=
  match n with
  | Node p cs =>
      Node p (map (arrowChild icon (arrowsBelow icon) (isNamed "DIV" (Node p cs))) cs)
  end.

(** The matches of [ptag > ctag] read off the children from child [k] on. *)
Fixpoint selectChildrenFrom (ptag ctag : string) (parentOk : bool) (k : nat)
    (l : list node) : list path :=
  match l with
  | [] => []
  | c :: r =>
      map (cons k) ((if isNamed ctag c && parentOk then [[]] else [])
                    ++ selectChildren ptag ctag c)
      ++ selectChildrenFrom ptag ctag parentOk (S k) r
  end.

(** No link lies inside a link, as in what the HTML parser yields. *)
Definition plainPanel (navPanel : node) : Prop :=
  forall q a, nodeAt navPanel q = Some a -> isNamed "A" a = true ->
              getElementsByTagName a "A" = [].

(** A panel with one submenu. *)
Definition titledPanel : node :=
  Sample.element "nav" []
    [sampleUl
       [sampleLi [Sample.element "div" [] [sampleLink "#" "More"];
                  sampleUl [sampleLi [sampleLink "/x" "X"]]]]].

End Arrows.
(** * Theorems *)

Import Dom.

(** ** Paths and trees *)

Lemma nodeAt_cons (p : props) (cs : list node) (i : nat) (q : path) :
  nodeAt (Node p cs) (i :: q) = cs !! i ≫= fun c => nodeAt c q.
Proof. simpl. destruct (cs !! i); reflexivity. Qed.

Lemma nodeAt_setProps (f : props -> props) (n : node) (q : path) :
  q <> [] -> nodeAt (setProps f n) q = nodeAt n q.
Proof. destruct n, q; [congruence | reflexivity]. Qed.

Lemma isTag_excl (a b : string) (n : node) :
  a <> b -> isTag a n = true -> isTag b n = false.
Proof.
  unfold isTag. intros Hab Ha. apply String.eqb_eq in Ha.
  apply String.eqb_neq. congruence.
Qed.

(** ** Hierarchy extraction *)

Import Hierarchy.

Lemma labelNavDepth_unfold (p : props) (cs : list node) (d : nat) (u : bool) :
  labelNavDepth_ (Node p cs) d u =
  (Node p (labelChildren labelNavDepth_ d u 0 cs).1,
   (labelChildren labelNavDepth_ d u 0 cs).2).
Proof. simpl. destruct (labelChildren _ _ _ _ _); reflexivity. Qed.

Lemma labelChildren_cons rec d u i c r :
  labelChildren rec d u i (c :: r) =
  ((labelChild rec d u c).1 :: (labelChildren rec d u (S i) r).1,
   map (cons i) (labelChild rec d u c).2 ++ (labelChildren rec d u (S i) r).2).
Proof.
  simpl. destruct (labelChild _ _ _ _), (labelChildren _ _ _ _ _); reflexivity.
Qed.

Lemma labelChildren_fst rec d u i l :
  (labelChildren rec d u i l).1 = map (fun c => (labelChild rec d u c).1) l.
Proof.
  revert i. induction l as [|c r IH]; intros i; [reflexivity|].
  rewrite labelChildren_cons. simpl. by rewrite IH.
Qed.

Lemma lookupAttr_storeAttr k v l : lookupAttr k (storeAttr k v l) = Some v.
Proof.
  induction l as [|[k' v'] r IH]; simpl.
  - by rewrite String.eqb_refl.
  - destruct (String.eqb k k') eqn:E; simpl; rewrite ?String.eqb_refl, ?E; done.
Qed.

Lemma levelAt_setAttribute_nil v n :
  levelAt (setAttribute NAV_LEVEL v n) [] = Some v.
Proof.
  destruct n as [p cs]. unfold levelAt, getAttribute. simpl.
  apply lookupAttr_storeAttr.
Qed.

Lemma levelAt_setAttribute_cons k v n q :
  q <> [] -> levelAt (setAttribute k v n) q = levelAt n q.
Proof. intros Hq. unfold levelAt, setAttribute. by rewrite nodeAt_setProps. Qed.

Lemma descFrom_not_nil desc i l : [] ∉ descFrom desc i l.
Proof.
  revert i. induction l as [|c r IH]; intros i; simpl.
  - apply not_elem_of_nil.
  - rewrite elem_of_cons, elem_of_app, list_elem_of_fmap.
    intros [H|[(q & H & _)|H]]; [done|done|]. by apply (IH (S i)).
Qed.

Lemma descendants_not_nil t : [] ∉ descendants t.
Proof. destruct t. apply descFrom_not_nil. Qed.

Lemma filter_holdsAt_cons f p cs i c X :
  cs !! i = Some c ->
  List.filter (holdsAt f (Node p cs)) (map (cons i) X) =
  map (cons i) (List.filter (holdsAt f c) X).
Proof.
  intros Hc. induction X as [|q X IH]; [reflexivity|]. simpl.
  unfold holdsAt at 1. rewrite nodeAt_cons, Hc. simpl.
  fold (holdsAt f c q). destruct (holdsAt f c q); simpl; by rewrite IH.
Qed.

Lemma filter_isLinkAt_cons p cs i c X :
  cs !! i = Some c ->
  List.filter (isLinkAt (Node p cs)) (map (cons i) X) =
  map (cons i) (List.filter (isLinkAt c) X).
Proof. apply filter_holdsAt_cons. Qed.

Lemma labelChild_tags d u c :
  tagsOk c ->
  (labelChild labelNavDepth_ d u c).2 =
  (if isTag "A" c then [[]] else []) ++ List.filter (isLinkAt c) (descendants c).
Proof.
  intros IH. unfold labelChild.
  destruct (isTag "UL" c) eqn:EU.
  - rewrite (isTag_excl "UL" "A" c) by done. apply IH.
  - pose proof (IH d u) as H.
    destruct (labelNavDepth_ c d u) as [c' sub]. simpl in H. subst sub.
    destruct (isTag "A" c); reflexivity.
Qed.

Lemma labelChildren_tags p d u pre l :
  Forall tagsOk l ->
  (labelChildren labelNavDepth_ d u (length pre) l).2 =
  List.filter (isLinkAt (Node p (pre ++ l)))
              (descFrom descendants (length pre) l).
Proof.
  revert pre. induction l as [|c r IH]; intros pre Hall; [reflexivity|].
  inversion Hall as [|? ? Hc Hr]; subst.
  rewrite labelChildren_cons. cbn [snd descFrom].
  assert (Hi : (pre ++ c :: r) !! length pre = Some c).
  { rewrite lookup_app_r by lia. by rewrite Nat.sub_diag. }
  rewrite List.filter_app.
  change ([length pre] :: map (cons (length pre)) (descendants c))
    with (map (cons (length pre)) ([] :: descendants c)).
  rewrite (filter_isLinkAt_cons _ _ _ c) by done.
  rewrite labelChild_tags by done.
  specialize (IH (pre ++ [c]) Hr).
  rewrite length_app, Nat.add_1_r in IH. cbn [length] in IH.
  rewrite <- app_assoc in IH. cbn [app] in IH. rewrite IH.
  f_equal. cbn [List.filter]. unfold isLinkAt at 2, holdsAt. cbn [nodeAt].
  destruct (isTag "A" c); reflexivity.
Qed.

Lemma labelNavDepth_tags t : tagsOk t.
Proof.
  induction t as [p cs IH] using node_ind'. intros d u.
  rewrite labelNavDepth_unfold. cbn [snd descendants].
  apply (labelChildren_tags p d u []). exact IH.
Qed.

Lemma labelChild_levels d u c q n :
  levelsOk c ->
  nodeAt c q = Some n -> isTag "A" n = true ->
  levelAt (labelChild labelNavDepth_ d u c).1 q =
  Some (JS.ofNat (nestingDepth d u
          ((if isTag "UL" c then 1 else 0) + listNesting c q))).
Proof.
  intros IH Hq Ha. unfold labelChild.
  destruct q as [|i q].
  - simpl in Hq. injection Hq as ->.
    rewrite (isTag_excl "A" "UL" n) by done. rewrite Ha.
    destruct (labelNavDepth_ n d u) as [c' sub]. cbn [fst].
    rewrite levelAt_setAttribute_nil. do 2 f_equal.
    unfold nestingDepth. destruct u; simpl; lia.
  - destruct (isTag "UL" c) eqn:EU.
    + rewrite (IH _ true (i :: q) n) by done. do 2 f_equal.
      unfold nestingDepth. destruct u; lia.
    + pose proof (IH d u (i :: q) n) as H.
      destruct (labelNavDepth_ c d u) as [c' sub]. cbn [fst] in H.
      destruct (isTag "A" c); cbn [fst];
        rewrite ?levelAt_setAttribute_cons by done; by apply H.
Qed.

Lemma labelNavDepth_levels t : levelsOk t.
Proof.
  induction t as [p cs IH] using node_ind'. intros d u q n Hq Hn Ha.
  destruct q as [|i q]; [done|].
  rewrite labelNavDepth_unfold, labelChildren_fst. cbn [fst].
  rewrite nodeAt_cons in Hn.
  destruct (cs !! i) as [c|] eqn:Hc; [|done]. simpl in Hn.
  unfold levelAt. rewrite nodeAt_cons, list_lookup_fmap, Hc. simpl.
  fold (levelAt (labelChild labelNavDepth_ d u c).1 q).
  rewrite (labelChild_levels d u c q n); try done.
  - cbn [listNesting childNodes]. by rewrite Hc.
  - eapply Forall_lookup_1; eauto.
Qed.

Lemma levelsOf_nestSeq t d u :
  levelsOf t d u =
  map (fun k => Some (JS.ofNat (nestingDepth d u k))) (nestSeq t).
Proof.
  unfold levelsOf, nestSeq.
  pose proof (labelNavDepth_tags t d u) as Ht.
  pose proof (labelNavDepth_levels t d u) as Hl.
  destruct (labelNavDepth_ t d u) as [t' tags]. cbn [fst snd] in *. subst tags.
  rewrite map_map. apply map_ext_in. intros q Hq.
  apply List.filter_In in Hq as [Hin Hlink].
  unfold isLinkAt, holdsAt in Hlink. destruct (nodeAt t q) as [n|] eqn:Hn; [|done].
  apply (Hl q n); try done.
  intros ->. apply list_elem_of_In in Hin. by apply descendants_not_nil in Hin.
Qed.

Lemma nestSeq_from p pre l :
  map (listNesting (Node p (pre ++ l)))
      (List.filter (isLinkAt (Node p (pre ++ l)))
                   (descFrom descendants (length pre) l)) =
  flat_map childSeq l.
Proof.
  revert pre. induction l as [|c r IH]; intros pre; [reflexivity|].
  assert (Hi : (pre ++ c :: r) !! length pre = Some c).
  { rewrite lookup_app_r by lia. by rewrite Nat.sub_diag. }
  cbn [descFrom flat_map]. rewrite List.filter_app, map_app.
  specialize (IH (pre ++ [c])).
  rewrite length_app, Nat.add_1_r in IH. cbn [length] in IH.
  rewrite <- app_assoc in IH. cbn [app] in IH.
  f_equal; [|exact IH].
  change ([length pre] :: map (cons (length pre)) (descendants c))
    with (map (cons (length pre)) ([] :: descendants c)).
  rewrite (filter_isLinkAt_cons _ _ _ c) by done.
  rewrite map_map. unfold childSeq, nestSeq. cbn [List.filter].
  unfold isLinkAt at 1, holdsAt. cbn [nodeAt].
  destruct (isTag "A" c) eqn:Ea; cbn [map app listNesting childNodes];
    rewrite Hi, ?map_map; [|reflexivity].
  by rewrite (isTag_excl "A" "UL" c).
Qed.

Lemma nestSeq_unfold p cs : nestSeq (Node p cs) = flat_map childSeq cs.
Proof. exact (nestSeq_from p [] cs). Qed.

Lemma isTag_stripNoise tag n : isTag tag (stripNoise n) = isTag tag n.
Proof. by destruct n. Qed.

Lemma nestSeq_stripNoise t : nestSeq (stripNoise t) = nestSeq t.
Proof.
  induction t as [p cs IH] using node_ind'. cbn [stripNoise].
  rewrite !nestSeq_unfold.
  induction cs as [|c r IHr]; [reflexivity|].
  inversion IH as [|? ? Hc Hr]; subst. cbn [stripChildren flat_map].
  destruct (isNoise c) eqn:En.
  - rewrite IHr by done.
    unfold isNoise in En. apply andb_prop in En as [En Hul].
    apply andb_prop in En as [Hleaf Ha]. apply bool_decide_eq_true in Hleaf.
    destruct c as [pc ccs]. simpl in Hleaf. subst ccs.
    unfold childSeq. rewrite nestSeq_unfold.
    apply negb_true_iff in Ha. rewrite Ha. reflexivity.
  - cbn [flat_map]. rewrite IHr by done. f_equal.
    unfold childSeq. by rewrite !isTag_stripNoise, Hc.
Qed.

(** C2, as it holds. [labelNavDepth_] returns the links below the section in
    document order; each carries, as its level attribute, the start depth
    plus the number of UL elements on the way from below the section down
    to it, where the first of them is not counted when the traversal starts
    outside a list context; the section itself is not looked at.  The
    sequence of levels stays the same when text, images and other empty
    non-link content is taken out of the subtree. *)
Theorem labelNavDepth_depth_is_list_nesting (t : node) (d : nat) (u : bool) :
  (labelNavDepth_ t d u).2 = List.filter (isLinkAt t) (descendants t) /\
  (forall q, In q (labelNavDepth_ t d u).2 ->
     levelAt (labelNavDepth_ t d u).1 q =
     Some (JS.ofNat (nestingDepth d u (listNesting t q)))) /\
  levelsOf (stripNoise t) d u = levelsOf t d u.
Proof.
  split; [apply labelNavDepth_tags|]. split.
  - intros q Hq. rewrite labelNavDepth_tags in Hq.
    apply List.filter_In in Hq as [Hin Hlink].
    unfold isLinkAt, holdsAt in Hlink. destruct (nodeAt t q) as [n|] eqn:Hn; [|done].
    apply (labelNavDepth_levels t d u q n); try done.
    intros ->. apply list_elem_of_In in Hin. by apply descendants_not_nil in Hin.
  - by rewrite !levelsOf_nestSeq, nestSeq_stripNoise.
Qed.

Lemma labelNavDepth_depth_is_list_nesting_witness :
  levelAt (labelNavDepth_ homeSubNav 0 false).1 [0; 1; 0; 0; 0] = Some "1".
Proof.
  refine (proj1 (proj2 (labelNavDepth_depth_is_list_nesting homeSubNav 0 false))
            [0; 1; 0; 0; 0] _).
  vm_compute. right. left. reflexivity.
Defined.

(** C2 as stated fails: the section is itself a list, Home lies in one list
    and Sub in two, so that the levels of the spec are 0 and 1; and both
    get the level 0, because the traversal looks at what is below the
    section only and takes the inner list for the first. *)
Lemma labelNavDepth_section_list_not_counted :
  isTag "UL" listSection = true /\
  (labelNavDepth_ listSection 0 false).2 = [[0; 0]; [0; 1; 0; 0]] /\
  map (enclosingLists listSection) [[0; 0]; [0; 1; 0; 0]] = [1; 2] /\
  map (fun q => Some (JS.ofNat (nestingDepth 0 false (enclosingLists listSection q))))
      [[0; 0]; [0; 1; 0; 0]] = [Some "0"; Some "1"] /\
  levelsOf listSection 0 false = [Some "0"; Some "0"].
Proof. repeat split; reflexivity. Qed.


(** ** The enlarge heuristic *)

Import Enlarge.




















(** ** Section discovery *)

Import Discovery.

Lemma jsIn_own {V} k (obj : gmap string V) :
  inherited k = false -> jsIn k obj = bool_decide (is_Some (obj !! k)).
Proof. intros H. unfold jsIn. rewrite H. apply orb_false_r. Qed.

(** Away from the members of [Object.prototype], one turn of the loop treats
    the identity of the parent as the spec says: the first element seen with
    it has the heuristic evaluated and pushes the parent or itself; a later
    one pushes itself when the parent was not enlarged and nothing when it
    was. *)
Lemma discoverId_own_identity doc parents elements id element parent :
  lookupElement doc id = Some element ->
  parentNode element = Some parent ->
  let doc' :=
    if String.eqb (idAt doc parent) ""
    then updateAt (setAttribute "id" (parentIdFor (idAt doc element))) parent doc
    else doc in
  let parentId := idAt doc' parent in
  inherited parentId = false ->
  discoverId (doc, parents, elements) id =
  Done (doc',
        match parents !! parentId with
        | None => <[parentId := canEnlargeNav_ doc' element]> parents
        | Some _ => parents
        end,
        elements ++
        match parents !! parentId with
        | None => [if canEnlargeNav_ doc' element then parent else element]
        | Some false => [element]
        | Some true => []
        end).
Proof.
  intros Hl Hp doc' parentId Hk. unfold discoverId. rewrite Hl, Hp.
  fold doc'. fold parentId. rewrite jsIn_own by done.
  destruct (parents !! parentId) as [b|] eqn:Hpar.
  - rewrite bool_decide_eq_true_2 by eauto. cbn [negb].
    unfold jsTruthy. rewrite Hpar. destruct b; cbn [negb]; [|reflexivity].
    by rewrite app_nil_r.
  - rewrite bool_decide_eq_false_2 by (intros [? ?]; done). cbn [negb].
    unfold jsTruthy. by rewrite lookup_insert_eq.
Qed.

(** C6 at the failing input.  The parent of the only element carries the id
    toString, which [in] finds in every object literal: the element is taken
    for one whose parent has been enlarged before, the heuristic is not
    evaluated and nothing is pushed, although the heuristic would enlarge. *)
Theorem findNavSections_inherited_parent_id :
  findNavSections_ sampleEnv (Some ["nav"]) inheritedIdPage newMobNav
    = Done (inheritedIdPage, newMobNav) /\
  navSections_ newMobNav = [] /\
  lookupElement inheritedIdPage "nav" = Some [0; 1; 0; 0] /\
  idAt inheritedIdPage [0; 1; 0] = "toString" /\
  canEnlargeNav_ inheritedIdPage [0; 1; 0; 0] = true.
Proof. repeat split; vm_compute; reflexivity. Qed.

Lemma discoverIds_app st pre l :
  discoverIds st (pre ++ l) =
  match discoverIds st pre with
  | Done st' => discoverIds st' l
  | TypeError st' => TypeError st'
  end.
Proof.
  revert st. induction pre as [|id pre IH]; intros st; [reflexivity|].
  simpl. destruct (discoverId st id); [apply IH | reflexivity].
Qed.

(** C8, as it holds.  When an id resolves to no element, the exception
    leaves [findNavSections_]: the ids after it are not processed and
    [navSections_] keeps the value it had. *)
Theorem findNavSections_unresolved_id_aborts
    (E : Env) (doc : node) (this : MobNav) (pre rest : list string)
    (id : string) (doc' : node) (parents : gmap string bool)
    (elements : list path) :
  getElementById doc (NAV_PANEL E) = None ->
  discoverIds (doc, ∅, []) pre = Done (doc', parents, elements) ->
  lookupElement doc' id = None ->
  findNavSections_ E (Some (pre ++ id :: rest)) doc this
    = TypeError (doc', withNavPanel None this) /\
  navSections_ (withNavPanel None this) = navSections_ this.
Proof.
  intros Hpanel Hpre Hid. split; [|reflexivity].
  unfold findNavSections_. rewrite Hpanel, discoverIds_app, Hpre.
  cbn [discoverIds]. unfold discoverId. by rewrite Hid.
Qed.

Lemma findNavSections_unresolved_id_aborts_witness :
  findNavSections_ sampleEnv (Some (["main"] ++ "gone" :: ["foot"]))
                   twoNavPage newMobNav
    = TypeError (updateAt (setAttribute "id" "PageSpeed-main-P") [0; 1; 0]
                          twoNavPage,
                 withNavPanel None newMobNav) /\
  navSections_ (withNavPanel None newMobNav) = navSections_ newMobNav.
Proof.
  apply (findNavSections_unresolved_id_aborts sampleEnv twoNavPage newMobNav
           ["main"] ["foot"] "gone" _ {["PageSpeed-main-P" := true]} [[0; 1; 0]]).
  - reflexivity.
  - vm_compute. reflexivity.
  - reflexivity.
Defined.

(** C8 as stated fails: with an id that resolves to nothing ahead of it, the
    section of the id that follows is not discovered, while it is discovered
    when the failing id is absent. *)
Lemma findNavSections_later_id_lost :
  (exists doc', findNavSections_ sampleEnv (Some ["gone"; "foot"]) twoNavPage
                  newMobNav = TypeError (doc', newMobNav)) /\
  navSections_ newMobNav = [] /\
  (exists doc' this',
     findNavSections_ sampleEnv (Some ["foot"]) twoNavPage newMobNav
       = Done (doc', this') /\ navSections_ this' = [[0; 1; 1]]).
Proof.
  split; [|split].
  - eexists. vm_compute. reflexivity.
  - reflexivity.
  - do 2 eexists. split; vm_compute; reflexivity.
Qed.

(** ** The elements to offset *)

Import Offsets.

Lemma leftBy_andThen added r : leftBy (andThen added r) = added ++ leftBy r.
Proof. by destruct r. Qed.


Lemma offsetChildren_In rec fo (q' : path) (i : nat) l k :
  In (i :: q') (leftBy (offsetChildren rec fo k l)) ->
  exists c, k <= i /\ l !! (i - k) = Some c /\ isElement c = true
            /\ In q' (leftBy (rec c fo)).
Proof.
  revert k. induction l as [|c r IH]; intros k; cbn [offsetChildren]; [done|].
  assert (Hrest : In (i :: q') (leftBy (offsetChildren rec fo (S k) r)) ->
            exists c', k <= i /\ (c :: r) !! (i - k) = Some c'
                       /\ isElement c' = true /\ In q' (leftBy (rec c' fo))).
  { intros H. apply IH in H as (c' & Hk & Hl & Hc). exists c'.
    split; [lia|]. split; [|done].
    replace (i - k) with (S (i - S k)) by lia. done. }
  destruct (isElement c) eqn:Ec; [|done].
  assert (Hhere : In (i :: q') (map (cons k) (leftBy (rec c fo))) ->
            exists c', k <= i /\ (c :: r) !! (i - k) = Some c'
                       /\ isElement c' = true /\ In q' (leftBy (rec c' fo))).
  { intros H. apply in_map_iff in H as (q & Hq & Hin). injection Hq as -> ->.
    exists c. rewrite Nat.sub_diag. auto. }
  destruct (rec c fo) as [added|added] eqn:Hrec; cbn [leftBy] in *; [|done].
  rewrite leftBy_andThen, in_app_iff. intros [H|H]; auto.
Qed.

Lemma offsetChildren_not_nil rec fo l k :
  ~ In [] (leftBy (offsetChildren rec fo k l)).
Proof.
  revert k. induction l as [|c r IH]; intros k; cbn [offsetChildren]; [intros []|].
  destruct (isElement c); [|apply IH].
  destruct (rec c fo) as [added|added]; cbn [leftBy].
  - rewrite leftBy_andThen, in_app_iff. intros [H|H]; [|by apply IH in H].
    apply in_map_iff in H as (q & Hq & _). done.
  - intros H. apply in_map_iff in H as (q & Hq & _). done.
Qed.

(** What the walk has added, when it returns and when it raises, is
    tracked. *)
Lemma helper_tracked E element :
  forall fo q, In q (leftBy (findElementsToOffsetHelper_ E element fo)) ->
               tracked E element fo q = true.
Proof.
  induction element as [p cs IH] using node_ind'. intros fo q.
  cbn [findElementsToOffsetHelper_]. unfold tracked.
  destruct (outsideOverlay E (Node p cs)) as [[]|] eqn:Hout; [|done|done].
  rewrite leftBy_andThen, in_app_iff.
  destruct q as [|i q']; cbn [reached positionedAbove childNodes nprops];
    rewrite Hout, bool_decide_eq_true_2 by done; cbn [andb].
  - unfold holdsAt. cbn [nodeAt]. rewrite orb_false_r.
    intros [H|H]; [|by apply offsetChildren_not_nil in H].
    by destruct (addsOffset E (Node p cs) fo).
  - unfold holdsAt. rewrite nodeAt_cons.
    set (fo' := if negb (String.eqb (cssPosition p) "static") then true else fo).
    assert (Hfo : forall b, fo' || b
                  = fo || (negb (String.eqb (cssPosition p) "static") || b)).
    { intros b. unfold fo'.
      destruct (negb (String.eqb (cssPosition p) "static")), fo, b; done. }
    intros [H|H].
    { destruct (addsOffset E (Node p cs) fo); [|done].
      destruct H as [H|H]; done. }
    apply offsetChildren_In in H as (c & _ & Hc & He & Hin).
    rewrite Nat.sub_0_r in Hc. rewrite Hc, He. cbn [andb mbind option_bind].
    eapply Forall_lookup_1 in IH; [|exact Hc].
    apply IH in Hin. unfold tracked in Hin.
    apply andb_prop in Hin as [Hr Ha]. rewrite Hr. cbn [andb].
    unfold holdsAt in Ha. simpl. destruct (nodeAt c q'); [|done].
    by rewrite <- Hfo.
Qed.
















(** The pre-pass on a page that has an inline picture ahead of a fixed
    banner: the test of the picture raises, and the banner is not reached. *)
Lemma findElementsToOffset_stops_at_svg :
  exists this',
    findElementsToOffset_ sampleEnv svgBannerPage newMobNav = TypeError this' /\
    elementsToOffset_ this' = ∅.
Proof.
  eexists. split; [reflexivity|]. cbn [withOffsets elementsToOffset_ newMobNav].
  apply (bool_decide_eq_true_1 _). vm_compute. reflexivity.
Qed.

(** ** The header redraw *)

Import Redraw.

Lemma propsAt_updateAt g q : forall t p,
  propsAt (updateAt (setProps g) q t) p =
  if decide (p = q) then g <$> propsAt t p else propsAt t p.
Proof.
  unfold propsAt. induction q as [|i q IH]; intros t p.
  - cbn [updateAt]. destruct p as [|j p].
    + rewrite decide_True by done. by destruct t.
    + rewrite decide_False by done. by rewrite nodeAt_setProps.
  - destruct t as [pr cs]. cbn [updateAt]. destruct p as [|j p].
    + by rewrite decide_False.
    + rewrite !nodeAt_cons. destruct (decide (j = i)) as [->|Hne].
      * rewrite list_lookup_alter_eq. destruct (cs !! i) as [c|] eqn:Hc; simpl.
        -- rewrite IH. destruct (decide (p = q)) as [->|Hpq].
           ++ by rewrite !decide_True.
           ++ by rewrite !decide_False by congruence.
        -- by case_decide.
      * rewrite list_lookup_alter_ne by done.
        rewrite decide_False; [done|congruence].
Qed.

Lemma propsAt_foldl_updateAt g l : forall t p,
  NoDup l ->
  propsAt (foldl (fun d el => updateAt (setProps g) el d) t l) p =
  if decide (p ∈ l) then g <$> propsAt t p else propsAt t p.
Proof.
  induction l as [|q l IH]; intros t p Hnd.
  - cbn [foldl]. rewrite decide_False; [done|]. apply not_elem_of_nil.
  - apply NoDup_cons in Hnd as [Hq Hnd]. cbn [foldl].
    rewrite IH by done. rewrite propsAt_updateAt.
    destruct (decide (p = q)) as [->|Hne].
    + rewrite (decide_False (P := q ∈ l)) by done.
      rewrite decide_True; [done|]. by left.
    + destruct (decide (p ∈ l)) as [Hin|Hin].
      * rewrite decide_True; [done|]. by right.
      * rewrite decide_False; [done|]. rewrite elem_of_cons. tauto.
Qed.

(** C4.  A redraw with the header bar in place records the new height and
    that it ran.  An element of the set that is positioned and has a pixel
    top gets, on the first redraw, its absolute top plus the new height as
    its top, and no scroll call is made; on a later redraw its pixel top
    grows by the difference of the new and the old height, and the window is
    scrolled by that difference when it is not zero and not at all when it
    is zero. *)
Theorem redrawHeader_offsets_by_height_change
    (E : Env) (measuredBefore newHeight : Z) (doc : node) (this : MobNav)
    (scrolls : list (Z * Z)) (h p : path) (el : props) :
  headerBar_ this = Some h ->
  p ∈ elementsToOffset_ this ->
  propsAt doc p = Some el ->
  cssPosition el <> "static" ->
  pixelValue E (cssTop el) <> None ->
  let delta := (newHeight - oldHeightOf this measuredBefore)%Z in
  let after := redrawHeader_ E measuredBefore newHeight doc this scrolls in
  (redrawNavCalled_ this = false ->
     styleTopAt after.1.1 p = Some (JS.ofZ (rectTop el + newHeight) +:+ "px")
     /\ after.2 = scrolls) /\
  (redrawNavCalled_ this = true ->
     (forall oldTop, pixelValue E (styleTop el) = Some oldTop ->
        styleTopAt after.1.1 p = Some (JS.ofZ (oldTop + delta) +:+ "px"))
     /\ (delta <> 0%Z -> after.2 = scrolls ++ [(0, delta)%Z])
     /\ (delta = 0%Z -> after.2 = scrolls)) /\
  headerBarHeight_ after.1.2 = newHeight /\
  redrawNavCalled_ after.1.2 = true.
Proof.
  intros Hh Hp Hel Hpos Htop delta after.
  assert (Hstyle : styleTopAt after.1.1 p =
    Some (styleTop (offsetTop E (redrawNavCalled_ this)
                      (oldHeightOf this measuredBefore) newHeight el))).
  { unfold after, redrawHeader_. rewrite Hh. cbn [fst snd].
    unfold styleTopAt. fold (oldHeightOf this measuredBefore).
    rewrite propsAt_foldl_updateAt by apply NoDup_elements.
    rewrite decide_True by (by apply elem_of_elements).
    by rewrite Hel. }
  assert (Hscroll : after.2 =
    if redrawNavCalled_ this && negb (newHeight =? oldHeightOf this measuredBefore)%Z
    then scrolls ++ [(0, delta)%Z] else scrolls).
  { unfold after, redrawHeader_. by rewrite Hh. }
  assert (Hguard : negb (String.eqb (cssPosition el) "static")
                   && bool_decide (pixelValue E (cssTop el) <> None) = true).
  { apply andb_true_intro. split.
    - by apply negb_true_iff, String.eqb_neq.
    - by apply bool_decide_eq_true. }
  split; [|split; [|split]].
  - intros Hfirst. split.
    + rewrite Hstyle. unfold offsetTop. by rewrite Hguard, Hfirst.
    + by rewrite Hscroll, Hfirst.
  - intros Hlater. split; [|split].
    + intros oldTop Hold. rewrite Hstyle. unfold offsetTop.
      by rewrite Hguard, Hlater, Hold.
    + intros Hd. rewrite Hscroll, Hlater. cbn [andb].
      replace (newHeight =? oldHeightOf this measuredBefore)%Z with false;
        [done|].
      symmetry. apply Z.eqb_neq. unfold delta in Hd. lia.
    + intros Hd. rewrite Hscroll, Hlater. cbn [andb].
      replace (newHeight =? oldHeightOf this measuredBefore)%Z with true;
        [done|].
      symmetry. apply Z.eqb_eq. unfold delta in Hd. lia.
  - unfold after, redrawHeader_. by rewrite Hh.
  - unfold after, redrawHeader_. by rewrite Hh.
Qed.

Lemma redrawHeader_offsets_by_height_change_witness :
  styleTopAt (redrawHeader_ sampleEnv 40 50 bannerPage bannerNav []).1.1 [0; 1; 0]
    = Some "50px" /\
  (redrawHeader_ sampleEnv 40 50 bannerPage bannerNav []).2 = [].
Proof.
  refine (proj1 (redrawHeader_offsets_by_height_change sampleEnv 40 50
            bannerPage bannerNav [] [0; 1; 1] [0; 1; 0] _ eq_refl _ eq_refl _ _)
          eq_refl).
  - unfold bannerNav. cbn [elementsToOffset_]. by apply elem_of_singleton_2.
  - discriminate.
  - discriminate.
Defined.

(** ** The panel builder *)

Import Panel.

(** Below ten, the comparison of the level strings is the comparison of the
    depths, and so is their difference. *)
Lemma jsLt_below_ten (a b : nat) :
  a < 10 -> b < 10 ->
  jsLt (Some (JS.ofNat a)) (Some (JS.ofNat b)) = (a <? b)%nat.
Proof.
  intros Ha Hb.
  do 10 (destruct a as [|a]; [do 10 (destruct b as [|b]; [reflexivity|]); lia|]).
  lia.
Qed.

Lemma jsSub_below_ten (a b : nat) :
  a < 10 -> b < 10 ->
  jsSub (Some (JS.ofNat a)) (Some (JS.ofNat b)) = Some (Z.of_nat a - Z.of_nat b)%Z.
Proof.
  intros Ha Hb.
  do 10 (destruct a as [|a]; [do 10 (destruct b as [|b]; [reflexivity|]); lia|]).
  lia.
Qed.

Lemma length_removelast {A} (l : list A) : length (removelast l) = length l - 1.
Proof. rewrite removelast_firstn_len, length_take. lia. Qed.

Lemma length_popN n s : 1 <= length s -> 1 <= length (popN n s).
Proof.
  revert s. induction n as [|n IH]; intros s Hs; cbn [popN]; [done|].
  destruct (1 <? length s)%nat eqn:E; [|done].
  apply Nat.ltb_lt in E. apply IH. rewrite length_removelast. lia.
Qed.

Lemma popN_length n s :
  1 <= length s -> length (popN n s) = Nat.max 1 (length s - n).
Proof.
  revert s. induction n as [|n IH]; intros s Hs; cbn [popN]; [lia|].
  destruct (1 <? length s)%nat eqn:E.
  - apply Nat.ltb_lt in E. rewrite IH; rewrite length_removelast; lia.
  - apply Nat.ltb_ge in E. lia.
Qed.

(** For depths below ten the body of the loop does what the spec says: a
    deeper next link opens a submenu under the top of the stack and pushes
    it; otherwise the link becomes a leaf there and the stack is popped by
    the difference of the depths, the first entry staying. *)
Lemma addItem_below_ten (d1 d2 : nat) (link navTopUl : node)
    (navSubmenus : list path) :
  d1 < 10 -> d2 < 10 ->
  let here := topSubmenu navSubmenus in
  let k := match nodeAt navTopUl here with
           | Some ul => length (childNodes ul)
           | None => 0
           end in
  addItem (Some (JS.ofNat d1)) (Some (JS.ofNat d2)) link (navTopUl, navSubmenus) =
  if (d1 <? d2)%nat then
    (appendAt here (submenuItem link (Sample.createElement "UL")) navTopUl,
     navSubmenus ++ [here ++ [k; 1]])
  else
    (appendAt here (leafItem link) navTopUl, popN (d1 - d2) navSubmenus).
Proof.
  intros H1 H2 here k. unfold addItem. fold here. fold k.
  rewrite jsLt_below_ten, jsSub_below_ten by done.
  destruct (d1 <? d2)%nat eqn:E; [reflexivity|].
  apply Nat.ltb_ge in E. unfold popSubmenus. do 2 f_equal. lia.
Qed.

(** C1 at the failing input.  The link Nine has depth 9 and the link Ten,
    nested under it, depth 10.  The levels are compared as the strings the
    attribute holds, and 9 is not below 10 as a string: no submenu is opened
    for Nine, and both links become leaves of the top list. *)
Theorem constructNavPanel_depth_nine_then_ten :
  map (fun a => getAttribute a NAV_LEVEL) (navATagsOf deepNav)
    = [Some "9"; Some "10"] /\
  jsLt (Some "9") (Some "10") = false /\
  constructNavPanel_ sampleEnv [deepNav] =
  panelOf sampleEnv
    [Leaf (setAttribute NAV_LEVEL "9" (sampleLink "/nine" "Nine"));
     Leaf (setAttribute NAV_LEVEL "10" (sampleLink "/ten" "Ten"))].
Proof. repeat split; vm_compute; reflexivity. Qed.

Lemma stackOf_not_nil outer : stackOf outer <> [].
Proof. by destruct outer as [|[done link] o]. Qed.

Lemma last_map {A B} (f : A -> B) (l : list A) : last (map f l) = f <$> last l.
Proof.
  induction l as [|x [|y l] IH]; [done|done|]. exact IH.
Qed.

Lemma last_stackOf outer : last (stackOf outer) = Some (topPath outer).
Proof.
  induction outer as [|[done link] o IH]; [reflexivity|].
  cbn [stackOf topPath]. rewrite last_cons, last_map, IH. reflexivity.
Qed.

Lemma topSubmenu_stackOf outer : topSubmenu (stackOf outer) = topPath outer.
Proof. unfold topSubmenu. by rewrite last_stackOf. Qed.

Lemma updateAt_cons f i q p cs :
  updateAt f (i :: q) (Node p cs) = Node p (alter (updateAt f q) i cs).
Proof. reflexivity. Qed.

Lemma updateAt_submenuItem f q link u :
  updateAt f (1 :: q) (submenuItem link u) = submenuItem link (updateAt f q u).
Proof. reflexivity. Qed.

Lemma appendAt_plug x : forall outer p inner,
  appendAt (topPath outer) (render x) (renderUl p (plugItems outer inner)) =
  renderUl p (plugItems outer (inner ++ [x])).
Proof.
  induction outer as [|[done link] o IH]; intros p inner.
  - unfold appendAt, renderUl. cbn [topPath plugItems updateAt nprops childNodes].
    by rewrite map_app.
  - unfold appendAt, renderUl. cbn [topPath plugItems].
    rewrite !map_app. cbn [map render]. rewrite updateAt_cons. f_equal.
    replace (length done) with (length (map render done) + 0)
      by (rewrite length_map; lia).
    rewrite alter_app_r. cbn [alter list_alter]. do 2 f_equal.
    rewrite updateAt_submenuItem. f_equal. apply (IH _ inner).
Qed.

Lemma nodeAt_plug : forall outer p inner,
  exists p', nodeAt (renderUl p (plugItems outer inner)) (topPath outer)
             = Some (Node p' (map render inner)).
Proof.
  induction outer as [|[done link] o IH]; intros p inner.
  - by exists p.
  - destruct (IH (nprops (Sample.createElement "UL")) inner) as [p' Hp'].
    exists p'. unfold renderUl. cbn [topPath plugItems]. rewrite nodeAt_cons.
    rewrite map_app, lookup_app_r by (rewrite length_map; lia).
    rewrite length_map, Nat.sub_diag. exact Hp'.
Qed.

Lemma stackOf_snoc outer done link :
  stackOf (outer ++ [(done, link)]) =
  stackOf outer ++ [topPath outer ++ [length done; 1]].
Proof.
  induction outer as [|[d l] o IH]; [reflexivity|].
  cbn [app stackOf topPath]. rewrite IH, map_app. reflexivity.
Qed.

Lemma plugItems_snoc outer done link inner :
  plugItems (outer ++ [(done, link)]) inner =
  plugItems outer (done ++ [Group link inner]).
Proof.
  induction outer as [|[d l] o IH]; [reflexivity|].
  cbn [app plugItems]. by rewrite IH.
Qed.

Lemma length_stackOf outer : length (stackOf outer) = S (length outer).
Proof.
  induction outer as [|[d l] o IH]; [reflexivity|].
  cbn [stackOf length]. by rewrite length_map, IH.
Qed.

Lemma linksOf_plug x : forall outer inner,
  flat_map linksOf (plugItems outer (inner ++ [x])) =
  flat_map linksOf (plugItems outer inner) ++ linksOf x.
Proof.
  induction outer as [|[done link] o IH]; intros inner; cbn [plugItems].
  - rewrite flat_map_app. cbn [flat_map]. by rewrite app_nil_r.
  - rewrite !flat_map_app. cbn [flat_map linksOf]. rewrite IH.
    rewrite !app_nil_r, <- !app_assoc. reflexivity.
Qed.

Lemma popN_frames n : forall outer inner,
  exists outer' inner',
    popN n (stackOf outer) = stackOf outer'
    /\ plugItems outer' inner' = plugItems outer inner.
Proof.
  induction n as [|n IH]; intros outer inner; [by exists outer, inner|].
  cbn [popN]. rewrite length_stackOf.
  destruct outer as [|f o] using rev_ind; [by exists [], inner|].
  rewrite length_app. cbn [length].
  replace (1 <? S (length o + 1))%nat with true
    by (symmetry; apply Nat.ltb_lt; lia).
  destruct f as [done link]. rewrite stackOf_snoc, removelast_last.
  destruct (IH o (done ++ [Group link inner])) as (o' & i' & Hs & Hp).
  exists o', i'. split; [done|]. by rewrite Hp, plugItems_snoc.
Qed.

Lemma addItem_builds p links navLevel1 navLevel2 link st :
  builds p links st ->
  builds p (links ++ [link]) (addItem navLevel1 navLevel2 link st).
Proof.
  intros (outer & inner & -> & Hlinks). unfold addItem.
  rewrite topSubmenu_stackOf.
  destruct (nodeAt_plug outer p inner) as [p' Hp']. rewrite Hp'.
  cbn [childNodes]. rewrite length_map.
  destruct (jsLt navLevel1 navLevel2).
  - exists (outer ++ [(inner, link)]), []. split.
    + rewrite stackOf_snoc, plugItems_snoc. f_equal.
      apply (appendAt_plug (Group link [])).
    + rewrite plugItems_snoc, linksOf_plug, Hlinks. cbn [linksOf flat_map].
      reflexivity.
  - assert (Hpop : exists s, popSubmenus (jsSub navLevel1 navLevel2)
                               (stackOf outer) = popN s (stackOf outer)).
    { unfold popSubmenus. destruct (jsSub navLevel1 navLevel2); [eauto|].
      by exists 0. }
    destruct Hpop as [s ->].
    destruct (popN_frames s outer (inner ++ [Leaf link])) as (o' & i' & Hs & Hp).
    exists o', i'. split.
    + rewrite Hs, Hp. f_equal. apply (appendAt_plug (Leaf link)).
    + rewrite Hp, linksOf_plug, Hlinks. reflexivity.
Qed.

Lemma addItems_builds p navATags : forall links st,
  builds p links st -> builds p (links ++ navATags) (addItems navATags st).
Proof.
  induction navATags as [|link rest IH]; intros links st Hst.
  - by rewrite app_nil_r.
  - cbn [addItems]. rewrite (cons_middle link links rest), app_assoc.
    apply IH. by apply addItem_builds.
Qed.

Lemma addSection_renders p items nav :
  exists items',
    addSection (renderUl p items) nav = renderUl p items'
    /\ flat_map linksOf items' = flat_map linksOf items ++ navATagsOf nav.
Proof.
  unfold addSection.
  destruct (addItems_builds p (navATagsOf nav) (flat_map linksOf items)
              (renderUl p items, [[]])) as (outer & inner & Hst & Hl).
  { by exists [], items. }
  exists (plugItems outer inner). by rewrite Hst.
Qed.

Lemma foldl_addSection_renders p sections : forall items,
  exists items',
    foldl addSection (renderUl p items) sections = renderUl p items'
    /\ flat_map linksOf items' =
       flat_map linksOf items ++ flat_map navATagsOf sections.
Proof.
  induction sections as [|nav rest IH]; intros items.
  - exists items. by rewrite app_nil_r.
  - cbn [foldl flat_map].
    destruct (addSection_renders p items nav) as (items1 & -> & Hl1).
    destruct (IH items1) as (items2 & -> & Hl2).
    exists items2. split; [done|]. by rewrite Hl2, Hl1, app_assoc.
Qed.

(** The builder yields the rendering of a menu whose links, titles and
    leaves together and in document order, are the labelled links of the
    sections. *)
Lemma constructNavPanel_renders (E : Env) (sections : list node) :
  exists items,
    constructNavPanel_ E sections = panelOf E items
    /\ flat_map linksOf items = flat_map navATagsOf sections.
Proof.
  unfold constructNavPanel_, panelOf.
  destruct (foldl_addSection_renders topUlProps sections []) as (items & H & Hl).
  exists items. split; [|done]. f_equal. exact H.
Qed.

(** ** Deduplication *)

Lemma select_from f p pre l :
  List.filter (holdsAt f (Node p (pre ++ l)))
              (descFrom descendants (length pre) l) =
  selectFrom f (length pre) l.
Proof.
  revert pre. induction l as [|c r IH]; intros pre; [reflexivity|].
  assert (Hi : (pre ++ c :: r) !! length pre = Some c).
  { rewrite lookup_app_r by lia. by rewrite Nat.sub_diag. }
  cbn [descFrom selectFrom]. rewrite List.filter_app.
  specialize (IH (pre ++ [c])).
  rewrite length_app, Nat.add_1_r in IH. cbn [length] in IH.
  rewrite <- app_assoc in IH. cbn [app] in IH.
  f_equal; [|exact IH].
  change ([length pre] :: map (cons (length pre)) (descendants c))
    with (map (cons (length pre)) ([] :: descendants c)).
  rewrite (filter_holdsAt_cons _ _ _ _ c) by done. f_equal.
  cbn [List.filter]. unfold holdsAt at 1. cbn [nodeAt].
  destruct (f c); reflexivity.
Qed.

Lemma select_unfold f p cs : select f (Node p cs) = selectFrom f 0 cs.
Proof. exact (select_from f p [] cs). Qed.

Lemma liftTag_liftTag pre pre' tag :
  liftTag pre (liftTag pre' tag) = liftTag (pre ++ pre') tag.
Proof.
  destruct tag as [[h l] [q|]]; unfold liftTag; cbn; [|reflexivity].
  by rewrite app_assoc.
Qed.

Lemma removelast_cons_cons {A} (x y : A) l :
  removelast (x :: y :: l) = x :: removelast (y :: l).
Proof. reflexivity. Qed.

Lemma readTag_child E p cs i c :
  cs !! i = Some c ->
  readTag E (Node p cs) [i] =
  (hrefOf E c, labelOf E c, if isTag "LI" (Node p cs) then Some [] else None).
Proof.
  intros Hc. unfold readTag. rewrite nodeAt_cons, Hc. reflexivity.
Qed.

Lemma readTag_below E p cs i c q :
  cs !! i = Some c -> q <> [] ->
  readTag E (Node p cs) (i :: q) = liftTag [i] (readTag E c q).
Proof.
  intros Hc Hq. unfold readTag. rewrite nodeAt_cons, Hc. cbn [mbind option_bind].
  destruct q as [|j q]; [done|].
  destruct (nodeAt c (j :: q)) as [a|]; [|reflexivity].
  unfold liftTag. cbn [fst snd parentNode]. rewrite removelast_cons_cons.
  unfold holdsAt. rewrite nodeAt_cons, Hc. cbn [mbind option_bind].
  destruct (nodeAt c (removelast (j :: q))) as [n|]; [|reflexivity].
  by destruct (isTag "LI" n).
Qed.

Lemma select_not_nil f t : [] ∉ select f t.
Proof.
  unfold select. intros H. apply list_elem_of_In, List.filter_In in H as [H _].
  apply list_elem_of_In in H. by apply descendants_not_nil in H.
Qed.

Lemma entries_from E p pre l :
  map (readTag E (Node p (pre ++ l))) (selectFrom (isNamed "A") (length pre) l) =
  entriesChildren E (isTag "LI" (Node p (pre ++ l))) (length pre) l.
Proof.
  revert pre. induction l as [|c r IH]; intros pre; [reflexivity|].
  assert (Hi : (pre ++ c :: r) !! length pre = Some c).
  { rewrite lookup_app_r by lia. by rewrite Nat.sub_diag. }
  cbn [selectFrom entriesChildren]. rewrite map_app.
  specialize (IH (pre ++ [c])).
  rewrite length_app, Nat.add_1_r in IH. cbn [length] in IH.
  rewrite <- app_assoc in IH. cbn [app] in IH.
  f_equal; [|exact IH].
  rewrite !map_app, !map_map. f_equal.
  - destruct (isNamed "A" c); [|reflexivity]. cbn [map].
    by rewrite (readTag_child _ _ _ _ c).
  - unfold entriesOf, getElementsByTagName. rewrite map_map.
    apply map_ext_in. intros q Hq. apply readTag_below; [done|].
    intros ->. apply list_elem_of_In in Hq. by apply select_not_nil in Hq.
Qed.

Lemma entriesOf_unfold E p cs :
  entriesOf E (Node p cs) = entriesChildren E (isTag "LI" (Node p cs)) 0 cs.
Proof.
  unfold entriesOf, getElementsByTagName. rewrite select_unfold.
  exact (entries_from E p [] cs).
Qed.

Lemma entriesOf_text E s : entriesOf E (Sample.createTextNode s) = [].
Proof. reflexivity. Qed.

Lemma entriesOf_titleAnchor E link : entriesOf E (titleAnchor link) = [].
Proof. reflexivity. Qed.

Lemma submenuItem_eq link u :
  submenuItem link u =
  Node (nprops (Sample.createElement "LI")) [submenuTitle link; u].
Proof. reflexivity. Qed.

Lemma submenuTitle_eq link :
  submenuTitle link = Node (nprops (Sample.createElement "DIV")) [titleAnchor link].
Proof. reflexivity. Qed.

Lemma leafItem_eq link :
  leafItem link = Node (nprops (Sample.createElement "LI")) [link].
Proof. reflexivity. Qed.

Lemma entriesOf_submenuItem E link u :
  isNamed "A" u = false ->
  entriesOf E (submenuItem link u) =
  (hrefOf E (titleAnchor link), labelOf E (titleAnchor link), None)
  :: map (liftTag [1]) (entriesOf E u).
Proof.
  intros Hu. rewrite submenuItem_eq, entriesOf_unfold.
  cbn [entriesChildren]. rewrite Hu.
  replace (isNamed "A" (submenuTitle link)) with false by reflexivity.
  replace (entriesOf E (submenuTitle link))
    with [(hrefOf E (titleAnchor link), labelOf E (titleAnchor link),
           @None (list nat))].
  - cbn [map app]. rewrite app_nil_r. reflexivity.
  - rewrite submenuTitle_eq, entriesOf_unfold.
    cbn [entriesChildren]. rewrite entriesOf_titleAnchor.
    replace (isNamed "A" (titleAnchor link)) with true by reflexivity.
    reflexivity.
Qed.

Lemma isNamed_render tag it : tag <> "LI" -> isNamed tag (render it) = false.
Proof.
  intros Ht. unfold isNamed. apply andb_false_intro2.
  apply (isTag_excl "LI" tag); [done|]. by destruct it.
Qed.

Lemma entriesItem_render E : forall it k,
  Forall plainLink (leavesOf it) ->
  map (liftTag [k]) (entriesOf E (render it)) = entriesItem E k it.
Proof.
  induction it as [link|link sub IH] using item_ind'; intros k Hplain.
  - cbn [leavesOf] in Hplain. apply Forall_inv in Hplain as (He & Ha & Hin).
    cbn [render entriesItem]. rewrite leafItem_eq, entriesOf_unfold.
    cbn [entriesChildren].
    unfold isNamed at 1. rewrite He, Ha. cbn [andb].
    unfold entriesOf at 1. rewrite Hin. reflexivity.
  - cbn [render entriesItem].
    rewrite entriesOf_submenuItem by reflexivity. cbn [map]. f_equal.
    rewrite map_map. rewrite entriesOf_unfold.
    replace (isTag "LI" (Node (nprops (Sample.createElement "UL"))
                              (map render sub))) with false by reflexivity.
    cbn [leavesOf] in Hplain. clear link.
    assert (Hgen : forall i,
      map (fun x => liftTag [k] (liftTag [1] x))
          (entriesChildren E false i (map render sub)) =
      map (liftTag [k; 1]) (entriesWith (entriesItem E) i sub)).
    { induction sub as [|it r IHr]; intros i; [reflexivity|].
      inversion IH as [|? ? Hit Hr]; subst.
      cbn [flat_map] in Hplain. apply Forall_app in Hplain as [Hp1 Hp2].
      cbn [map entriesChildren entriesWith].
      rewrite isNamed_render by done. cbn [app].
      rewrite !map_app, IHr by done. f_equal.
      rewrite Hit by done. apply map_ext. intros tag.
      by rewrite liftTag_liftTag. }
    apply Hgen.
Qed.

Lemma entriesOf_renderUl E p items :
  isTag "LI" (Node p []) = false ->
  plainItems items ->
  entriesOf E (renderUl p items) = entriesFrom E 0 items.
Proof.
  intros Hp Hplain. unfold renderUl, entriesFrom. rewrite entriesOf_unfold.
  replace (isTag "LI" (Node p (map render items))) with false by done.
  unfold plainItems in Hplain. generalize 0 as k.
  induction items as [|it r IH]; intros k; [reflexivity|].
  cbn [flat_map] in Hplain. apply Forall_app in Hplain as [Hp1 Hp2].
  cbn [map entriesChildren entriesWith].
  rewrite isNamed_render by done. cbn [app].
  by rewrite entriesItem_render, IH.
Qed.

Lemma scanTag_acc m d tag :
  scanTag (m, d) tag = (fun st => (st.1, d ++ st.2)) <$> scanTag (m, []) tag.
Proof.
  destruct tag as [[h l] o]. unfold scanTag.
  destruct (negb (jsIn h m)); [cbn; by rewrite app_nil_r|].
  destruct (m !! h) as [labels|]; [|reflexivity].
  destruct (bool_decide (l ∈ labels)); [|cbn; by rewrite app_nil_r].
  destruct o; cbn; by rewrite ?app_nil_r.
Qed.

Lemma scanTags_acc tags : forall m d,
  scanTags (m, d) tags = (fun st => (st.1, d ++ st.2)) <$> scanTags (m, []) tags.
Proof.
  induction tags as [|tag r IH]; intros m d; [cbn; by rewrite app_nil_r|].
  cbn [scanTags]. rewrite scanTag_acc.
  destruct (scanTag (m, []) tag) as [[m1 x]|]; [|reflexivity]. cbn.
  rewrite (IH m1 (d ++ x)), (IH m1 x).
  destruct (scanTags (m1, []) r) as [[m2 y]|]; [|reflexivity]. cbn.
  by rewrite app_assoc.
Qed.

Lemma scanTags_app a b st :
  scanTags st (a ++ b) = scanTags st a ≫= fun st' => scanTags st' b.
Proof.
  revert st. induction a as [|tag r IH]; intros st; [reflexivity|].
  cbn [app scanTags]. destruct (scanTag st tag); [apply IH|reflexivity].
Qed.

Lemma scanTag_lift pre m d tag :
  scanTag (m, d) (liftTag pre tag) =
  (fun st => (st.1, d ++ map (app pre) st.2)) <$> scanTag (m, []) tag.
Proof.
  destruct tag as [[h l] o]. unfold scanTag, liftTag. cbn [fst snd].
  destruct (negb (jsIn h m)); [cbn; by rewrite app_nil_r|].
  destruct (m !! h) as [labels|]; [|reflexivity].
  destruct (bool_decide (l ∈ labels)); [|cbn; by rewrite app_nil_r].
  destruct o; cbn; by rewrite ?app_nil_r.
Qed.

Lemma scanTags_lift pre tags : forall m d,
  scanTags (m, d) (map (liftTag pre) tags) =
  (fun st => (st.1, d ++ map (app pre) st.2)) <$> scanTags (m, []) tags.
Proof.
  induction tags as [|tag r IH]; intros m d; [cbn; by rewrite app_nil_r|].
  cbn [map scanTags]. rewrite scanTag_lift.
  destruct (scanTag (m, []) tag) as [[m1 x]|]; [|reflexivity]. cbn.
  rewrite (IH m1), (scanTags_acc r m1 x).
  destruct (scanTags (m1, []) r) as [[m2 y]|]; [|reflexivity]. cbn.
  by rewrite map_app, app_assoc.
Qed.

Lemma dedupFrom_cons rec m k it r :
  dedupFrom rec m k (it :: r) =
  ((dedupFrom rec (rec m k it).1.1 (S k) r).1.1,
   (rec m k it).1.2 ++ (dedupFrom rec (rec m k it).1.1 (S k) r).1.2,
   (rec m k it).2 ++ (dedupFrom rec (rec m k it).1.1 (S k) r).2).
Proof.
  cbn [dedupFrom]. destruct (rec m k it) as [[m1 kept] marks]. cbn [fst snd].
  destruct (dedupFrom rec m1 (S k) r) as [[m2 kept'] marks']. reflexivity.
Qed.

Lemma dedupItem_group E m k link sub :
  dedupItem E m k (Group link sub) =
  let r := dedupFrom (dedupItem E) (addKey m (keyOf E (titleAnchor link))) 0 sub in
  (r.1.1, [Group link r.1.2], map (fun q => k :: 1 :: q) r.2).
Proof.
  cbn [dedupItem].
  destruct (dedupFrom _ _ _ _) as [[m' sub'] marks]. reflexivity.
Qed.

Section Scan.
Variable E : Env.
Hypothesis no_inherited_url : forall ref, inherited (resolveURL E ref) = false.

Lemma inherited_hrefOf a : inherited (hrefOf E a) = false.
Proof. unfold hrefOf. destruct (getAttribute a "href"); [done|reflexivity]. Qed.

Lemma scanTag_key m d a o :
  scanTag (m, d) (hrefOf E a, labelOf E a, o) =
  Some (addKey m (keyOf E a),
        d ++ if seenKey m (keyOf E a) then option_list o else []).
Proof.
  unfold scanTag, jsIn, addKey, seenKey, keyOf. cbn [fst snd].
  rewrite inherited_hrefOf, orb_false_r.
  destruct (m !! hrefOf E a) as [labels|] eqn:Hm.
  - rewrite bool_decide_eq_true_2 by eauto. cbn [negb].
    destruct (bool_decide (labelOf E a ∈ labels)); [|by rewrite app_nil_r].
    destruct o; cbn; by rewrite ?app_nil_r.
  - rewrite bool_decide_eq_false_2 by (intros [? ?]; done). cbn [negb].
    by rewrite app_nil_r.
Qed.

Lemma scan_dedupItem : forall it k m,
  scanTags (m, []) (entriesItem E k it) =
  Some ((dedupItem E m k it).1.1, (dedupItem E m k it).2).
Proof.
  induction it as [link|link sub IH] using item_ind'; intros k m.
  - cbn [entriesItem scanTags dedupItem fst snd]. rewrite scanTag_key.
    cbn [app option_list]. by destruct (seenKey m (keyOf E link)).
  - rewrite dedupItem_group. cbn [entriesItem scanTags fst snd].
    rewrite scanTag_key, scanTags_lift.
    set (m1 := addKey m (keyOf E (titleAnchor link))).
    assert (Hsub : forall i m0,
      scanTags (m0, []) (entriesWith (entriesItem E) i sub) =
      Some ((dedupFrom (dedupItem E) m0 i sub).1.1,
            (dedupFrom (dedupItem E) m0 i sub).2)).
    { clear m1 k link m. induction sub as [|it r IHr]; intros i m0; [reflexivity|].
      inversion IH as [|? ? Hit Hr]; subst.
      cbn [entriesWith]. rewrite scanTags_app, Hit, dedupFrom_cons.
      cbn [mbind option_bind fst snd]. rewrite scanTags_acc, IHr by done.
      reflexivity. }
    rewrite Hsub. by destruct (seenKey m (keyOf E (titleAnchor link))).
Qed.

Lemma scan_dedupFrom : forall l k m,
  scanTags (m, []) (entriesFrom E k l) =
  Some ((dedupFrom (dedupItem E) m k l).1.1, (dedupFrom (dedupItem E) m k l).2).
Proof.
  unfold entriesFrom. induction l as [|it r IH]; intros k m; [reflexivity|].
  cbn [entriesWith]. rewrite scanTags_app, scan_dedupItem, dedupFrom_cons.
  cbn [mbind option_bind fst snd]. rewrite scanTags_acc, IH. reflexivity.
Qed.

End Scan.

(** *** Removing the queued nodes *)

Lemma below_app i a b : below i (a ++ b) = below i a ++ below i b.
Proof. unfold below. apply omap_app. Qed.

Lemma below_nil i : below i [] = [].
Proof. reflexivity. Qed.

Lemma below_cons i j q' r :
  below i ((j :: q') :: r) =
  if (j =? i)%nat then q' :: below i r else below i r.
Proof. unfold below. simpl. by destruct (j =? i)%nat. Qed.

Lemma below_other i marks :
  (forall q, q ∈ marks -> exists j q', q = j :: q' /\ j <> i) ->
  below i marks = [].
Proof.
  induction marks as [|q r IH]; intros H; [reflexivity|].
  destruct (H q) as (j & q' & -> & Hj); [by left|].
  rewrite below_cons. apply Nat.eqb_neq in Hj. rewrite Hj.
  apply IH. intros q0 Hq0. apply H. by right.
Qed.

Lemma below_map_cons i {A} (f : A -> path) (l : list A) :
  below i (map (fun x => i :: f x) l) = map f l.
Proof.
  induction l as [|x r IH]; [reflexivity|].
  cbn [map]. by rewrite below_cons, Nat.eqb_refl, IH.
Qed.

Lemma pruneChildren_drop rec a b l : forall i,
  (forall q, q ∈ a -> exists j q', q = j :: q' /\ j < i) ->
  pruneChildren rec (a ++ b) i l = pruneChildren rec b i l.
Proof.
  induction l as [|c r IH]; intros i Ha; [reflexivity|].
  cbn [pruneChildren]. rewrite IH.
  - rewrite below_app, (below_other i a), app_nil_l.
    + f_equal. destruct (decide ([i] ∈ b)) as [Hb|Hb].
      * rewrite !bool_decide_eq_true_2; [done|done|]. apply elem_of_app. by right.
      * rewrite !bool_decide_eq_false_2; [done|done|].
        rewrite elem_of_app. intros [H|H]; [|done].
        destruct (Ha _ H) as (j & q' & Heq & Hj). injection Heq as -> _. lia.
    + intros q Hq. destruct (Ha q Hq) as (j & q' & -> & Hj).
      exists j, q'. split; [done|lia].
  - intros q Hq. destruct (Ha q Hq) as (j & q' & -> & Hj).
    exists j, q'. split; [done|lia].
Qed.

Lemma prune_nil t : prune [] t = t.
Proof.
  induction t as [p cs IH] using node_ind'. cbn [prune]. f_equal.
  generalize 0. induction cs as [|c r IHr]; intros i; [reflexivity|].
  inversion IH as [|? ? Hc Hr]; subst. cbn [pruneChildren].
  rewrite bool_decide_eq_false_2 by apply not_elem_of_nil.
  rewrite below_nil. cbn [app]. by rewrite Hc, IHr.
Qed.

Lemma marks_item E : forall it m k q,
  q ∈ (dedupItem E m k it).2 -> exists q', q = k :: q'.
Proof.
  intros [link|link sub] m k q.
  - cbn [dedupItem snd]. destruct (seenKey m (keyOf E link)).
    + intros H. apply list_elem_of_singleton in H as ->. eauto.
    + intros H. by apply elem_of_nil in H.
  - rewrite dedupItem_group. cbn [snd]. intros H.
    apply list_elem_of_fmap in H as (q0 & -> & _). eauto.
Qed.

Lemma marks_from E : forall l m k q,
  q ∈ (dedupFrom (dedupItem E) m k l).2 -> exists j q', q = j :: q' /\ k <= j.
Proof.
  induction l as [|it r IH]; intros m k q.
  - cbn. intros H. by apply elem_of_nil in H.
  - rewrite dedupFrom_cons. cbn [snd]. intros H.
    apply elem_of_app in H as [H|H].
    + apply marks_item in H as [q' ->]. eauto.
    + apply IH in H as (j & q' & -> & Hj). exists j, q'. split; [done|lia].
Qed.

Lemma nodup_marks_item E : forall it m k, NoDup (dedupItem E m k it).2.
Proof.
  induction it as [link|link sub IH] using item_ind'; intros m k.
  - cbn [dedupItem snd]. destruct (seenKey m (keyOf E link)).
    + apply NoDup_singleton.
    + apply NoDup_nil_2.
  - rewrite dedupItem_group. cbn [snd].
    apply (NoDup_fmap_2 (fun q => k :: 1 :: q)).
    generalize 0, (addKey m (keyOf E (titleAnchor link))).
    induction sub as [|it r IHr]; intros i m0; [apply NoDup_nil_2|].
    inversion IH as [|? ? Hit Hr]; subst.
    rewrite dedupFrom_cons. cbn [snd]. apply NoDup_app. split; [apply Hit|].
    split; [|by apply IHr]. intros q Hq1 Hq2.
    apply marks_item in Hq1 as [q1 ->].
    apply marks_from in Hq2 as (j & q2 & Heq & Hj). injection Heq as -> _. lia.
Qed.

Lemma nodup_marks_from E : forall l m k, NoDup (dedupFrom (dedupItem E) m k l).2.
Proof.
  induction l as [|it r IH]; intros m k; [apply NoDup_nil_2|].
  rewrite dedupFrom_cons. cbn [snd]. apply NoDup_app.
  split; [apply nodup_marks_item|]. split; [|apply IH].
  intros q Hq1 Hq2. apply marks_item in Hq1 as [q1 ->].
  apply marks_from in Hq2 as (j & q2 & Heq & Hj). injection Heq as -> _. lia.
Qed.

Lemma prune_children_step E it r m k :
  (if bool_decide ([k] ∈ (dedupItem E m k it).2) then []
   else [prune (below k (dedupItem E m k it).2) (render it)])
    = map render (dedupItem E m k it).1.2 ->
  pruneChildren prune (dedupFrom (dedupItem E) (dedupItem E m k it).1.1 (S k) r).2
                (S k) (map render r)
    = map render (dedupFrom (dedupItem E) (dedupItem E m k it).1.1 (S k) r).1.2 ->
  pruneChildren prune (dedupFrom (dedupItem E) m k (it :: r)).2 k
                (map render (it :: r))
    = map render (dedupFrom (dedupItem E) m k (it :: r)).1.2.
Proof.
  intros Hit Hr. rewrite dedupFrom_cons. cbn [fst snd map pruneChildren].
  set (mk := (dedupItem E m k it).2) in *.
  set (rest := (dedupFrom (dedupItem E) (dedupItem E m k it).1.1 (S k) r).2) in *.
  assert (Hrest : forall q, q ∈ rest -> exists j q', q = j :: q' /\ j <> k).
  { intros q Hq. apply marks_from in Hq as (j & q' & -> & Hj).
    exists j, q'. split; [done|lia]. }
  rewrite pruneChildren_drop, Hr.
  - rewrite map_app, below_app, (below_other k rest), app_nil_r by done.
    f_equal. rewrite <- Hit.
    destruct (decide ([k] ∈ mk)) as [Hk|Hk].
    + rewrite !bool_decide_eq_true_2; [done|done|]. apply elem_of_app. by left.
    + rewrite !bool_decide_eq_false_2; [done|done|].
      rewrite elem_of_app. intros [H|H]; [done|].
      destruct (Hrest _ H) as (j & q' & Heq & Hj). by injection Heq as ->.
  - intros q Hq. apply marks_item in Hq as [q' ->]. exists k, q'. split; [done|lia].
Qed.

Lemma prune_item E : forall it m k,
  (if bool_decide ([k] ∈ (dedupItem E m k it).2) then []
   else [prune (below k (dedupItem E m k it).2) (render it)])
    = map render (dedupItem E m k it).1.2.
Proof.
  induction it as [link|link sub IH] using item_ind'; intros m k.
  - cbn [dedupItem fst snd]. destruct (seenKey m (keyOf E link)).
    + rewrite bool_decide_eq_true_2; [done|]. by left.
    + rewrite bool_decide_eq_false_2 by apply not_elem_of_nil.
      rewrite below_nil. cbn [map]. by rewrite prune_nil.
  - rewrite dedupItem_group. cbn [fst snd map render].
    set (m1 := addKey m (keyOf E (titleAnchor link))).
    set (sm := (dedupFrom (dedupItem E) m1 0 sub).2).
    assert (Hnil : [] ∉ sm).
    { intros H. apply marks_from in H as (j & q' & Heq & _). done. }
    rewrite bool_decide_eq_false_2.
    2:{ intros H. apply list_elem_of_fmap in H as (q & Heq & _). done. }
    rewrite (below_map_cons k (cons 1)). do 2 f_equal.
    rewrite submenuItem_eq. cbn [prune pruneChildren].
    rewrite bool_decide_eq_false_2.
    2:{ intros H. apply list_elem_of_fmap in H as (q & Heq & _). done. }
    rewrite (below_other 0).
    2:{ intros q Hq. apply list_elem_of_fmap in Hq as (q' & -> & _). eauto. }
    rewrite prune_nil, bool_decide_eq_false_2.
    2:{ intros H. apply list_elem_of_fmap in H as (q & Heq & Hq).
        injection Heq as <-. done. }
    rewrite (below_map_cons 1 (fun q => q)), map_id. cbn [app].
    rewrite submenuItem_eq. do 4 f_equal. unfold sm. clear Hnil sm.
    generalize 0, m1. clear m1.
    induction sub as [|it r IHr]; intros i m0; [reflexivity|].
    inversion IH as [|? ? Hit Hr]; subst.
    apply prune_children_step; [apply Hit|by apply IHr].
Qed.

Lemma prune_from E : forall l m k,
  pruneChildren prune (dedupFrom (dedupItem E) m k l).2 k (map render l)
    = map render (dedupFrom (dedupItem E) m k l).1.2.
Proof.
  induction l as [|it r IH]; intros m k; [reflexivity|].
  apply prune_children_step; [apply prune_item|apply IH].
Qed.

(** *** Which A tags stay *)

Lemma seenKey_addKey m key key' :
  seenKey (addKey m key) key' = seenKey m key' || bool_decide (key' = key).
Proof.
  destruct key as [h l], key' as [h' l']. unfold seenKey, addKey. cbn [fst snd].
  assert (Hpair : (h', l') = (h, l) <-> h' = h /\ l' = l).
  { split; [by intros [= -> ->]|by intros [-> ->]]. }
  destruct (decide (h' = h)) as [->|Hh].
  - destruct (m !! h) as [labels|] eqn:Hm.
    + destruct (decide (l ∈ labels)) as [Hl|Hl].
      * rewrite (bool_decide_eq_true_2 (l ∈ labels)), Hm by done.
        apply eq_true_iff_eq.
        rewrite orb_true_iff, !bool_decide_eq_true, Hpair.
        split; [tauto|]. intros [H|[_ ->]]; done.
      * rewrite (bool_decide_eq_false_2 (l ∈ labels)), lookup_insert_eq by done.
        apply eq_true_iff_eq.
        rewrite orb_true_iff, !bool_decide_eq_true, Hpair, elem_of_app,
          list_elem_of_singleton. tauto.
    + rewrite lookup_insert_eq. apply eq_true_iff_eq.
      rewrite orb_true_iff, !bool_decide_eq_true, Hpair, list_elem_of_singleton.
      split; [tauto|]. intros [H|[_ ->]]; done.
  - rewrite (bool_decide_eq_false_2 (_ = _)) by (rewrite Hpair; tauto).
    rewrite orb_false_r.
    destruct (m !! h) as [labels|] eqn:Hm.
    + destruct (bool_decide (l ∈ labels)); [done|].
      by rewrite lookup_insert_ne.
    + by rewrite lookup_insert_ne.
Qed.

Lemma survivors_app a : forall earlier b,
  survivors earlier (a ++ b) =
  survivors earlier a ++ survivors (earlier ++ map snd a) b.
Proof.
  induction a as [|[leaf key] r IH]; intros earlier b.
  - cbn. by rewrite app_nil_r.
  - cbn [app survivors map snd]. rewrite IH, <- !app_assoc. reflexivity.
Qed.

Lemma tracks_addKey m earlier key :
  tracks m earlier -> tracks (addKey m key) (earlier ++ [key]).
Proof.
  intros H key'. rewrite seenKey_addKey, H. apply eq_true_iff_eq.
  rewrite orb_true_iff, !bool_decide_eq_true, elem_of_app,
    list_elem_of_singleton. tauto.
Qed.

Lemma keys_dedupItem E : forall it m k earlier,
  tracks m earlier ->
  flat_map (keysOf E) (dedupItem E m k it).1.2 = survivors earlier (keysOf E it)
  /\ tracks (dedupItem E m k it).1.1 (earlier ++ map snd (keysOf E it)).
Proof.
  induction it as [link|link sub IH] using item_ind'; intros m k earlier Hm.
  - cbn [dedupItem fst snd keysOf survivors map andb]. split.
    + rewrite Hm. by destruct (bool_decide (keyOf E link ∈ earlier)).
    + by apply tracks_addKey.
  - rewrite dedupItem_group. cbn [fst snd keysOf survivors map andb flat_map].
    rewrite app_nil_r.
    set (tk := keyOf E (titleAnchor link)).
    assert (Hsub : forall i m0 earlier0, tracks m0 earlier0 ->
      flat_map (keysOf E) (dedupFrom (dedupItem E) m0 i sub).1.2
        = survivors earlier0 (flat_map (keysOf E) sub)
      /\ tracks (dedupFrom (dedupItem E) m0 i sub).1.1
                (earlier0 ++ map snd (flat_map (keysOf E) sub))).
    { clear m k earlier Hm. induction sub as [|it r IHr]; intros i m0 e0 H0.
      - cbn. by rewrite app_nil_r.
      - inversion IH as [|? ? Hit Hr]; subst.
        rewrite dedupFrom_cons. cbn [fst snd flat_map].
        destruct (Hit m0 i e0 H0) as [Hk1 Ht1].
        destruct (IHr Hr (S i) _ _ Ht1) as [Hk2 Ht2].
        rewrite flat_map_app, survivors_app, map_app, Hk1, Hk2.
        split; [done|]. by rewrite app_assoc. }
    destruct (Hsub 0 (addKey m tk) (earlier ++ [tk])) as [Hk Ht];
      [by apply tracks_addKey|].
    split.
    + cbn [app]. by rewrite Hk.
    + by rewrite (cons_middle tk), app_assoc.
Qed.

Lemma keys_dedupFrom E : forall l m k earlier,
  tracks m earlier ->
  flat_map (keysOf E) (dedupFrom (dedupItem E) m k l).1.2
    = survivors earlier (flat_map (keysOf E) l).
Proof.
  induction l as [|it r IH]; intros m k earlier Hm; [reflexivity|].
  rewrite dedupFrom_cons. cbn [fst snd flat_map].
  destruct (keys_dedupItem E it m k earlier Hm) as [Hk Ht].
  by rewrite flat_map_app, survivors_app, Hk, (IH _ _ _ Ht).
Qed.

Lemma tracks_empty : tracks ∅ [].
Proof.
  intros key. unfold seenKey. rewrite lookup_empty.
  symmetry. apply bool_decide_eq_false_2, not_elem_of_nil.
Qed.

Lemma keys_dedupItems E items :
  flat_map (keysOf E) (dedupItems E items)
    = survivors [] (flat_map (keysOf E) items).
Proof. apply keys_dedupFrom, tracks_empty. Qed.



Lemma panelOf_eq E items :
  panelOf E items =
  Node (nprops (setAttribute "id" (NAV_PANEL E) (Sample.createElement "NAV")))
       [renderUl topUlProps items].
Proof. reflexivity. Qed.

(** On the rendering of a menu with plain leaves, deduplication ends without
    an exception and leaves the rendering of the deduplicated menu. *)
Lemma dedup_panelOf (E : Env) (items : list item) :
  (forall ref, inherited (resolveURL E ref) = false) ->
  plainItems items ->
  dedupNavMenuItems_ E (panelOf E items) = Some (panelOf E (dedupItems E items)).
Proof.
  intros Hres Hplain. unfold dedupNavMenuItems_.
  fold (entriesOf E (panelOf E items)).
  rewrite panelOf_eq, entriesOf_unfold. cbn [entriesChildren].
  replace (isNamed "A" (renderUl topUlProps items)) with false by reflexivity.
  cbn [app]. rewrite app_nil_r, entriesOf_renderUl by done.
  rewrite scanTags_lift, scan_dedupFrom by done. cbn [fmap option_fmap option_map fst snd app].
  rewrite bool_decide_eq_true_2.
  2:{ apply (NoDup_fmap_2 (app [0])), nodup_marks_from. }
  f_equal. rewrite panelOf_eq. cbn [prune pruneChildren].
  set (marks := (dedupFrom (dedupItem E) ∅ 0 items).2).
  rewrite bool_decide_eq_false_2.
  2:{ intros H. apply list_elem_of_fmap in H as (q & Heq & Hq).
      injection Heq as <-. apply marks_from in Hq as (j & q' & Hq & _). done. }
  rewrite (below_map_cons 0 (fun q => q)), map_id. cbn [app].
  do 2 f_equal. unfold renderUl. cbn [prune]. f_equal. apply prune_from.
Qed.



Lemma sampleEnv_urls ref : inherited (resolveURL sampleEnv ref) = false.
Proof. reflexivity. Qed.






(** ** The explicit panel *)

Lemma find_alter {A} (P : A -> Prop) `{!forall x, Decision (P x)}
    (g : A -> A) (i : nat) (l : list A) (k : nat) (x : A) :
  list_find P l = Some (k, x) ->
  (forall y, P (g y) <-> P y) ->
  list_find P (alter g i l) = Some (k, if decide (k = i) then g x else x).
Proof.
  intros Hf Hg. apply list_find_Some in Hf as (Hk & Hx & Hmin).
  apply list_find_Some. split; [|split].
  - destruct (decide (k = i)) as [->|Hne].
    + by rewrite list_lookup_alter_eq, Hk.
    + by rewrite list_lookup_alter_ne.
  - destruct (decide (k = i)); [by apply Hg|done].
  - intros j y Hj Hlt. destruct (decide (j = i)) as [->|Hne].
    + rewrite list_lookup_alter_eq in Hj.
      destruct (l !! i) as [z|] eqn:Hz; [|done]. injection Hj as <-.
      rewrite Hg. by apply (Hmin i).
    + rewrite list_lookup_alter_ne in Hj by done. by apply (Hmin j).
Qed.

Lemma find_delete_after {A} (P : A -> Prop) `{!forall x, Decision (P x)}
    (i : nat) (l : list A) (k : nat) (x : A) :
  list_find P l = Some (k, x) -> k < i ->
  list_find P (delete i l) = Some (k, x).
Proof.
  intros Hf Hlt. apply list_find_Some in Hf as (Hk & Hx & Hmin).
  apply list_find_Some. split; [|split; [done|]].
  - by rewrite list_lookup_delete_lt.
  - intros j y Hj Hjk. rewrite list_lookup_delete_lt in Hj by lia.
    by apply (Hmin j).
Qed.

Lemma find_delete_before {A} (P : A -> Prop) `{!forall x, Decision (P x)}
    (i : nat) (l : list A) (k : nat) (x : A) :
  list_find P l = Some (k, x) -> i < k ->
  list_find P (delete i l) = Some (k - 1, x).
Proof.
  intros Hf Hlt. apply list_find_Some in Hf as (Hk & Hx & Hmin).
  apply list_find_Some. split; [|split; [done|]].
  - rewrite list_lookup_delete_ge by lia. by replace (S (k - 1)) with k by lia.
  - intros j y Hj Hjk. destruct (decide (j < i)) as [Hji|Hji].
    + rewrite list_lookup_delete_lt in Hj by done. apply (Hmin j); [done|lia].
    + rewrite list_lookup_delete_ge in Hj by lia. apply (Hmin (S j)); [done|lia].
Qed.

Lemma removeAt_cons i q p cs :
  q <> [] ->
  removeAt (i :: q) (Node p cs) = Node p (alter (removeAt q) i cs).
Proof. by destruct q. Qed.

Lemma nprops_removeAt q t : q <> [] -> nprops (removeAt q t) = nprops t.
Proof. destruct t, q as [|i [|j q]]; done. Qed.

Lemma nodeAt_appendAt c : forall q t p cs,
  nodeAt t q = Some (Node p cs) ->
  nodeAt (appendAt q c t) (q ++ [length cs]) = Some c.
Proof.
  unfold appendAt. induction q as [|i q IH]; intros t p cs Ht.
  - injection Ht as ->. cbn [updateAt nprops childNodes app].
    rewrite nodeAt_cons, lookup_app_r, Nat.sub_diag by lia. reflexivity.
  - destruct t as [p0 cs0]. rewrite nodeAt_cons in Ht.
    destruct (cs0 !! i) as [ci|] eqn:Hi; [|done]. cbn in Ht.
    rewrite updateAt_cons. cbn [app]. rewrite nodeAt_cons, list_lookup_alter_eq, Hi.
    cbn. by apply (IH ci p cs).
Qed.

Lemma alter_fixed {A} (g : A -> A) (i : nat) (l : list A) (x : A) :
  l !! i = Some x -> g x = x -> alter g i l = l.
Proof.
  intros Hx Hg. apply list_eq. intros j.
  destruct (decide (j = i)) as [->|Hne].
  - rewrite list_lookup_alter_eq, Hx. cbn. by rewrite Hg.
  - by rewrite list_lookup_alter_ne.
Qed.

Lemma removeAt_appendAt c : forall q t p cs,
  nodeAt t q = Some (Node p cs) ->
  removeAt (q ++ [length cs]) (appendAt q c t) = t.
Proof.
  unfold appendAt. induction q as [|i q IH]; intros t p cs Ht.
  - injection Ht as ->. cbn [updateAt nprops childNodes app removeAt].
    f_equal. rewrite <- (app_nil_r cs) at 3. apply (delete_middle cs []).
  - destruct t as [p0 cs0]. rewrite nodeAt_cons in Ht.
    destruct (cs0 !! i) as [ci|] eqn:Hi; [|done]. cbn in Ht.
    rewrite updateAt_cons. cbn [app].
    rewrite removeAt_cons by (by destruct q). f_equal.
    rewrite list_alter_alter_eq. apply (alter_fixed _ _ _ ci); [done|]. cbn.
    by apply (IH ci p cs).
Qed.

Lemma shift_cons a r b t :
  r <> [] ->
  shift (a :: r) (b :: t) = if (a =? b)%nat then b :: shift r t else b :: t.
Proof. by destruct r. Qed.

Lemma shift_snoc i : forall q, shift (q ++ [i]) q = q.
Proof.
  induction q as [|a q IH]; [reflexivity|].
  cbn [app]. rewrite shift_cons by (by destruct q).
  by rewrite Nat.eqb_refl, IH.
Qed.

Lemma isPrefix_snoc i : forall q, isPrefix (q ++ [i]) q = false.
Proof.
  induction q as [|a q IH]; [reflexivity|].
  cbn [app isPrefix]. by rewrite Nat.eqb_refl, IH.
Qed.

Lemma list_sum_cons (w : node -> nat) (y : node) (r : list node) :
  list_sum (map w (y :: r)) = w y + list_sum (map w r).
Proof. reflexivity. Qed.

Lemma length_selectFrom f l : forall k,
  length (selectFrom f k l) = list_sum (map (weight f) l).
Proof.
  induction l as [|c r IH]; intros k; [reflexivity|].
  cbn [selectFrom]. rewrite list_sum_cons, length_app, length_map, length_app, IH.
  unfold weight. destruct (f c); cbn [length]; lia.
Qed.

Lemma length_select f p cs :
  length (select f (Node p cs)) = list_sum (map (weight f) cs).
Proof. by rewrite select_unfold, length_selectFrom. Qed.

Lemma list_sum_delete (w : node -> nat) (l : list node) (i : nat) (x : node) :
  l !! i = Some x ->
  list_sum (map w (delete i l)) + w x = list_sum (map w l).
Proof.
  revert i. induction l as [|y r IH]; intros i Hx; [done|].
  destruct i as [|i].
  - injection Hx as ->. change (delete 0 (x :: r)) with r.
    rewrite list_sum_cons. lia.
  - change (delete (S i) (y :: r)) with (y :: delete i r).
    rewrite !list_sum_cons. specialize (IH i Hx). lia.
Qed.

Lemma list_sum_alter (w : node -> nat) (g : node -> node) (l : list node)
    (i : nat) (x : node) :
  l !! i = Some x ->
  list_sum (map w (alter g i l)) + w x = list_sum (map w l) + w (g x).
Proof.
  revert i. induction l as [|y r IH]; intros i Hx; [done|].
  destruct i as [|i].
  - injection Hx as ->. change (alter g 0 (x :: r)) with (g x :: r).
    rewrite !list_sum_cons. lia.
  - change (alter g (S i) (y :: r)) with (y :: alter g i r).
    rewrite !list_sum_cons. specialize (IH i Hx). lia.
Qed.

Lemma propsOnly_same f a b : propsOnly f -> nprops a = nprops b -> f a = f b.
Proof. intros Hf. destruct a, b. cbn. intros ->. apply Hf. Qed.

Lemma count_removeAt f : propsOnly f -> forall q t n,
  q <> [] -> nodeAt t q = Some n ->
  length (select f (removeAt q t)) + weight f n = length (select f t).
Proof.
  intros Hf. induction q as [|i q IH]; intros t n Hq Hn; [done|].
  destruct t as [p cs]. rewrite nodeAt_cons in Hn.
  destruct (cs !! i) as [c|] eqn:Hc; [|done]. cbn in Hn.
  destruct q as [|j q].
  - injection Hn as ->. cbn [removeAt]. rewrite !length_select.
    by apply list_sum_delete.
  - rewrite removeAt_cons by done. rewrite !length_select.
    pose proof (list_sum_alter (weight f) (removeAt (j :: q)) cs i c Hc) as Hsum.
    specialize (IH c n ltac:(done) Hn).
    assert (Hw : weight f (removeAt (j :: q) c) + weight f n = weight f c).
    { unfold weight at 1 3.
      rewrite (propsOnly_same f (removeAt (j :: q) c) c Hf)
        by (by apply nprops_removeAt). lia. }
    lia.
Qed.

Lemma count_appendAt f c : propsOnly f -> forall q t x,
  nodeAt t q = Some x ->
  length (select f (appendAt q c t)) = length (select f t) + weight f c.
Proof.
  intros Hf. unfold appendAt. induction q as [|i q IH]; intros t x Hx.
  - destruct t as [p cs]. cbn [updateAt nprops childNodes].
    rewrite !length_select, map_app, list_sum_app.
    change (map (weight f) [c]) with [weight f c]. cbn [list_sum foldr]. lia.
  - destruct t as [p cs]. rewrite nodeAt_cons in Hx.
    destruct (cs !! i) as [ci|] eqn:Hi; [|done]. cbn in Hx.
    rewrite updateAt_cons, !length_select.
    pose proof (list_sum_alter (weight f)
      (updateAt (fun n => Node (nprops n) (childNodes n ++ [c])) q) cs i ci Hi)
      as Hsum.
    specialize (IH ci x Hx).
    assert (Hw : weight f (updateAt (fun n => Node (nprops n) (childNodes n ++ [c]))
                                    q ci) = weight f ci + weight f c).
    { unfold weight at 1 2. rewrite IH.
      rewrite (propsOnly_same f _ ci Hf); [lia|].
      destruct q, ci; reflexivity. }
    lia.
Qed.

Lemma descFrom_elem desc l : forall i k c,
  l !! i = Some c ->
  [k + i] ∈ descFrom desc k l
  /\ forall q, q ∈ desc c -> (k + i) :: q ∈ descFrom desc k l.
Proof.
  induction l as [|y r IH]; intros i k c Hc; [done|].
  cbn [descFrom]. destruct i as [|i].
  - injection Hc as ->. rewrite Nat.add_0_r. split.
    + by left.
    + intros q Hq. right. apply elem_of_app. left.
      apply list_elem_of_fmap. eauto.
  - destruct (IH i (S k) c Hc) as [H1 H2].
    replace (k + S i) with (S k + i) by lia. split.
    + right. apply elem_of_app. by right.
    + intros q Hq. right. apply elem_of_app. right. by apply H2.
Qed.

Lemma descendants_complete : forall q t n,
  q <> [] -> nodeAt t q = Some n -> q ∈ descendants t.
Proof.
  induction q as [|i q IH]; intros t n Hq Hn; [done|].
  destruct t as [p cs]. rewrite nodeAt_cons in Hn.
  destruct (cs !! i) as [c|] eqn:Hc; [|done]. cbn in Hn.
  destruct (descFrom_elem descendants cs i 0 c Hc) as [H1 H2].
  cbn [descendants]. destruct q as [|j q]; [exact H1|].
  apply H2. by apply (IH c n).
Qed.

Lemma select_complete f q t n :
  q <> [] -> nodeAt t q = Some n -> f n = true -> q ∈ select f t.
Proof.
  intros Hq Hn Hf. unfold select. apply list_elem_of_In, List.filter_In. split.
  - apply list_elem_of_In. by apply (descendants_complete q t n).
  - unfold holdsAt. by rewrite Hn.
Qed.

Lemma select_sound f q t :
  q ∈ select f t -> q <> [] /\ exists n, nodeAt t q = Some n /\ f n = true.
Proof.
  intros H. split; [intros ->; by apply select_not_nil in H|].
  apply list_elem_of_In, List.filter_In in H as [_ H]. unfold holdsAt in H.
  destruct (nodeAt t q) as [n|]; [eauto|done].
Qed.

Lemma propsOnly_hasId id : propsOnly (hasId id).
Proof. intros p cs cs'. reflexivity. Qed.

Lemma body_elim doc b :
  body doc = Some b ->
  exists h html j bn,
    b = [h; j]
    /\ list_find (fun c => isElement c) (childNodes doc) = Some (h, html)
    /\ isTag "HTML" html = true
    /\ list_find (fun c => isBody c) (childNodes html) = Some (j, bn).
Proof.
  unfold body. intros H.
  destruct (list_find _ (childNodes doc)) as [[h html]|]; [|done].
  destruct (isTag "HTML" html) eqn:Hhtml; [|done].
  destruct (list_find _ (childNodes html)) as [[j bn]|] eqn:Hb; [|done].
  injection H as <-. by exists h, html, j, bn.
Qed.

Lemma body_intro doc h html j bn :
  list_find (fun c => isElement c) (childNodes doc) = Some (h, html) ->
  isTag "HTML" html = true ->
  list_find (fun c => isBody c) (childNodes html) = Some (j, bn) ->
  body doc = Some [h; j].
Proof. intros H1 H2 H3. unfold body. by rewrite H1, H2, H3. Qed.

Lemma body_valid doc b :
  body doc = Some b -> exists bp cs, nodeAt doc b = Some (Node bp cs).
Proof.
  intros H. apply body_elim in H as (h & html & j & bn & -> & H1 & _ & H3).
  apply list_find_Some in H1 as (H1 & _). apply list_find_Some in H3 as (H3 & _).
  destruct doc as [pd ds], html as [ph hs], bn as [bp cs].
  cbn [childNodes] in H1, H3. exists bp, cs.
  rewrite nodeAt_cons, H1. cbn [mbind option_bind].
  rewrite nodeAt_cons, H3. reflexivity.
Qed.

Lemma nprops_updateAt_cons f i q t : nprops (updateAt f (i :: q) t) = nprops t.
Proof. by destruct t. Qed.

Lemma isElement_props a b : nprops a = nprops b -> isElement a = isElement b.
Proof. unfold isElement. by intros ->. Qed.

Lemma isTag_props tag a b : nprops a = nprops b -> isTag tag a = isTag tag b.
Proof. unfold isTag. by intros ->. Qed.

Lemma isBody_props a b : nprops a = nprops b -> isBody a = isBody b.
Proof.
  intros H. unfold isBody.
  by rewrite (isElement_props a b), !(isTag_props _ a b).
Qed.

Lemma body_appendAt doc b c :
  body doc = Some b -> body (appendAt b c doc) = Some b.
Proof.
  intros H. apply body_elim in H as (h & html & j & bn & -> & H1 & H2 & H3).
  destruct doc as [pd ds]. unfold appendAt. rewrite updateAt_cons.
  set (f := fun n => Node (nprops n) (childNodes n ++ [c])).
  cbn [childNodes] in H1.
  eapply body_intro.
  - cbn [childNodes]. apply (find_alter _ (updateAt f [j]) h) in H1.
    + rewrite decide_True in H1 by done. exact H1.
    + intros y. by rewrite (isElement_props _ y (nprops_updateAt_cons f j [] y)).
  - by rewrite (isTag_props _ _ html (nprops_updateAt_cons f j [] html)).
  - destruct html as [ph hs]. rewrite updateAt_cons. cbn [childNodes] in *.
    apply (find_alter _ (updateAt f []) j) in H3.
    + rewrite decide_True in H3 by done. exact H3.
    + intros y. cbn [updateAt]. by rewrite (isBody_props (f y) y).
Qed.

Lemma shift_nil q : shift q [] = [].
Proof. by destruct q as [|i [|j q]]. Qed.

Lemma body_removeAt doc b panel pn :
  body doc = Some b ->
  nodeAt doc panel = Some pn -> isElement pn = true ->
  panel <> [] -> isPrefix panel b = false ->
  body (removeAt panel doc) = Some (shift panel b).
Proof.
  intros H Hpn He Hne Hpre.
  apply body_elim in H as (h & html & j & bn & -> & H1 & H2 & H3).
  destruct doc as [pd ds]. cbn [childNodes] in H1.
  destruct panel as [|i q]; [done|]. rewrite nodeAt_cons in Hpn.
  destruct (ds !! i) as [ci|] eqn:Hci; [|done]. cbn in Hpn.
  destruct q as [|i2 q2].
  - (* the panel is a child of the document *)
    injection Hpn as ->. cbn [isPrefix] in Hpre. rewrite andb_true_r in Hpre.
    apply Nat.eqb_neq in Hpre.
    assert (Hlt : h < i).
    { destruct (decide (i < h)) as [Hih|Hih]; [|lia].
      apply list_find_Some in H1 as (_ & _ & Hmin).
      exfalso. apply (Hmin i pn Hci Hih). by rewrite He. }
    cbn [removeAt shift]. replace (i <? h)%nat with false
      by (symmetry; apply Nat.ltb_ge; lia).
    eapply body_intro; [|exact H2|exact H3].
    cbn [childNodes]. by apply find_delete_after.
  - rewrite removeAt_cons by done. rewrite shift_cons by done.
    destruct (i =? h)%nat eqn:Hih.
    + (* the panel is below the html element *)
      apply Nat.eqb_eq in Hih. subst i.
      pose proof H1 as H1'. apply list_find_Some in H1' as (Hh & _).
      rewrite Hh in Hci. injection Hci as <-.
      apply (find_alter _ (removeAt (i2 :: q2)) h) in H1.
      2:{ intros y. by rewrite (isElement_props (removeAt (i2 :: q2) y) y
                                  (nprops_removeAt (i2 :: q2) y ltac:(done))). }
      rewrite decide_True in H1 by done.
      destruct html as [ph hs]. cbn [childNodes] in H3.
      rewrite nodeAt_cons in Hpn.
      destruct (hs !! i2) as [c2|] eqn:Hc2; [|done]. cbn in Hpn.
      cbn [isPrefix] in Hpre. rewrite Nat.eqb_refl in Hpre. cbn [andb] in Hpre.
      destruct q2 as [|i3 q3].
      * (* a child of the html element, other than the body *)
        rewrite andb_true_r in Hpre. apply Nat.eqb_neq in Hpre.
        cbn [shift]. cbn [removeAt] in H1.
        destruct (i2 <? j)%nat eqn:Hlt.
        -- apply Nat.ltb_lt in Hlt. eapply body_intro; [exact H1|exact H2|].
           cbn [childNodes]. by apply find_delete_before.
        -- apply Nat.ltb_ge in Hlt. eapply body_intro; [exact H1|exact H2|].
           cbn [childNodes]. apply find_delete_after; [done|lia].
      * (* deeper: the children of the html element stay in place *)
        rewrite removeAt_cons in H1 by done. rewrite shift_cons by done.
        rewrite shift_nil.
        assert (Hsame : (if (i2 =? j)%nat then [j] else [j]) = [j])
          by (by destruct (i2 =? j)%nat).
        rewrite Hsame.
        apply (find_alter _ (removeAt (i3 :: q3)) i2) in H3.
        2:{ intros y. by rewrite (isBody_props (removeAt (i3 :: q3) y) y
                                    (nprops_removeAt (i3 :: q3) y ltac:(done))). }
        eapply body_intro; [exact H1|exact H2|exact H3].
    + (* the panel is below another child of the document *)
      apply Nat.eqb_neq in Hih.
      apply (find_alter _ (removeAt (i2 :: q2)) i) in H1.
      2:{ intros y. by rewrite (isElement_props (removeAt (i2 :: q2) y) y
                                  (nprops_removeAt (i2 :: q2) y ltac:(done))). }
      rewrite decide_False in H1 by done.
      eapply body_intro; [exact H1|exact H2|exact H3].
Qed.

Lemma parentNode_snoc q i : parentNode (q ++ [i]) = Some q.
Proof.
  unfold parentNode. destruct (q ++ [i]) eqn:Hq; [by destruct q|].
  by rewrite <- Hq, removelast_last.
Qed.

Lemma getElementById_unique doc id panel :
  id <> "" -> select (hasId id) doc = [panel] -> getElementById doc id = Some panel.
Proof.
  intros Hid Hsel. unfold getElementById.
  apply String.eqb_neq in Hid. by rewrite Hid, Hsel.
Qed.

Lemma hasId_isElement id n : hasId id n = true -> isElement n = true.
Proof. unfold hasId. intros H. by apply andb_prop in H as [H _]. Qed.

(** C9, as it holds.  On a page where exactly one element has the id of the
    panel, the body exists and does not lie inside that element, discovery
    returns: the element is recorded as the panel, the list of sections is
    empty, the element is a child of the body and still the only one of its
    id, and running discovery again changes neither the page nor the
    object. *)
Theorem findNavSections_explicit_panel_idempotent
    (E : Env) (ids : option (list string)) (doc : node) (this : MobNav)
    (panel b : path) :
  NAV_PANEL E <> "" ->
  select (hasId (NAV_PANEL E)) doc = [panel] ->
  body doc = Some b ->
  isPrefix panel b = false ->
  exists doc1 panel1,
    let this1 := withNavSections [] (withNavPanel (Some panel1) this) in
    findNavSections_ E ids doc this = Done (doc1, this1)
    /\ navSections_ this1 = [] /\ navPanel_ this1 = Some panel1
    /\ parentNode panel1 = body doc1
    /\ select (hasId (NAV_PANEL E)) doc1 = [panel1]
    /\ findNavSections_ E ids doc1 this1 = Done (doc1, this1).
Proof.
  intros Hid Hsel Hbody Hpre.
  assert (Hin : panel ∈ select (hasId (NAV_PANEL E)) doc)
    by (rewrite Hsel; by left).
  apply select_sound in Hin as (Hne & pn & Hpn & Hhas).
  pose proof (hasId_isElement _ _ Hhas) as Hel.
  pose proof (body_removeAt doc b panel pn Hbody Hpn Hel Hne Hpre) as Hbody1.
  destruct (body_valid _ _ Hbody1) as (bp & cs & Hb1).
  set (t1 := removeAt panel doc) in *. set (b' := shift panel b) in *.
  set (doc1 := appendAt b' pn t1). set (panel1 := b' ++ [length cs]).
  assert (Hbody2 : body doc1 = Some b') by (by apply body_appendAt).
  assert (Hpanel1 : nodeAt doc1 panel1 = Some pn)
    by (by apply (nodeAt_appendAt pn b' t1 bp cs)).
  assert (Hsel1 : select (hasId (NAV_PANEL E)) doc1 = [panel1]).
  { pose proof (count_removeAt _ (propsOnly_hasId (NAV_PANEL E)) panel doc pn
                  Hne Hpn) as Hc1.
    pose proof (count_appendAt _ pn (propsOnly_hasId (NAV_PANEL E)) b' t1 _ Hb1)
      as Hc2.
    fold t1 in Hc1. fold doc1 in Hc2. rewrite Hsel in Hc1. cbn [length] in Hc1.
    unfold weight in Hc1, Hc2. rewrite Hhas in Hc1, Hc2.
    assert (Hlen : length (select (hasId (NAV_PANEL E)) doc1) = 1) by lia.
    assert (Hin1 : panel1 ∈ select (hasId (NAV_PANEL E)) doc1).
    { apply (select_complete _ _ _ pn); [by destruct b'|done|done]. }
    destruct (select (hasId (NAV_PANEL E)) doc1) as [|x [|y r]]; [done| |done].
    apply list_elem_of_singleton in Hin1. by subst x. }
  assert (Hfirst : appendChild doc b panel = Some (doc1, panel1)).
  { unfold appendChild. rewrite Hpre, Hpn. fold t1 b'. by rewrite Hb1. }
  assert (Hsecond : appendChild doc1 b' panel1 = Some (doc1, panel1)).
  { unfold appendChild, panel1. rewrite isPrefix_snoc. fold panel1.
    rewrite Hpanel1. unfold panel1, doc1.
    rewrite (removeAt_appendAt pn b' t1 bp cs Hb1), shift_snoc, Hb1.
    reflexivity. }
  exists doc1, panel1. cbn zeta. split; [|split; [done|split; [done|]]].
  - unfold findNavSections_.
    rewrite (getElementById_unique doc _ panel Hid Hsel), Hbody, Hfirst.
    reflexivity.
  - split; [|split; [done|]].
    + unfold panel1. by rewrite parentNode_snoc, Hbody2.
    + unfold findNavSections_.
      rewrite (getElementById_unique doc1 _ panel1 Hid Hsel1), Hbody2, Hsecond.
      reflexivity.
Qed.

Lemma findNavSections_explicit_panel_idempotent_witness :
  exists doc1 panel1,
    let this1 := withNavSections [] (withNavPanel (Some panel1) newMobNav) in
    findNavSections_ sampleEnv (Some ["main"]) panelPage newMobNav
      = Done (doc1, this1)
    /\ navSections_ this1 = [] /\ navPanel_ this1 = Some panel1
    /\ parentNode panel1 = body doc1
    /\ select (hasId (NAV_PANEL sampleEnv)) doc1 = [panel1]
    /\ findNavSections_ sampleEnv (Some ["main"]) doc1 this1 = Done (doc1, this1).
Proof.
  apply (findNavSections_explicit_panel_idempotent sampleEnv (Some ["main"])
           panelPage newMobNav [0; 1; 0; 0] [0; 1]).
  - discriminate.
  - reflexivity.
  - reflexivity.
  - reflexivity.
Defined.

(** C9 as stated fails: on a page that has the panel, discovery leaves the
    list of sections empty; the element is recorded as the panel, not as a
    section. *)
Lemma findNavSections_panel_is_no_section :
  findNavSections_ sampleEnv (Some ["main"]) panelPage newMobNav
    = Done (panelPageMoved,
            withNavSections [] (withNavPanel (Some [0; 1; 2]) newMobNav)) /\
  navPanel_ (withNavSections [] (withNavPanel (Some [0; 1; 2]) newMobNav))
    = Some [0; 1; 2] /\
  navSections_ (withNavSections [] (withNavPanel (Some [0; 1; 2]) newMobNav))
    <> [[0; 1; 2]].
Proof.
  split; [vm_compute; reflexivity|]. split; [reflexivity|discriminate].
Qed.

(** * Further properties *)

Import Traversal Runs Siblings Repeats.

(** ** Labelling again *)

Lemma storeAttr_twice k v v' l :
  storeAttr k v' (storeAttr k v l) = storeAttr k v' l.
Proof.
  induction l as [|[k' w] l IH]; cbn [storeAttr].
  - by rewrite String.eqb_refl.
  - destruct (String.eqb k k') eqn:E; cbn [storeAttr].
    + by rewrite String.eqb_refl.
    + by rewrite E, IH.
Qed.

Lemma setAttribute_twice k v v' n :
  setAttribute k v' (setAttribute k v n) = setAttribute k v' n.
Proof.
  destruct n as [[] cs]. unfold setAttribute, setProps, withAttrs. cbn.
  by rewrite storeAttr_twice.
Qed.

Lemma labelNavDepth_setProps f n d u :
  labelNavDepth_ (setProps f n) d u =
  (setProps f (labelNavDepth_ n d u).1, (labelNavDepth_ n d u).2).
Proof.
  destruct n as [p cs]. cbn [setProps labelNavDepth_].
  by destruct (labelChildren labelNavDepth_ d u 0 cs).
Qed.

Lemma nprops_labelNavDepth n d u : nprops (labelNavDepth_ n d u).1 = nprops n.
Proof.
  destruct n as [p cs]. cbn [labelNavDepth_].
  by destruct (labelChildren labelNavDepth_ d u 0 cs).
Qed.

Lemma isTag_setAttribute tag k v n : isTag tag (setAttribute k v n) = isTag tag n.
Proof. by destruct n as [[] cs]. Qed.

Lemma labelChild_relabel d u d' u' c :
  (forall d u d' u',
     labelNavDepth_ (labelNavDepth_ c d u).1 d' u' = labelNavDepth_ c d' u') ->
  labelChild labelNavDepth_ d' u' (labelChild labelNavDepth_ d u c).1
  = labelChild labelNavDepth_ d' u' c.
Proof.
  intros Hc. unfold labelChild at 2. destruct (isTag "UL" c) eqn:Hul.
  - unfold labelChild.
    rewrite (isTag_props "UL" _ c), Hul by apply nprops_labelNavDepth.
    by rewrite Hc.
  - pose proof (Hc d u) as Hc'. pose proof (nprops_labelNavDepth c d u) as Hp.
    destruct (labelNavDepth_ c d u) as [c1 s1]. cbn [fst] in Hc', Hp.
    unfold labelChild. destruct (isTag "A" c) eqn:Ha; cbn [fst].
    + rewrite isTag_setAttribute, (isTag_props "UL" c1 c), Hul by done.
      rewrite isTag_setAttribute, (isTag_props "A" c1 c), Ha by done.
      unfold setAttribute at 1. rewrite labelNavDepth_setProps, Hc'.
      fold (setAttribute NAV_LEVEL (JS.ofNat d) (labelNavDepth_ c d' u').1).
      destruct (labelNavDepth_ c d' u') as [c2 s2]. cbn [fst snd].
      by rewrite setAttribute_twice.
    + rewrite (isTag_props "UL" c1 c), Hul by done.
      rewrite Hc', (isTag_props "A" c1 c), Ha by done. reflexivity.
Qed.

Lemma labelChildren_relabel d u d' u' l :
  Forall (fun c => forall d u d' u',
            labelNavDepth_ (labelNavDepth_ c d u).1 d' u' = labelNavDepth_ c d' u') l ->
  forall i,
  labelChildren labelNavDepth_ d' u' i (labelChildren labelNavDepth_ d u i l).1
  = labelChildren labelNavDepth_ d' u' i l.
Proof.
  induction 1 as [|c r Hc _ IH]; intros i; [reflexivity|].
  rewrite (labelChildren_cons labelNavDepth_ d u).
  cbn [fst]. rewrite !(labelChildren_cons labelNavDepth_ d' u').
  by rewrite IH, labelChild_relabel.
Qed.

Lemma labelNavDepth_relabel t : forall d u d' u',
  labelNavDepth_ (labelNavDepth_ t d u).1 d' u' = labelNavDepth_ t d' u'.
Proof.
  induction t as [p cs IH] using node_ind'. intros d u d' u'.
  rewrite (labelNavDepth_unfold p cs d u). cbn [fst].
  rewrite !labelNavDepth_unfold. by rewrite labelChildren_relabel.
Qed.

(** X1.  Labels of an earlier pass do not show: labelling a section that
    has been labelled before, from whatever depth, gives the tree and the
    links that labelling the fresh section gives, and so the links the
    panel builder reads are the same. *)
Theorem labelNavDepth_relabel_overrides (t : node) (d d' : nat) (u u' : bool) :
  labelNavDepth_ (labelNavDepth_ t d u).1 d' u' = labelNavDepth_ t d' u' /\
  navATagsOf (labelNavDepth_ t d u).1 = navATagsOf t.
Proof.
  split; [apply labelNavDepth_relabel|].
  unfold navATagsOf. by rewrite labelNavDepth_relabel.
Qed.

Lemma nprops_setAttribute_props k v (a b : node) :
  nprops a = nprops b -> nprops (setAttribute k v a) = nprops (setAttribute k v b).
Proof. destruct a as [pa ca]. destruct b as [pb cb]. cbn. by intros ->. Qed.

Lemma nestingDepth_enter (d : nat) (u : bool) (m : nat) :
  nestingDepth (if u then d + 1 else d) true m = nestingDepth d u (1 + m).
Proof. unfold nestingDepth. destruct u; lia. Qed.

Lemma labelChild_props d u c q :
  (forall d u q,
     propsAt (labelNavDepth_ c d u).1 q = labelledProps c d u q <$> nodeAt c q) ->
  propsAt (labelChild labelNavDepth_ d u c).1 q =
  (fun n =>
     if isTag "A" n
     then nprops (setAttribute NAV_LEVEL
            (JS.ofNat (nestingDepth d u
               ((if isTag "UL" c then 1 else 0) + listNesting c q))) n)
     else nprops n) <$> nodeAt c q.
Proof.
  intros IH. unfold labelChild. destruct (isTag "UL" c) eqn:Hul.
  - rewrite IH. destruct q as [|i q].
    + unfold labelledProps. cbn [nodeAt fmap option_fmap option_map].
      rewrite bool_decide_eq_false_2 by (intros H; by apply H). cbn [andb].
      by rewrite (isTag_excl "UL" "A" c).
    + destruct (nodeAt c (i :: q)) as [n|]; [|done]. cbn [fmap option_fmap option_map].
      unfold labelledProps. rewrite bool_decide_eq_true_2 by done. cbn [andb].
      by rewrite nestingDepth_enter.
  - pose proof (IH d u q) as H. pose proof (nprops_labelNavDepth c d u) as Hp.
    destruct (labelNavDepth_ c d u) as [c1 s1]. cbn [fst] in H, Hp.
    destruct q as [|i q].
    + cbn [nodeAt]. unfold propsAt. cbn [nodeAt fmap option_fmap option_map].
      destruct (isTag "A" c) eqn:Ha; cbn [fst].
      * f_equal. cbn [listNesting]. unfold nestingDepth at 1.
        replace (if u then d + (0 + 0) else d + (0 + 0 - 1)) with d
          by (destruct u; lia).
        by apply nprops_setAttribute_props.
      * by rewrite Hp.
    + assert (Hq : propsAt (if isTag "A" c then
                      (setAttribute NAV_LEVEL (JS.ofNat d) c1, [] :: s1)
                    else (c1, s1)).1 (i :: q) = propsAt c1 (i :: q)).
      { destruct (isTag "A" c); [|done]. cbn [fst]. unfold propsAt, setAttribute.
        by rewrite nodeAt_setProps. }
      rewrite Hq, H. destruct (nodeAt c (i :: q)) as [n|]; [|done].
      cbn [fmap option_fmap option_map]. unfold labelledProps.
      by rewrite bool_decide_eq_true_2 by done.
Qed.

Lemma labelNavDepth_props t : forall d u q,
  propsAt (labelNavDepth_ t d u).1 q = labelledProps t d u q <$> nodeAt t q.
Proof.
  induction t as [p cs IH] using node_ind'. intros d u q.
  rewrite labelNavDepth_unfold, labelChildren_fst. cbn [fst].
  destruct q as [|i q].
  - unfold propsAt, labelledProps. cbn [nodeAt fmap option_fmap option_map nprops].
    by rewrite bool_decide_eq_false_2 by (intros H; by apply H).
  - unfold propsAt. rewrite !nodeAt_cons, list_lookup_fmap.
    destruct (cs !! i) as [c|] eqn:Hc; [|done].
    cbn [fmap option_fmap option_map mbind option_bind].
    fold (propsAt (labelChild labelNavDepth_ d u c).1 q).
    rewrite labelChild_props by (eapply Forall_lookup_1 in IH; eauto).
    destruct (nodeAt c q) as [n|]; [|done].
    cbn [fmap option_fmap option_map]. unfold labelledProps.
    rewrite bool_decide_eq_true_2 by done. cbn [andb listNesting childNodes].
    by rewrite Hc.
Qed.

Lemma textContent_setProps f n :
  (forall p, nodeType (f p) = nodeType p) -> (forall p, data (f p) = data p) ->
  textContent (setProps f n) = textContent n.
Proof. intros Ht Hd. destruct n as [p cs]. cbn. by rewrite Ht, Hd. Qed.

Lemma textContent_setAttribute k v n :
  textContent (setAttribute k v n) = textContent n.
Proof. by apply textContent_setProps. Qed.

Lemma labelChild_text d u c :
  (forall d u, textContent (labelNavDepth_ c d u).1 = textContent c) ->
  textContent (labelChild labelNavDepth_ d u c).1 = textContent c
  /\ nodeType (nprops (labelChild labelNavDepth_ d u c).1) = nodeType (nprops c).
Proof.
  intros IH. unfold labelChild. destruct (isTag "UL" c).
  - by rewrite IH, nprops_labelNavDepth.
  - pose proof (IH d u) as H. pose proof (nprops_labelNavDepth c d u) as Hp.
    destruct (labelNavDepth_ c d u) as [c1 s1]. cbn [fst] in H, Hp.
    destruct (isTag "A" c); cbn [fst].
    + rewrite textContent_setAttribute. split; [done|].
      destruct c1, c. cbn in *. by rewrite Hp.
    + by rewrite Hp.
Qed.

Lemma labelNavDepth_text t : forall d u,
  textContent (labelNavDepth_ t d u).1 = textContent t.
Proof.
  induction t as [p cs IH] using node_ind'. intros d u.
  rewrite labelNavDepth_unfold, labelChildren_fst. cbn [fst textContent].
  destruct (nodeType p); try done.
  all: induction IH as [|c r Hc _ IHr]; [done|].
  all: cbn [map textOfChildren].
  all: destruct (labelChild_text d u c Hc) as [-> ->]; by rewrite IHr.
Qed.

(** X2.  Labelling writes levels and nothing else: every node of the
    section is where it was, a node named A below the section has its
    properties with the level stored, every other node has the properties
    it had, and the text of the section is unchanged. *)
Theorem labelNavDepth_touches_levels_only (t : node) (d : nat) (u : bool) :
  (forall q, propsAt (labelNavDepth_ t d u).1 q
             = labelledProps t d u q <$> nodeAt t q) /\
  textContent (labelNavDepth_ t d u).1 = textContent t.
Proof. split; [intros q; apply labelNavDepth_props|apply labelNavDepth_text]. Qed.


(** ** The id of a parent *)

Lemma prefix_app a b : String.prefix a (a +:+ b) = true.
Proof.
  induction a as [|c a IH]; [by destruct b|].
  change (String c a +:+ b) with (String c (a +:+ b)). cbn [String.prefix].
  by destruct (ascii_dec c c).
Qed.

Lemma parentIdFor_prefix id : String.prefix "PageSpeed-" (parentIdFor id) = true.
Proof.
  unfold parentIdFor. destruct (matchesPageSpeedId id) eqn:Hm;
    [|apply (prefix_app "PageSpeed-")].
  unfold matchesPageSpeedId in Hm.
  destruct (beforeNumericSuffix id) as [pre|]; [|done].
  apply andb_prop in Hm as [Hm _]. exact Hm.
Qed.

Lemma prefix_not_inherited s :
  String.prefix "PageSpeed-" s = true -> inherited s = false.
Proof.
  intros H. unfold inherited. apply bool_decide_eq_false_2. intros Hin.
  unfold objectPrototypeKeys in Hin.
  repeat (apply elem_of_cons in Hin as [->|Hin]; [discriminate H|]).
  by apply elem_of_nil in Hin.
Qed.

(** X3.  The id made up for a parent that has none always starts with
    PageSpeed-: it is never empty, and never the name of a member of
    [Object.prototype]. *)
Theorem parentIdFor_is_PageSpeed_id (elementId : string) :
  JS.startsWith (parentIdFor elementId) "PageSpeed-" = true /\
  parentIdFor elementId <> "" /\
  inherited (parentIdFor elementId) = false.
Proof.
  pose proof (parentIdFor_prefix elementId) as H. split; [exact H|]. split.
  - intros Heq. by rewrite Heq in H.
  - by apply prefix_not_inherited.
Qed.

Lemma list_ascii_app a b :
  list_ascii_of_string (a +:+ b) = list_ascii_of_string a ++ list_ascii_of_string b.
Proof.
  induction a as [|c a IH]; [done|].
  change (String c a +:+ b) with (String c (a +:+ b)).
  cbn [list_ascii_of_string app]. by rewrite IH.
Qed.

Lemma span_run f (ds : list ascii) c r :
  forallb f ds = true -> f c = false ->
  span f (ds ++ c :: r) = (ds, c :: r).
Proof.
  intros Hds Hc. induction ds as [|d ds IH]; cbn [app span].
  - by rewrite Hc.
  - cbn [forallb] in Hds. apply andb_prop in Hds as [Hd Hds].
    by rewrite Hd, IH.
Qed.

Lemma forallb_rev {A} (f : A -> bool) (l : list A) :
  forallb f (rev l) = forallb f l.
Proof.
  induction l as [|x l IH]; [done|]. cbn [rev forallb].
  rewrite forallb_app, IH. cbn [forallb]. rewrite andb_true_r. apply andb_comm.
Qed.

Lemma beforeNumericSuffix_cut pre ds :
  ds <> "" -> forallb isDigit (list_ascii_of_string ds) = true ->
  beforeNumericSuffix (pre +:+ "-" +:+ ds) = Some pre.
Proof.
  intros Hne Hds. unfold beforeNumericSuffix.
  rewrite !list_ascii_app, !rev_app_distr. cbn [list_ascii_of_string rev app].
  rewrite <- app_assoc. cbn [app].
  rewrite span_run; [|by rewrite forallb_rev|reflexivity].
  destruct (rev (list_ascii_of_string ds)) eqn:Hr.
  - destruct ds; [done|]. cbn in Hr. by destruct (rev (list_ascii_of_string ds)).
  - by rewrite rev_involutive, string_of_list_ascii_of_string.
Qed.

Lemma substring_all s : forall m, String.length s <= m -> substring 0 m s = s.
Proof.
  induction s as [|c s IH]; intros m Hm; [by destruct m|].
  destruct m as [|m]; cbn in Hm; [lia|]. cbn. rewrite IH; [done|lia].
Qed.

Lemma span_app f (l : list ascii) : (span f l).1 ++ (span f l).2 = l.
Proof.
  induction l as [|c l IH]; [done|]. cbn [span].
  destruct (f c); [|done]. destruct (span f l) as [a b]. cbn in *. by rewrite IH.
Qed.

Lemma string_of_list_ascii_app a b :
  string_of_list_ascii (a ++ b) = string_of_list_ascii a +:+ string_of_list_ascii b.
Proof. induction a as [|c a IH]; [done|]. cbn [app string_of_list_ascii]. by rewrite IH. Qed.

Lemma beforeNumericSuffix_prefix id pre :
  beforeNumericSuffix id = Some pre -> exists rest, id = pre +:+ rest.
Proof.
  unfold beforeNumericSuffix. intros H.
  pose proof (span_app isDigit (rev (list_ascii_of_string id))) as Hs.
  destruct (span isDigit (rev (list_ascii_of_string id))) as [digits rest].
  cbn [fst snd] in Hs. destruct digits as [|d ds]; [done|].
  destruct rest as [|c r]; [done|].
  destruct (Ascii.eqb_spec c "-"%char) as [->|Hne].
  2:{ exfalso. revert H.
      destruct c as [[] [] [] [] [] [] [] []]; try done. }
  injection H as <-.
  assert (Hid : list_ascii_of_string id = rev r ++ ("-"%char :: rev (d :: ds))).
  { rewrite <- (rev_involutive (list_ascii_of_string id)), <- Hs, rev_app_distr.
    change (rev ("-"%char :: r)) with (rev r ++ ["-"%char]).
    by rewrite <- app_assoc. }
  exists (string_of_list_ascii ("-"%char :: rev (d :: ds))).
  by rewrite <- string_of_list_ascii_app, <- Hid, string_of_list_ascii_of_string.
Qed.

Lemma prefix_app_r a : forall b c,
  String.prefix a b = true -> String.prefix a (b +:+ c) = true.
Proof.
  induction a as [|x a IH]; intros b c H; [by destruct (b +:+ c)|].
  destruct b as [|y b]; [done|].
  change (String y b +:+ c) with (String y (b +:+ c)). cbn [String.prefix] in *.
  destruct (ascii_dec x y); [|done]. by apply IH.
Qed.

Lemma matchesPageSpeedId_prefix id :
  matchesPageSpeedId id = true -> String.prefix "PageSpeed-" id = true.
Proof.
  unfold matchesPageSpeedId. destruct (beforeNumericSuffix id) as [pre|] eqn:Hb; [|done].
  intros H. apply andb_prop in H as [H _].
  apply beforeNumericSuffix_prefix in Hb as [rest ->]. by apply prefix_app_r.
Qed.

Lemma parentIdFor_cut (stem digits : string) :
  digits <> "" ->
  forallb isDigit (list_ascii_of_string digits) = true ->
  existsb isLineTerminator (list_ascii_of_string stem) = false ->
  parentIdFor ("PageSpeed-" +:+ stem +:+ "-" +:+ digits) = "PageSpeed-" +:+ stem.
Proof.
  intros Hne Hds Hlt. unfold parentIdFor, matchesPageSpeedId.
  change ("PageSpeed-" +:+ stem +:+ "-" +:+ digits)
    with (("PageSpeed-" +:+ stem) +:+ "-" +:+ digits).
  rewrite beforeNumericSuffix_cut by done.
  rewrite (prefix_app "PageSpeed-"). cbn [andb default].
  change (substring 10 (String.length ("PageSpeed-" +:+ stem)) ("PageSpeed-" +:+ stem))
    with (substring 0 (10 + String.length stem) stem).
  rewrite substring_all by lia. by rewrite Hlt.
Qed.

(** X4.  The id made up for the parent, by the shape of the id of the
    element.  An id PageSpeed-stem-digits, with a stem free of line breaks,
    gives PageSpeed-stem: the numeric suffix is cut.  An id that does not
    start with PageSpeed- is wrapped into PageSpeed-id-P. *)
Theorem parentIdFor_by_shape (elementId stem digits : string) :
  (digits <> "" ->
   forallb isDigit (list_ascii_of_string digits) = true ->
   existsb isLineTerminator (list_ascii_of_string stem) = false ->
   parentIdFor ("PageSpeed-" +:+ stem +:+ "-" +:+ digits) = "PageSpeed-" +:+ stem) /\
  (String.prefix "PageSpeed-" elementId = false ->
   parentIdFor elementId = "PageSpeed-" +:+ elementId +:+ "-P").
Proof.
  split; [apply parentIdFor_cut|].
  intros Hpre. unfold parentIdFor.
  destruct (matchesPageSpeedId elementId) eqn:Hm; [|reflexivity].
  apply matchesPageSpeedId_prefix in Hm. congruence.
Qed.

Lemma parentIdFor_by_shape_witness :
  parentIdFor "PageSpeed-nav-12" = "PageSpeed-nav" /\
  parentIdFor "main" = "PageSpeed-main-P".
Proof.
  split.
  - apply (proj1 (parentIdFor_by_shape "main" "nav" "12"));
      [discriminate|reflexivity..].
  - apply (proj2 (parentIdFor_by_shape "main" "nav" "12")). reflexivity.
Defined.


(** ** What discovery leaves *)
Lemma onlyIdsAdded_refl doc : onlyIdsAdded doc doc.
Proof. intros q. by left. Qed.

Lemma idAt_propsAt doc q :
  idAt doc q = default "" (propsAt doc q ≫= fun p => lookupAttr "id" (attrs p)).
Proof. unfold idAt, propsAt, idOf, getAttribute. by destruct (nodeAt doc q). Qed.

Lemma propsAt_None t q : propsAt t q = None <-> nodeAt t q = None.
Proof. unfold propsAt. by destruct (nodeAt t q). Qed.

Lemma onlyIdsAdded_trans a b c :
  onlyIdsAdded a b -> onlyIdsAdded b c -> onlyIdsAdded a c.
Proof.
  intros Hab Hbc q. destruct (Hbc q) as [Hc|(Hid & id & Hne & Hc)].
  - rewrite Hc. apply Hab.
  - destruct (Hab q) as [Hb|(Hid' & id' & Hne' & Hb)].
    + right. rewrite idAt_propsAt, <- Hb, <- idAt_propsAt. split; [done|].
      exists id. split; [done|]. rewrite Hc.
      unfold propsAt in Hb. destruct (nodeAt b q) as [nb|], (nodeAt a q) as [na|];
        try done. cbn in *. injection Hb as Hb. f_equal.
      destruct nb, na. cbn in *. by rewrite Hb.
    + destruct (nodeAt a q) as [[pa ca]|] eqn:Ha.
      * exfalso. rewrite idAt_propsAt, Hb in Hid. cbn in Hid.
        rewrite lookupAttr_storeAttr in Hid. done.
      * left. cbn in Hb. apply propsAt_None in Hb. rewrite Hb in Hc.
        rewrite Hc. symmetry. by apply propsAt_None.
Qed.

Lemma onlyIdsAdded_step doc parent id :
  idAt doc parent = "" -> id <> "" ->
  onlyIdsAdded doc (updateAt (setAttribute "id" id) parent doc).
Proof.
  intros Hid Hne q. unfold setAttribute.
  rewrite (propsAt_updateAt (fun p => withAttrs (storeAttr "id" id (attrs p)) p)).
  destruct (decide (q = parent)) as [->|Hq]; [|by left].
  right. split; [done|]. exists id. split; [done|].
  unfold propsAt. by destruct (nodeAt doc parent) as [[]|].
Qed.

Lemma valid_onlyIdsAdded doc doc' q :
  onlyIdsAdded doc doc' -> valid doc q -> valid doc' q.
Proof.
  intros H [n Hn]. unfold valid.
  destruct (H q) as [Hq|(_ & id & _ & Hq)]; unfold propsAt in Hq; rewrite Hn in Hq;
    (destruct (nodeAt doc' q); [by eexists|done]).
Qed.

Lemma nodeAt_app t a b : nodeAt t (a ++ b) = nodeAt t a ≫= fun n => nodeAt n b.
Proof.
  revert t. induction a as [|i a IH]; intros t; [done|].
  destruct t as [p cs]. cbn [app]. rewrite !nodeAt_cons.
  destruct (cs !! i) as [c|]; [|done]. cbn. apply IH.
Qed.

Lemma valid_parentNode doc q parent :
  valid doc q -> parentNode q = Some parent -> valid doc parent.
Proof.
  intros [n Hn] Hp. destruct q as [|i q]; [done|].
  assert (Hpar : removelast (i :: q) = parent) by (unfold parentNode in Hp; congruence).
  rewrite (app_removelast_last 0 (l := i :: q)) in Hn by done.
  rewrite Hpar, nodeAt_app in Hn. unfold valid.
  destruct (nodeAt doc parent); [by eexists|done].
Qed.

Lemma lookupElement_valid doc id element :
  lookupElement doc id = Some element -> valid doc element.
Proof.
  unfold lookupElement, getElementById, querySelectorId. intros H.
  assert (exists f, element ∈ select f doc) as [f Hf].
  { destruct (String.eqb id "").
    - eexists. apply head_Some_elem_of. exact H.
    - destruct (head (select (hasId id) doc)) eqn:Hh.
      + injection H as ->. eexists. apply head_Some_elem_of. exact Hh.
      + eexists. apply head_Some_elem_of. exact H. }
  apply select_sound in Hf as (_ & n & Hn & _). by exists n.
Qed.

Lemma discoverId_step doc parents elements id :
  let st' := leftBy (discoverId (doc, parents, elements) id) in
  onlyIdsAdded doc st'.1.1 /\
  (st'.2 = elements \/ exists q, st'.2 = elements ++ [q] /\ valid st'.1.1 q).
Proof.
  unfold discoverId. destruct (lookupElement doc id) as [element|] eqn:Hl.
  2:{ cbn. split; [apply onlyIdsAdded_refl|by left]. }
  apply lookupElement_valid in Hl.
  destruct (parentNode element) as [parent|] eqn:Hp.
  2:{ cbn. split; [apply onlyIdsAdded_refl|]. right. eauto. }
  set (doc' := if String.eqb (idAt doc parent) "" then _ else doc).
  assert (Hdoc : onlyIdsAdded doc doc').
  { unfold doc'. destruct (String.eqb_spec (idAt doc parent) "");
      [|apply onlyIdsAdded_refl].
    apply onlyIdsAdded_step; [done|].
    intros Heq. pose proof (parentIdFor_prefix (idAt doc element)) as Hpre.
    by rewrite Heq in Hpre. }
  assert (He : valid doc' element) by (by apply (valid_onlyIdsAdded doc)).
  assert (Hpar : valid doc' parent) by (by apply (valid_parentNode doc' element)).
  destruct (negb (jsIn (idAt doc' parent) parents)).
  - cbn. split; [done|]. right.
    destruct (jsTruthy _ _); eauto.
  - destruct (negb (jsTruthy (idAt doc' parent) parents)); cbn.
    + split; [done|]. right. eauto.
    + split; [done|]. by left.
Qed.

Lemma discoverIds_inv ids : forall doc parents elements,
  let st' := leftBy (discoverIds (doc, parents, elements) ids) in
  onlyIdsAdded doc st'.1.1 /\
  length st'.2 <= length elements + length ids /\
  (Forall (valid doc) elements -> Forall (valid st'.1.1) st'.2).
Proof.
  induction ids as [|id rest IH]; intros doc parents elements.
  - cbn. split; [apply onlyIdsAdded_refl|]. split; [lia|done].
  - cbn [discoverIds].
    pose proof (discoverId_step doc parents elements id) as [Hdoc Hel].
    destruct (discoverId (doc, parents, elements) id) as [[[doc1 par1] el1]|[[doc1 par1] el1]];
      cbn [leftBy fst snd] in Hdoc, Hel.
    + specialize (IH doc1 par1 el1). cbn zeta in IH.
      destruct IH as (Hdoc' & Hlen & Hval).
      split; [by apply (onlyIdsAdded_trans doc doc1)|]. split.
      * cbn [length]. destruct Hel as [->|(q & -> & _)]; [lia|].
        rewrite length_app in Hlen. cbn [length] in Hlen. lia.
      * intros Hv. apply Hval.
        assert (Hv1 : Forall (valid doc1) elements).
        { eapply Forall_impl; [exact Hv|]. intros q.
          by apply valid_onlyIdsAdded. }
        destruct Hel as [->|(q & -> & Hq)]; [done|].
        apply Forall_app. split; [done|]. by apply Forall_singleton.
    + cbn [leftBy fst snd]. split; [done|]. split.
      * cbn [length]. destruct Hel as [->|(q & -> & _)]; [lia|].
        rewrite length_app. cbn [length]. lia.
      * intros Hv.
        assert (Hv1 : Forall (valid doc1) elements).
        { eapply Forall_impl; [exact Hv|]. intros q.
          by apply valid_onlyIdsAdded. }
        destruct Hel as [->|(q & -> & Hq)]; [done|].
        apply Forall_app. split; [done|]. by apply Forall_singleton.
Qed.

(** X5.  Without an explicit panel, discovery changes nothing on the page but
    the ids of elements that had none: every node is where it was, with the
    properties it had, except that the parent of a navigational element may
    have been given an id, and only when its id was empty.  This holds
    however the run ends. *)
Theorem findNavSections_adds_ids_only
    (E : Env) (ids : option (list string)) (doc : node) (this : MobNav) :
  getElementById doc (NAV_PANEL E) = None ->
  onlyIdsAdded doc (leftBy (findNavSections_ E ids doc this)).1.
Proof.
  intros Hpanel. unfold findNavSections_. rewrite Hpanel.
  destruct ids as [ids|]; [|apply onlyIdsAdded_refl].
  pose proof (discoverIds_inv ids doc ∅ []) as (H & _).
  by destruct (discoverIds (doc, ∅, []) ids) as [[[d p] e]|[[d p] e]].
Qed.

Lemma findNavSections_adds_ids_only_witness :
  onlyIdsAdded twoNavPage
    (leftBy (findNavSections_ sampleEnv (Some ["main"; "foot"]) twoNavPage
               newMobNav)).1.
Proof. apply findNavSections_adds_ids_only. reflexivity. Defined.

(** X6.  When discovery returns, it has recorded at most one section for each
    id, none on a page that has the panel and none without the list of ids,
    and every section it has recorded is a node of the page as the run
    leaves it. *)
Theorem findNavSections_sections_exist
    (E : Env) (ids : option (list string)) (doc doc' : node)
    (this this' : MobNav) :
  findNavSections_ E ids doc this = Done (doc', this') ->
  length (navSections_ this') <=
    match getElementById doc (NAV_PANEL E) with
    | Some _ => 0
    | None => length (default [] ids)
    end /\
  Forall (valid doc') (navSections_ this').
Proof.
  unfold findNavSections_. destruct (getElementById doc (NAV_PANEL E)) as [panel|].
  - destruct (body doc) as [b|]; [|done].
    destruct (appendChild doc b panel) as [[d p]|]; [|done].
    intros [= <- <-]. cbn. split; [lia|done].
  - destruct ids as [ids|]; [|intros [= <- <-]; cbn; split; [lia|done]].
    pose proof (discoverIds_inv ids doc ∅ []) as (_ & Hlen & Hval).
    destruct (discoverIds (doc, ∅, []) ids) as [[[d p] e]|[[d p] e]]; [|done].
    intros [= <- <-]. cbn in *. split; [lia|]. by apply Hval.
Qed.

Lemma findNavSections_sections_exist_witness :
  length (navSections_ (withNavSections [[0; 1; 0]; [0; 1; 1]]
                          (withNavPanel None newMobNav))) <= 2.
Proof.
  refine (proj1 (findNavSections_sections_exist sampleEnv (Some ["main"; "foot"])
                   twoNavPage _ newMobNav _ _)).
  vm_compute. reflexivity.
Defined.


(** ** The enlarge heuristic again *)
Lemma hasImages_visible_any n : hasImages_ true n = true -> hasImages_ false n = true.
Proof.
  unfold hasImages_. destruct (negb (isElement n)); [done|].
  destruct (isTag "IMG" n); [done|]. cbn [negb].
  destruct (getElementsByTagName n "IMG") as [|q l]; [done|]. done.
Qed.

Lemma enlargeLoop_shown_candidate idx : forall l k s pre pre',
  pre' <= pre ->
  enlargeLoop false idx k s pre l = true ->
  enlargeLoop true idx k s pre' l = true.
Proof.
  induction l as [|child rest IH]; intros k s pre pre' Hpre; [done|].
  cbn [enlargeLoop]. destruct (k =? idx)%nat; [by apply IH|].
  rewrite andb_false_r, andb_true_r.
  destruct (offsetParentIsNull child).
  - destruct (negb (isText child) && negb (isElement child)); [by apply IH|].
    destruct (hasImages_ false child); [done|].
    destruct (0 <? textSize child)%nat; [|by apply IH].
    destruct s; [done|].
    destruct (60 <? pre + textSize child)%nat; [done|]. apply IH. lia.
  - destruct (negb (isText child) && negb (isElement child)); [by apply IH|].
    destruct (hasImages_ false child) eqn:Hi; [done|].
    destruct (hasImages_ true child) eqn:Hi'.
    { apply hasImages_visible_any in Hi'. congruence. }
    destruct (0 <? textSize child)%nat; [|by apply IH].
    destruct s; [done|].
    destruct (60 <? pre + textSize child)%nat eqn:H60; [done|].
    apply Nat.ltb_ge in H60.
    replace (60 <? pre' + textSize child)%nat with false
      by (symmetry; apply Nat.ltb_ge; lia).
    apply IH. lia.
Qed.

Lemma enlargeLoop_alter_candidate vis idx g : forall l k s pre,
  k <= idx ->
  enlargeLoop vis idx k s pre (alter g (idx - k) l) = enlargeLoop vis idx k s pre l.
Proof.
  induction l as [|child rest IH]; intros k s pre Hk; [done|].
  destruct (decide (k = idx)) as [->|Hne].
  - rewrite Nat.sub_diag. cbn [alter list_alter enlargeLoop].
    by rewrite Nat.eqb_refl.
  - replace (idx - k) with (S (idx - S k)) by lia.
    cbn [alter list_alter enlargeLoop].
    replace (k =? idx)%nat with false by (symmetry; apply Nat.eqb_neq; lia).
    fold (alter g (idx - S k) rest).
    rewrite !IH by lia. reflexivity.
Qed.


Lemma nodeAt_updateAt_parent f i : forall q t,
  nodeAt (updateAt f (q ++ [i]) t) q =
  (fun n => Node (nprops n) (alter f i (childNodes n))) <$> nodeAt t q.
Proof.
  induction q as [|j q IH]; intros [p cs].
  - reflexivity.
  - cbn [app]. rewrite updateAt_cons, !nodeAt_cons, list_lookup_alter_eq.
    destruct (cs !! j) as [c|]; [|done]. cbn. apply IH.
Qed.

Lemma path_snoc (q : path) : q <> [] -> q = removelast q ++ [childIndex q].
Proof. intros H. by apply app_removelast_last. Qed.

Lemma weight_setProps f g c :
  (forall n, f (setProps g n) = f n) -> weight f (setProps g c) = weight f c.
Proof.
  intros Hf. unfold weight. rewrite Hf. destruct c as [p cs].
  cbn [setProps]. by rewrite !select_unfold.
Qed.

Lemma canEnlargeIn_shown parent idx :
  canEnlargeIn parent idx = true ->
  canEnlargeIn (Node (nprops parent) (alter shown idx (childNodes parent))) idx = true.
Proof.
  destruct parent as [p cs]. unfold canEnlargeIn. cbn [childNodes nprops].
  rewrite list_lookup_alter_eq.
  destruct (cs !! idx) as [element|] eqn:He; [|done].
  cbn [fmap option_fmap option_map].
  unfold getElementsByTagName. rewrite !length_select.
  pose proof (list_sum_alter (weight (isNamed "SCRIPT")) shown cs idx element He) as Hsum.
  unfold shown in Hsum at 2.
  rewrite (weight_setProps (isNamed "SCRIPT")) in Hsum
    by (intros [[] ?]; reflexivity).
  replace (list_sum (map (weight (isNamed "SCRIPT")) (alter shown idx cs)))
    with (list_sum (map (weight (isNamed "SCRIPT")) cs)) by lia.
  destruct (0 <? _)%nat; [done|].
  intros H. replace idx with (idx - 0) at 2 by lia.
  rewrite enlargeLoop_alter_candidate by lia.
  replace (negb (offsetParentIsNull (shown element))) with true
    by (by destruct element as [[] ?]).
  destruct (negb (offsetParentIsNull element)); [done|].
  by apply (enlargeLoop_shown_candidate idx _ 0 false 0 0).
Qed.

(** X7.  Showing the candidate never turns a yes into a no: when the
    heuristic enlarges an element, it enlarges it as well on the page that
    differs in nothing but the element being laid out. *)
Theorem canEnlargeNav_shown_candidate (doc : node) (element : path) :
  canEnlargeNav_ doc element = true ->
  canEnlargeNav_ (updateAt shown element doc) element = true.
Proof.
  unfold canEnlargeNav_. destruct (parentNode element) as [parent|] eqn:Hp; [|done].
  assert (Hel : element = parent ++ [childIndex element]).
  { destruct element as [|i q]; [done|]. injection Hp as <-. by apply path_snoc. }
  replace (updateAt shown element doc)
    with (updateAt shown (parent ++ [childIndex element]) doc)
    by (by rewrite <- Hel).
  rewrite nodeAt_updateAt_parent.
  destruct (nodeAt doc parent) as [parentNd|]; [|done].
  cbn [fmap option_fmap option_map]. apply canEnlargeIn_shown.
Qed.

Lemma canEnlargeNav_shown_candidate_witness :
  canEnlargeNav_ (updateAt shown [0; 1; 0; 0] hiddenNotePage) [0; 1; 0; 0] = true.
Proof. apply canEnlargeNav_shown_candidate. reflexivity. Defined.




(** ** The pre-pass again *)

Lemma body_isElement doc b bodyNd :
  body doc = Some b -> nodeAt doc b = Some bodyNd -> isElement bodyNd = true.
Proof.
  intros H Hn. apply body_elim in H as (h & html & j & bn & -> & H1 & _ & H3).
  apply list_find_Some in H1 as (H1 & _). apply list_find_Some in H3 as (H3 & Hb & _).
  destruct doc as [pd ds], html as [ph hs]. cbn [childNodes] in H1, H3.
  rewrite nodeAt_cons, H1 in Hn. cbn [mbind option_bind] in Hn.
  rewrite nodeAt_cons, H3 in Hn. cbn in Hn. injection Hn as <-.
  unfold isBody in Hb. apply Is_true_true in Hb. by apply andb_prop in Hb as [Hb _].
Qed.

Lemma reached_isElement E : forall q element,
  isElement element = true -> reached E element q = true ->
  exists n, nodeAt element q = Some n /\ isElement n = true.
Proof.
  induction q as [|i q IH]; intros element He Hr.
  - by exists element.
  - destruct element as [p cs]. cbn [reached childNodes] in Hr.
    apply andb_prop in Hr as [_ Hr]. rewrite nodeAt_cons.
    destruct (cs !! i) as [c|]; [|done]. apply andb_prop in Hr as [Hc Hr].
    cbn. by apply IH.
Qed.

(** X9.  The pre-pass only adds to the set, whether it returns or raises,
    and what it adds are elements of the page, the body or elements below
    it: what was tracked stays tracked, nothing else of the object changes,
    and a second pre-pass on the same page adds nothing. *)
Theorem findElementsToOffset_only_adds (E : Env) (doc : node) (this : MobNav) :
  let this' := leftBy (findElementsToOffset_ E doc this) in
  elementsToOffset_ this ⊆ elementsToOffset_ this' /\
  (forall p, p ∈ elementsToOffset_ this' -> p ∉ elementsToOffset_ this ->
     exists b q n, body doc = Some b /\ p = b ++ q /\
                   nodeAt doc p = Some n /\ isElement n = true) /\
  navSections_ this' = navSections_ this /\
  navPanel_ this' = navPanel_ this /\
  headerBar_ this' = headerBar_ this /\
  headerBarHeight_ this' = headerBarHeight_ this /\
  redrawNavCalled_ this' = redrawNavCalled_ this /\
  leftBy (findElementsToOffset_ E doc this') = this'.
Proof.
  unfold findElementsToOffset_. destruct (body doc) as [b|] eqn:Hb.
  2:{ cbn. split; [done|]. split; [by intros p Hp Hold|]. done. }
  destruct (nodeAt doc b) as [bodyNd|] eqn:Hn.
  2:{ cbn. split; [done|]. split; [by intros p Hp Hold|]. done. }
  pose proof (helper_tracked E bodyNd false) as Hsound.
  assert (Hleft : forall r : result (list path),
            leftBy (match r with
                    | Done added =>
                        Done (withOffsets (list_to_set (map (app b) added)) this)
                    | TypeError added =>
                        TypeError (withOffsets (list_to_set (map (app b) added)) this)
                    end)
            = withOffsets (list_to_set (map (app b) (leftBy r))) this)
    by (by intros []).
  rewrite Hleft.
  set (added := leftBy (findElementsToOffsetHelper_ E bodyNd false)) in *.
  cbn [withOffsets elementsToOffset_ navSections_ navPanel_ headerBar_
       headerBarHeight_ redrawNavCalled_].
  split; [apply union_subseteq_l|]. split.
  - intros p Hp Hold. apply elem_of_union in Hp as [Hp|Hp]; [done|].
    apply elem_of_list_to_set, list_elem_of_fmap in Hp as (q & -> & Hq).
    apply list_elem_of_In, Hsound in Hq. unfold tracked in Hq.
    apply andb_prop in Hq as [Hr _].
    destruct (reached_isElement E q bodyNd) as (n & Hqn & He);
      [by apply (body_isElement doc b)|done|].
    exists b, q, n. split; [done|]. split; [done|]. split; [|done].
    by rewrite nodeAt_app, Hn.
  - do 5 (split; [done|]).
    assert (Hleft' : forall (r : result (list path)) this0,
            leftBy (match r with
                    | Done added =>
                        Done (withOffsets (list_to_set (map (app b) added)) this0)
                    | TypeError added =>
                        TypeError (withOffsets (list_to_set (map (app b) added)) this0)
                    end)
            = withOffsets (list_to_set (map (app b) (leftBy r))) this0)
      by (by intros []).
    rewrite Hleft'. fold added. unfold withOffsets.
    cbn [elementsToOffset_ navSections_ navPanel_ headerBar_
         headerBarHeight_ redrawNavCalled_]. f_equal.
    rewrite <- (assoc_L (∪)). by rewrite (idemp_L (∪)).
Qed.

Lemma findElementsToOffset_only_adds_witness :
  exists b q n,
    body bannerPage = Some b /\ [0; 1; 0] = b ++ q /\
    nodeAt bannerPage [0; 1; 0] = Some n /\ isElement n = true.
Proof.
  apply (proj1 (proj2 (findElementsToOffset_only_adds sampleEnv bannerPage
                         newMobNav)) [0; 1; 0]).
  - apply (bool_decide_eq_true_1 _). vm_compute. reflexivity.
  - apply not_elem_of_empty.
Defined.


(** ** Redraws in a row *)

Lemma substring_app_suffix a b : substring (String.length a) (String.length b) (a +:+ b) = b.
Proof.
  induction a as [|c a IH]; [|exact IH].
  cbn [String.length]. change ("" +:+ b) with b. apply substring_all. lia.
Qed.

Lemma substring_app_prefix a b : substring 0 (String.length a) (a +:+ b) = a.
Proof.
  induction a as [|c a IH]; [by destruct b|].
  change (String c a +:+ b) with (String c (a +:+ b)). cbn. by rewrite IH.
Qed.

Lemma length_append a b : String.length (a +:+ b) = String.length a + String.length b.
Proof.
  induction a as [|c a IH]; [done|].
  change (String c a +:+ b) with (String c (a +:+ b)). cbn. by rewrite IH.
Qed.

Lemma to_little_uint_nonnil n : forall acc,
  acc <> Decimal.Nil -> Nat.to_little_uint n acc <> Decimal.Nil.
Proof.
  induction n as [|n IH]; intros acc Hacc; [done|].
  cbn [Nat.to_little_uint]. apply IH. by destruct acc.
Qed.

Lemma ofNat_digits n :
  exists c r, JS.ofNat n = String c r /\ c <> "-"%char
              /\ NilEmpty.uint_of_string (JS.ofNat n) = Some (Nat.to_uint n).
Proof.
  unfold JS.ofNat. pose proof (NilEmpty.usu (Nat.to_uint n)) as Hu.
  destruct (Nat.to_uint n) as [|d|d|d|d|d|d|d|d|d|d] eqn:Hn.
  { exfalso. unfold Nat.to_uint in Hn. apply DecimalFacts.rev_nil_inv in Hn.
    revert Hn. by apply to_little_uint_nonnil. }
  all: cbn [NilEmpty.string_of_uint]; do 2 eexists; (split; [reflexivity|]).
  all: split; [discriminate|exact Hu].
Qed.

Lemma samplePixelValue_px z : samplePixelValue (JS.ofZ z +:+ "px") = Some z.
Proof.
  unfold samplePixelValue. rewrite length_append.
  replace (String.length (JS.ofZ z) + String.length "px" - 2)
    with (String.length (JS.ofZ z)) by (cbn; lia).
  pose proof (substring_app_suffix (JS.ofZ z) "px") as Hpx.
  cbn [String.length] in Hpx. rewrite Hpx. clear Hpx. cbn [String.eqb Ascii.eqb Bool.eqb].
  rewrite substring_app_prefix.
  destruct z as [|p|p]; cbn [JS.ofZ].
  - reflexivity.
  - destruct (ofNat_digits (Pos.to_nat p)) as (c & r & Heq & Hc & Hu).
    rewrite Heq in *.
    transitivity ((fun u => Z.of_nat (Nat.of_uint u)) <$>
                  NilEmpty.uint_of_string (String c r)).
    { clear Hu Heq. destruct c as [[] [] [] [] [] [] [] []]; try reflexivity. done. }
    rewrite Hu. cbn [fmap option_fmap option_map].
    by rewrite DecimalNat.Unsigned.of_to, positive_nat_Z.
  - destruct (ofNat_digits (Pos.to_nat p)) as (c & r & Heq & Hc & Hu).
    change ("-" +:+ JS.ofNat (Pos.to_nat p)) with (String "-" (JS.ofNat (Pos.to_nat p))).
    cbv iota beta. rewrite Hu, Heq. cbn [fmap option_fmap option_map].
    rewrite DecimalNat.Unsigned.of_to, positive_nat_Z. reflexivity.
Qed.
Lemma scrolledBy_app a b : scrolledBy (a ++ b) = (scrolledBy a + scrolledBy b)%Z.
Proof.
  unfold scrolledBy. induction a as [|x a IH]; cbn [app map foldr]; [lia|].
  rewrite IH. lia.
Qed.

Lemma last_default {A} (x : A) (r : list A) (d d' : A) :
  List.last (x :: r) d = List.last (x :: r) d'.
Proof.
  revert x. induction r as [|y r IH]; intros x; [done|].
  change (List.last (y :: r) d = List.last (y :: r) d'). apply IH.
Qed.

Lemma redraws_later E (h p : path) (el : props) (start : Z) measured :
  forall doc this scrolls height,
  cssPosition el <> "static" ->
  pixelValue E (cssTop el) <> None ->
  (forall z, pixelValue E (JS.ofZ z +:+ "px") = Some z) ->
  Forall (fun m => (0 <= m.2)%Z) measured ->
  headerBar_ this = Some h -> redrawNavCalled_ this = true ->
  headerBarHeight_ this = height -> (0 <= height)%Z ->
  p ∈ elementsToOffset_ this ->
  propsAt doc p = Some (withStyleTop (JS.ofZ (rectTop el + height) +:+ "px") el) ->
  let final := (List.last measured (0, height)%Z).2 in
  let after := redraws E measured (doc, this, scrolls) in
  styleTopAt after.1.1 p = Some (JS.ofZ (rectTop el + final) +:+ "px") /\
  headerBarHeight_ after.1.2 = final /\
  scrolledBy after.2 = (scrolledBy scrolls + (final - height))%Z /\
  (Forall (fun s => s.1 = 0%Z /\ s.2 <> 0%Z) scrolls ->
   Forall (fun s => s.1 = 0%Z /\ s.2 <> 0%Z) after.2).
Proof.
  induction measured as [|[b a] rest IH];
    intros doc this scrolls height Hpos Htop Hpx Hm Hh Hcalled Hheight Hge Hp Hel.
  - cbn [redraws List.last fst snd]. unfold styleTopAt. rewrite Hel.
    split; [done|]. split; [done|]. split; [lia|done].
  - apply Forall_cons in Hm as [Ha Hm]. cbn [fst snd] in Ha.
    cbn [redraws fst snd].
    set (st := redrawHeader_ E b a doc this scrolls).
    assert (Hst : st =
      (foldl (fun d q => updateAt (setProps (offsetTop E true height a)) q d)
             doc (elements (elementsToOffset_ this)),
       withRedraw a this,
       if negb (a =? height)%Z then scrolls ++ [(0, a - height)%Z] else scrolls)).
    { unfold st, redrawHeader_. rewrite Hh, Hcalled, Hheight.
      replace (height =? -1)%Z with false by (symmetry; apply Z.eqb_neq; lia).
      reflexivity. }
    rewrite Hst. cbn [fst snd].
    specialize (IH
      (foldl (fun d q => updateAt (setProps (offsetTop E true height a)) q d)
             doc (elements (elementsToOffset_ this)))
      (withRedraw a this)
      (if negb (a =? height)%Z then scrolls ++ [(0, a - height)%Z] else scrolls)
      a Hpos Htop Hpx Hm Hh eq_refl eq_refl Ha Hp).
    cbn zeta in IH.
    destruct IH as (H1 & H2 & H3 & H4).
    { rewrite propsAt_foldl_updateAt by apply NoDup_elements.
      rewrite decide_True by (by apply elem_of_elements).
      rewrite Hel. cbn [fmap option_fmap option_map]. f_equal.
      unfold offsetTop. cbn [withStyleTop cssPosition cssTop styleTop].
      destruct el as [nt nn at' dt op it cp ct st' rt].
      cbn [cssPosition cssTop styleTop rectTop withStyleTop] in *.
      apply String.eqb_neq in Hpos. rewrite Hpos. cbn [negb andb].
      rewrite bool_decide_eq_true_2 by done. rewrite Hpx.
      replace (rt + height + (a - height))%Z with (rt + a)%Z by lia. reflexivity. }
    replace (List.last ((b, a) :: rest) (0%Z, height)).2
      with (List.last rest (0%Z, a)).2.
    2:{ destruct rest as [|x r]; [done|].
        change (List.last ((b, a) :: x :: r) (0%Z, height))
          with (List.last (x :: r) (0%Z, height)).
        by rewrite (last_default (x) r (0%Z, a) (0%Z, height)). }
    split; [done|]. split; [done|]. split.
    + rewrite H3. destruct (a =? height)%Z eqn:Heq; cbn [negb].
      * apply Z.eqb_eq in Heq. lia.
      * rewrite scrolledBy_app. unfold scrolledBy at 2. cbn. lia.
    + intros Hs. apply H4. destruct (a =? height)%Z eqn:Heq; cbn [negb]; [done|].
      apply Forall_app. split; [done|]. apply Forall_singleton.
      apply Z.eqb_neq in Heq. cbn. split; [done|lia].
Qed.

(** X10.  Over any run of redraws that starts with the first one, the top
    written on a tracked element is its absolute top at the start plus the
    height the header bar has now, and the scroll calls add up to the
    change of that height since the first redraw; none of them scrolls
    sideways or by nothing.  The pixel parser is taken to read back what the
    redraw writes. *)
Theorem redrawHeader_top_follows_height
    (E : Env) (doc : node) (this : MobNav) (h p : path) (el : props)
    (before first : Z) (rest : list (Z * Z)) :
  headerBar_ this = Some h ->
  redrawNavCalled_ this = false ->
  p ∈ elementsToOffset_ this ->
  propsAt doc p = Some el ->
  cssPosition el <> "static" ->
  pixelValue E (cssTop el) <> None ->
  (forall z, pixelValue E (JS.ofZ z +:+ "px") = Some z) ->
  (0 <= first)%Z ->
  Forall (fun m => (0 <= m.2)%Z) rest ->
  let after := redraws E ((before, first) :: rest) (doc, this, []) in
  let final := (List.last rest (before, first)).2 in
  styleTopAt after.1.1 p = Some (JS.ofZ (rectTop el + final) +:+ "px") /\
  headerBarHeight_ after.1.2 = final /\
  scrolledBy after.2 = (final - first)%Z /\
  Forall (fun s => s.1 = 0%Z /\ s.2 <> 0%Z) after.2.
Proof.
  intros Hh Hcalled Hp Hel Hpos Htop Hpx Hfirst Hrest after final.
  assert (Hfinal : final = (List.last rest (0, first)%Z).2).
  { unfold final. destruct rest as [|x r]; [done|].
    by rewrite (last_default x r (before, first) (0, first)%Z). }
  unfold after. cbn [redraws fst snd].
  set (old := if (headerBarHeight_ this =? -1)%Z then before else headerBarHeight_ this).
  assert (Hst : redrawHeader_ E before first doc this [] =
    (foldl (fun d q => updateAt (setProps (offsetTop E false old first)) q d)
           doc (elements (elementsToOffset_ this)),
     withRedraw first this, [])).
  { unfold redrawHeader_. by rewrite Hh, Hcalled. }
  rewrite Hst. cbn [fst snd].
  destruct (redraws_later E h p el first rest
    (foldl (fun d q => updateAt (setProps (offsetTop E false old first)) q d)
           doc (elements (elementsToOffset_ this)))
    (withRedraw first this) [] first Hpos Htop Hpx Hrest Hh eq_refl eq_refl Hfirst Hp)
    as (H1 & H2 & H3 & H4).
  { rewrite propsAt_foldl_updateAt by apply NoDup_elements.
    rewrite decide_True by (by apply elem_of_elements).
    rewrite Hel. cbn [fmap option_fmap option_map]. f_equal.
    unfold offsetTop. apply String.eqb_neq in Hpos. rewrite Hpos. cbn [negb andb].
    by rewrite bool_decide_eq_true_2 by done. }
  rewrite Hfinal. split; [done|]. split; [done|]. split; [|by apply H4].
  rewrite H3. unfold scrolledBy. cbn. lia.
Qed.

Lemma redrawHeader_top_follows_height_witness :
  styleTopAt (redraws sampleEnv [(40, 50); (50, 44); (44, 44); (44, 60)]%Z
                      (bannerPage, bannerNav, [])).1.1 [0; 1; 0]
    = Some "60px" /\
  scrolledBy (redraws sampleEnv [(40, 50); (50, 44); (44, 44); (44, 60)]%Z
                      (bannerPage, bannerNav, [])).2 = 10%Z.
Proof.
  destruct (redrawHeader_top_follows_height sampleEnv bannerPage bannerNav
              [0; 1; 1] [0; 1; 0]
              (nprops (Sample.positioned "div" [("id", "banner")] "fixed" "0px" []))
              40 50 [(50, 44); (44, 44); (44, 60)]%Z
              eq_refl eq_refl) as (H1 & _ & H3 & _).
  - unfold bannerNav. cbn [elementsToOffset_]. by apply elem_of_singleton_2.
  - reflexivity.
  - discriminate.
  - discriminate.
  - apply samplePixelValue_px.
  - lia.
  - repeat constructor; cbn; lia.
  - split; [exact H1|exact H3].
Defined.

(** X11.  A redraw writes the inline top of no node but the tracked elements
    and the header bar.  Of the object, only the recorded height and the
    flag of the first run change; without a header bar nothing changes at
    all. *)
Theorem redrawHeader_writes_tops_only
    (E : Env) (measuredBefore measuredAfter : Z) (doc : node) (this : MobNav)
    (scrolls : list (Z * Z)) :
  let after := redrawHeader_ E measuredBefore measuredAfter doc this scrolls in
  (forall q, q ∉ elementsToOffset_ this -> headerBar_ this <> Some q ->
     styleTopAt after.1.1 q = styleTopAt doc q) /\
  navSections_ after.1.2 = navSections_ this /\
  navPanel_ after.1.2 = navPanel_ this /\
  headerBar_ after.1.2 = headerBar_ this /\
  elementsToOffset_ after.1.2 = elementsToOffset_ this /\
  (headerBar_ this = None -> after = (doc, this, scrolls)).
Proof.
  intros after. unfold after, redrawHeader_.
  destruct (headerBar_ this) as [h|] eqn:Hh; cbn [fst snd].
  2:{ split; [done|]. by rewrite Hh. }
  split.
  - intros q Hq _. unfold styleTopAt.
    rewrite propsAt_foldl_updateAt by apply NoDup_elements.
    rewrite decide_False; [done|]. by rewrite elem_of_elements.
  - cbn. by rewrite Hh.
Qed.

Lemma redrawHeader_writes_tops_only_witness :
  styleTopAt (redrawHeader_ sampleEnv 40 50 bannerPage bannerNav []).1.1 [0; 1]
    = styleTopAt bannerPage [0; 1].
Proof.
  apply (proj1 (redrawHeader_writes_tops_only sampleEnv 40 50 bannerPage
                  bannerNav [])).
  - apply (bool_decide_eq_false_1 _). vm_compute. reflexivity.
  - discriminate.
Defined.


(** ** The panel of parsed sections *)
Lemma labelledProps_named t d u q n :
  nodeType (labelledProps t d u q n) = nodeType (nprops n)
  /\ nodeName (labelledProps t d u q n) = nodeName (nprops n).
Proof.
  unfold labelledProps. destruct (bool_decide (q <> []) && isTag "A" n); [|done].
  by destruct n as [[] ?].
Qed.

Lemma labelNavDepth_named t d u q n' :
  nodeAt (labelNavDepth_ t d u).1 q = Some n' ->
  exists n, nodeAt t q = Some n /\ isElement n' = isElement n
            /\ forall tag, isTag tag n' = isTag tag n.
Proof.
  intros Hn'. pose proof (labelNavDepth_props t d u q) as H.
  unfold propsAt in H. rewrite Hn' in H.
  destruct (nodeAt t q) as [n|]; [|done]. exists n. split; [done|].
  cbn in H. injection H as H.
  destruct (labelledProps_named t d u q n) as [Ht Hname].
  rewrite <- H in Ht, Hname. unfold isElement, isTag.
  split; [by rewrite Ht|]. intros tag. by rewrite Hname.
Qed.

Lemma select_nil_intro f t : (forall q, q ∉ select f t) -> select f t = [].
Proof.
  intros H. destruct (select f t) as [|q l]; [done|].
  exfalso. apply (H q). by left.
Qed.

Lemma navATagsOf_plain nav a' :
  plainSection nav -> a' ∈ navATagsOf nav -> plainLink a'.
Proof.
  intros Hplain Ha. unfold navATagsOf in Ha.
  pose proof (labelNavDepth_tags nav 0 false) as Htags.
  pose proof (labelNavDepth_named nav 0 false) as Hnamed.
  pose proof (labelNavDepth_props nav 0 false) as Hprops.
  destruct (labelNavDepth_ nav 0 false) as [nav' tags]. cbn [fst snd] in *.
  apply list_elem_of_omap in Ha as (q & Hq & Hqa).
  rewrite Htags in Hq. apply list_elem_of_In, List.filter_In in Hq as [Hdesc Hlink].
  assert (Hne : q <> []).
  { intros ->. apply list_elem_of_In in Hdesc. by apply descendants_not_nil in Hdesc. }
  destruct (Hnamed q a' Hqa) as (a & Hqa0 & He & Htag).
  unfold isLinkAt, holdsAt in Hlink. rewrite Hqa0 in Hlink.
  destruct (Hplain q a Hne Hqa0 Hlink) as [Hel Hsub].
  split; [by rewrite He|]. split; [by rewrite Htag|].
  apply select_nil_intro. intros r Hr.
  apply select_sound in Hr as (Hrne & n' & Hn' & Hf).
  assert (Hn'' : nodeAt nav' (q ++ r) = Some n') by (by rewrite nodeAt_app, Hqa).
  destruct (Hnamed (q ++ r) n' Hn'') as (n & Hn & He' & Htag').
  rewrite nodeAt_app, Hqa0 in Hn. cbn in Hn.
  assert (Hin : r ∈ select (isNamed "A") a).
  { apply (select_complete _ r a n); [done|done|].
    unfold isNamed in *. by rewrite <- He', <- Htag'. }
  unfold getElementsByTagName in Hsub. rewrite Hsub in Hin. by apply elem_of_nil in Hin.
Qed.

Lemma leavesOf_linksOf it : forall x, x ∈ leavesOf it -> x ∈ linksOf it.
Proof.
  induction it as [link|link sub IH] using item_ind'; intros x Hx; [done|].
  cbn [leavesOf linksOf] in *. right.
  apply list_elem_of_In, in_flat_map in Hx as (y & Hy & Hx).
  apply list_elem_of_In, in_flat_map. exists y. split; [done|].
  apply list_elem_of_In. rewrite Forall_forall in IH.
  apply IH; [by apply list_elem_of_In|by apply list_elem_of_In].
Qed.

Lemma constructNavPanel_plain (E : Env) (sections : list node) :
  Forall plainSection sections ->
  exists items,
    constructNavPanel_ E sections = panelOf E items /\
    flat_map linksOf items = flat_map navATagsOf sections /\
    plainItems items.
Proof.
  intros Hplain.
  destruct (constructNavPanel_renders E sections) as (items & Hpanel & Hlinks).
  exists items. split; [done|]. split; [done|].
  unfold plainItems. apply Forall_forall. intros x Hx.
  assert (Hin : x ∈ flat_map linksOf items).
  { apply list_elem_of_In, in_flat_map in Hx as (it & Hit & Hx).
    apply list_elem_of_In, in_flat_map. exists it. split; [done|].
    by apply list_elem_of_In, leavesOf_linksOf, list_elem_of_In. }
  rewrite Hlinks in Hin.
  apply list_elem_of_In, in_flat_map in Hin as (nav & Hnav & Hx').
  rewrite Forall_forall in Hplain.
  apply (navATagsOf_plain nav); [apply Hplain|]; by apply list_elem_of_In.
Qed.


Lemma addItems_flat p : forall links items,
  Forall (fun a => getAttribute a NAV_LEVEL = Some "0") links ->
  addItems links (renderUl p items, [[]])
  = (renderUl p (items ++ map Leaf links), [[]]).
Proof.
  induction links as [|link rest IH]; intros items Hl.
  - by rewrite app_nil_r.
  - apply Forall_cons in Hl as [Hlink Hrest]. cbn [addItems].
    assert (Hnext : match rest with
                    | [] => getAttribute link NAV_LEVEL
                    | next :: _ => getAttribute next NAV_LEVEL
                    end = Some "0").
    { destruct rest as [|next r]; [done|]. by apply Forall_cons in Hrest as [? _]. }
    rewrite Hnext, Hlink. unfold addItem. cbn [topSubmenu last default nodeAt].
    replace (jsLt (Some "0") (Some "0")) with false by reflexivity.
    replace (jsSub (Some "0") (Some "0")) with (Some 0%Z) by reflexivity.
    cbn [popSubmenus].
    change (popN (Z.to_nat 0) [[]]) with [@nil nat].
    change (id (@nil nat)) with (@nil nat).
    replace (appendAt [] (leafItem link) (renderUl p items))
      with (renderUl p (items ++ [Leaf link])).
    2:{ unfold appendAt, renderUl. cbn [updateAt nprops childNodes].
        by rewrite map_app. }
    rewrite IH by done. by rewrite <- app_assoc.
Qed.

Lemma navATagsOf_flat nav :
  flatSection nav ->
  Forall (fun a => getAttribute a NAV_LEVEL = Some "0") (navATagsOf nav).
Proof.
  intros Hflat. apply Forall_forall. intros a' Ha. unfold navATagsOf in Ha.
  pose proof (labelNavDepth_tags nav 0 false) as Htags.
  pose proof (labelNavDepth_levels nav 0 false) as Hlev.
  destruct (labelNavDepth_ nav 0 false) as [nav' tags]. cbn [fst snd] in *.
  apply list_elem_of_omap in Ha as (q & Hq & Hqa).
  rewrite Htags in Hq. apply list_elem_of_In, List.filter_In in Hq as [Hdesc Hlink].
  assert (Hne : q <> []).
  { intros ->. apply list_elem_of_In in Hdesc. by apply descendants_not_nil in Hdesc. }
  unfold isLinkAt, holdsAt in Hlink.
  destruct (nodeAt nav q) as [a|] eqn:Hqa0; [|done].
  specialize (Hlev q a Hne Hqa0 Hlink). unfold levelAt in Hlev.
  rewrite Hqa in Hlev. cbn [mbind option_bind] in Hlev. rewrite Hlev.
  pose proof (Hflat q a Hne Hqa0 Hlink) as Hn. unfold nestingDepth.
  replace (0 + (listNesting nav q - 1)) with 0 by lia. reflexivity.
Qed.

(** X13.  Sections without a list inside a list give a flat menu: the panel
    holds one leaf for each of their links, in document order, and no
    submenu. *)
Theorem constructNavPanel_flat_sections (E : Env) (sections : list node) :
  Forall flatSection sections ->
  constructNavPanel_ E sections
  = panelOf E (map Leaf (flat_map navATagsOf sections)).
Proof.
  intros Hflat. unfold constructNavPanel_, panelOf. f_equal.
  change (setAttribute "class" "open" (Sample.createElement "UL"))
    with (renderUl topUlProps []).
  change (map Leaf (flat_map navATagsOf sections))
    with ([] ++ map Leaf (flat_map navATagsOf sections)).
  generalize (@nil item) as items.
  induction Hflat as [|nav rest Hnav _ IH]; intros items.
  - cbn [foldl flat_map map]. by rewrite app_nil_r.
  - cbn [foldl flat_map]. unfold addSection at 2.
    rewrite addItems_flat by (by apply navATagsOf_flat). cbn [fst].
    rewrite IH. by rewrite map_app, app_assoc.
Qed.

Lemma constructNavPanel_flat_sections_witness :
  constructNavPanel_ sampleEnv [Sample.element "div" [] [sampleLink "/a" "A"; sampleLink "/b" "B"]]
  = panelOf sampleEnv
      (map Leaf (flat_map navATagsOf
         [Sample.element "div" [] [sampleLink "/a" "A"; sampleLink "/b" "B"]])).
Proof.
  apply constructNavPanel_flat_sections. apply Forall_singleton.
  intros q a Hq Hn Ha.
  assert (Hsel : q ∈ select (isTag "A")
            (Sample.element "div" [] [sampleLink "/a" "A"; sampleLink "/b" "B"]))
    by (by apply (select_complete _ q _ a)).
  vm_compute in Hsel.
  repeat (apply elem_of_cons in Hsel as [->|Hsel]; [vm_compute; lia|]).
  by apply elem_of_nil in Hsel.
Defined.








Lemma survivors_idem tags : forall e e',
  (forall x, x ∈ e <-> x ∈ e') ->
  survivors e' (survivors e tags) = survivors e tags.
Proof.
  induction tags as [|[leaf key] r IH]; intros e e' He; [done|].
  cbn [survivors].
  assert (He' : forall x, x ∈ e ++ [key] <-> x ∈ e' ++ [key]).
  { intros x. rewrite !elem_of_app, He. tauto. }
  destruct (leaf && bool_decide (key ∈ e)) eqn:Hdrop; cbn [app].
  - apply IH. apply andb_prop in Hdrop as [_ Hin]. apply bool_decide_eq_true in Hin.
    intros x. rewrite <- He, elem_of_app, list_elem_of_singleton.
    split; [intros [H| ->]; done|tauto].
  - cbn [survivors].
    replace (leaf && bool_decide (key ∈ e')) with false.
    2:{ rewrite <- Hdrop. f_equal. apply bool_decide_ext. split; apply He. }
    cbn [app]. f_equal. by apply IH.
Qed.

Lemma length_survivors tags : forall e, length (survivors e tags) <= length tags.
Proof.
  induction tags as [|[leaf key] r IH]; intros e; [done|].
  cbn [survivors]. rewrite length_app. specialize (IH (e ++ [key])).
  destruct (leaf && _); cbn [length]; lia.
Qed.

Lemma survivors_all_app a b e :
  survivors e (a ++ b) = a ++ b ->
  survivors e a = a /\ survivors (e ++ map snd a) b = b.
Proof.
  rewrite survivors_app. intros H.
  pose proof (length_survivors a e) as Ha.
  pose proof (length_survivors b (e ++ map snd a)) as Hb.
  pose proof (f_equal length H) as Hlen. rewrite !length_app in Hlen.
  apply app_inj_1 in H; [done|lia].
Qed.

Lemma dedupItem_keeps E : forall it m k earlier,
  tracks m earlier ->
  survivors earlier (keysOf E it) = keysOf E it ->
  (dedupItem E m k it).1.2 = [it].
Proof.
  induction it as [link|link sub IH] using item_ind'; intros m k earlier Hm Hs.
  - cbn [dedupItem fst snd keysOf survivors andb] in *. rewrite Hm.
    destruct (bool_decide (keyOf E link ∈ earlier)); [done|reflexivity].
  - rewrite dedupItem_group. cbn [fst snd]. do 2 f_equal.
    cbn [keysOf survivors andb app] in Hs. injection Hs as Hs.
    set (tk := keyOf E (titleAnchor link)) in *.
    assert (Hsub : forall i m0 e0, tracks m0 e0 ->
      survivors e0 (flat_map (keysOf E) sub) = flat_map (keysOf E) sub ->
      (dedupFrom (dedupItem E) m0 i sub).1.2 = sub).
    { clear m k earlier Hm Hs. induction sub as [|it r IHr]; intros i m0 e0 H0 Hs0;
        [done|].
      inversion IH as [|? ? Hit Hr]; subst.
      rewrite dedupFrom_cons. cbn [fst snd flat_map] in *.
      apply survivors_all_app in Hs0 as [Hs1 Hs2].
      rewrite (Hit m0 i e0 H0 Hs1). cbn [app]. f_equal.
      apply (IHr Hr (S i) _ (e0 ++ map snd (keysOf E it))); [|done].
      by destruct (keys_dedupItem E it m0 i e0 H0) as [_ Ht]. }
    apply (Hsub 0 _ (earlier ++ [tk])); [by apply tracks_addKey|done].
Qed.

Lemma dedupFrom_keeps E : forall l m k earlier,
  tracks m earlier ->
  survivors earlier (flat_map (keysOf E) l) = flat_map (keysOf E) l ->
  (dedupFrom (dedupItem E) m k l).1.2 = l.
Proof.
  induction l as [|it r IH]; intros m k earlier Hm Hs; [done|].
  rewrite dedupFrom_cons. cbn [fst snd flat_map] in *.
  apply survivors_all_app in Hs as [Hs1 Hs2].
  rewrite (dedupItem_keeps E it m k earlier Hm Hs1). cbn [app]. f_equal.
  apply (IH _ (S k) (earlier ++ map snd (keysOf E it))); [|done].
  by destruct (keys_dedupItem E it m k earlier Hm) as [_ Ht].
Qed.

Lemma dedupItems_idem E items : dedupItems E (dedupItems E items) = dedupItems E items.
Proof.
  unfold dedupItems at 1. apply (dedupFrom_keeps E _ ∅ 0 []); [apply tracks_empty|].
  rewrite keys_dedupItems. by apply survivors_idem.
Qed.

Lemma leaves_dedupItem E : forall it m k x,
  x ∈ flat_map leavesOf (dedupItem E m k it).1.2 -> x ∈ leavesOf it.
Proof.
  induction it as [link|link sub IH] using item_ind'; intros m k x Hx.
  - cbn [dedupItem fst snd] in Hx. destruct (seenKey m (keyOf E link)).
    + by apply elem_of_nil in Hx.
    + cbn [flat_map leavesOf] in *. by rewrite app_nil_r in Hx.
  - rewrite dedupItem_group in Hx. cbn [fst snd flat_map leavesOf] in *.
    rewrite app_nil_r in Hx. revert Hx.
    generalize (addKey m (keyOf E (titleAnchor link))) as m0.
    generalize 0 as i.
    induction sub as [|it r IHr]; intros i m0 Hx; [done|].
    inversion IH as [|? ? Hit Hr]; subst.
    rewrite dedupFrom_cons in Hx. cbn [fst snd flat_map] in *.
    rewrite flat_map_app in Hx. apply elem_of_app in Hx as [Hx|Hx].
    + apply elem_of_app. left. by apply (Hit m0 i).
    + apply elem_of_app. right. by apply (IHr Hr (S i) (dedupItem E m0 i it).1.1).
Qed.

Lemma plainItems_dedupItems E items : plainItems items -> plainItems (dedupItems E items).
Proof.
  unfold plainItems, dedupItems. intros Hp. apply Forall_forall. intros x Hx.
  rewrite Forall_forall in Hp. apply Hp. revert Hx.
  generalize (∅ : gmap string (list string)) as m. generalize 0 as k.
  induction items as [|it r IH]; intros k m Hx; [done|].
  rewrite dedupFrom_cons in Hx. cbn [fst snd flat_map] in *.
  rewrite flat_map_app in Hx. apply elem_of_app in Hx as [Hx|Hx].
  - apply elem_of_app. left. by apply (leaves_dedupItem E it m k).
  - apply elem_of_app. right.
    apply (IH (fun y Hy => Hp y (proj2 (elem_of_app _ _ _) (or_intror Hy)))
              (S k) (dedupItem E m k it).1.1 Hx).
Qed.

(** X15.  Deduplication is idempotent on the panels the builder makes of
    sections as the parser yields them: it returns, and run again on what
    it returned it removes nothing. *)
Theorem dedupNavMenuItems_twice (E : Env) (sections : list node) :
  (forall ref, inherited (resolveURL E ref) = false) ->
  Forall plainSection sections ->
  exists navPanel,
    dedupNavMenuItems_ E (constructNavPanel_ E sections) = Some navPanel /\
    dedupNavMenuItems_ E navPanel = Some navPanel.
Proof.
  intros Hres Hplain.
  destruct (constructNavPanel_plain E sections Hplain) as (items & Hpanel & _ & Hitems).
  exists (panelOf E (dedupItems E items)). rewrite Hpanel. split.
  - by apply dedup_panelOf.
  - rewrite dedup_panelOf by (by try apply plainItems_dedupItems).
    by rewrite dedupItems_idem.
Qed.

Lemma dedupNavMenuItems_twice_witness :
  exists navPanel,
    dedupNavMenuItems_ sampleEnv (constructNavPanel_ sampleEnv [homeSubNav])
      = Some navPanel /\
    dedupNavMenuItems_ sampleEnv navPanel = Some navPanel.
Proof.
  apply dedupNavMenuItems_twice; [reflexivity|].
  apply Forall_singleton. intros q a Hq Hn Ha.
  assert (Hsel : q ∈ select (isTag "A") homeSubNav)
    by (by apply (select_complete _ q _ a)).
  vm_compute in Hsel.
  repeat (apply elem_of_cons in Hsel as [->|Hsel];
          [vm_compute in Hn; injection Hn as <-; split; reflexivity|]).
  by apply elem_of_nil in Hsel.
Defined.

Import Cleanup CleanupTree.

Lemma cleanNode_children E logoSrc nd :
  take (length (childNodes nd)) (childNodes (cleanNode E logoSrc nd).1)
  = childNodes nd.
Proof.
  destruct nd as [p cs]. unfold cleanNode.
  set (nd1 := removeAttribute "height" _).
  assert (H1 : childNodes nd1 = cs) by reflexivity.
  destruct (isTag "A" nd1).
  - destruct (String.eqb (textContent nd1) "" && hasAttribute nd1 "title");
      cbn [fst childNodes appendTo].
    + rewrite H1. by rewrite take_app_length.
    + rewrite H1. by rewrite firstn_all.
  - destruct (isTag "IMG" nd1); cbn [fst]; rewrite H1; by rewrite firstn_all.
Qed.

Lemma cleanNode_split E logoSrc nd :
  (cleanNode E logoSrc nd).1 =
  Node (nprops (cleanNode E logoSrc nd).1)
       (childNodes nd ++ drop (length (childNodes nd))
                              (childNodes (cleanNode E logoSrc nd).1)).
Proof.
  rewrite <- (cleanNode_children E logoSrc nd) at 1.
  rewrite take_drop. by destruct (cleanNode E logoSrc nd).1.
Qed.

Lemma cleanChildren_cons E logoSrc rec i c r :
  cleanChildren E logoSrc rec i (c :: r) =
  ((cleanChild E logoSrc rec c).1 :: (cleanChildren E logoSrc rec (S i) r).1,
   map (cons i) (cleanChild E logoSrc rec c).2
   ++ (cleanChildren E logoSrc rec (S i) r).2).
Proof.
  cbn [cleanChildren]. destruct (cleanChild E logoSrc rec c).
  by destruct (cleanChildren E logoSrc rec (S i) r).
Qed.

Lemma cleanBelow_unfold E logoSrc p cs :
  cleanBelow E logoSrc (Node p cs) =
  (Node p (cleanChildren E logoSrc (cleanBelow E logoSrc) 0 cs).1,
   (cleanChildren E logoSrc (cleanBelow E logoSrc) 0 cs).2).
Proof. cbn [cleanBelow]. by destruct (cleanChildren _ _ _ _ _). Qed.

Lemma nprops_cleanBelow E logoSrc n : nprops (cleanBelow E logoSrc n).1 = nprops n.
Proof. destruct n as [p cs]. by rewrite cleanBelow_unfold. Qed.

Lemma cleanAt_child E logoSrc (k : nat) (q : path) p cs c pre m0 :
  cs !! k = Some c ->
  cleanAt E logoSrc (Node p cs, pre ++ map (cons k) m0) (k :: q) =
  (Node p (<[k := (cleanAt E logoSrc (c, m0) q).1]> cs),
   pre ++ map (cons k) (cleanAt E logoSrc (c, m0) q).2).
Proof.
  intros Hc. unfold cleanAt. cbn [fst snd].
  rewrite nodeAt_cons, Hc. cbn [mbind option_bind].
  destruct (nodeAt c q) as [nd|] eqn:Hq; [|by rewrite list_insert_id].
  destruct (cleanNode E logoSrc nd) as [nd' queued]. cbn [fst snd].
  rewrite updateAt_cons. f_equal.
  - f_equal. apply list_eq. intros j. destruct (decide (j = k)) as [->|Hne].
    + rewrite list_lookup_alter_eq, Hc, list_lookup_insert_eq; [done|].
      by apply lookup_lt_Some in Hc.
    + by rewrite list_lookup_alter_ne, list_lookup_insert_ne.
  - destruct queued; [|done]. by rewrite map_app, app_assoc.
Qed.

Lemma foldl_cleanAt_child E logoSrc (k : nat) (l : list path) :
  forall p cs c pre m0,
  cs !! k = Some c ->
  foldl (cleanAt E logoSrc) (Node p cs, pre ++ map (cons k) m0) (map (cons k) l) =
  (Node p (<[k := (foldl (cleanAt E logoSrc) (c, m0) l).1]> cs),
   pre ++ map (cons k) (foldl (cleanAt E logoSrc) (c, m0) l).2).
Proof.
  induction l as [|q l IH]; intros p cs c pre m0 Hc.
  - cbn. by rewrite list_insert_id.
  - cbn [map foldl]. rewrite (cleanAt_child E logoSrc k q p cs c) by done.
    destruct (cleanAt E logoSrc (c, m0) q) as [c1 m1]. cbn [fst snd].
    rewrite (IH p _ c1).
    2:{ apply list_lookup_insert_eq. by apply lookup_lt_Some in Hc. }
    by rewrite list_insert_insert_eq.
Qed.

Lemma selectFrom_cons f k c r :
  selectFrom f k (c :: r) =
  map (cons k) ((if f c then [[]] else []) ++ select f c) ++ selectFrom f (S k) r.
Proof. reflexivity. Qed.

Lemma node_eta (n : node) : n = Node (nprops n) (childNodes n).
Proof. by destruct n. Qed.

Lemma cleanChild_loop E logoSrc c :
  cleanLoopOk E logoSrc c ->
  foldl (cleanAt E logoSrc) (c, [])
        ((if isElement c then [[]] else []) ++ select isElement c)
  = cleanChild E logoSrc (cleanBelow E logoSrc) c.
Proof.
  intros IH. unfold cleanChild.
  pose proof (nprops_cleanBelow E logoSrc c) as Hp.
  destruct (cleanBelow E logoSrc c) as [below sub] eqn:Hb.
  assert (Hb1 : below = (cleanBelow E logoSrc c).1) by (by rewrite Hb).
  assert (Hb2 : sub = (cleanBelow E logoSrc c).2) by (by rewrite Hb).
  cbn [fst] in Hp. destruct (isElement c).
  - cbn [app foldl]. unfold cleanAt at 2. cbn [fst snd nodeAt].
    pose proof (cleanNode_split E logoSrc c) as Hs.
    destruct (cleanNode E logoSrc c) as [c' queued]. cbn [fst snd] in *.
    change (updateAt (fun _ => c') [] c) with c'. rewrite Hs.
    rewrite (IH (nprops c') _ (if queued then [] ++ [[]] else [])).
    cbn [nprops childNodes]. rewrite drop_app_length, Hb. cbn [fst snd].
    by destruct queued.
  - cbn [app]. rewrite (node_eta c) at 1.
    rewrite <- (app_nil_r (childNodes c)).
    rewrite (IH (nprops c) [] []). rewrite app_nil_r. cbn [app].
    rewrite <- Hb1, <- Hb2, <- Hp. by rewrite <- node_eta.
Qed.

Lemma cleanChildren_loop E logoSrc l :
  Forall (cleanLoopOk E logoSrc) l ->
  forall done extra m0 p',
  foldl (cleanAt E logoSrc) (Node p' (done ++ l ++ extra), m0)
        (selectFrom isElement (length done) l)
  = (Node p' (done ++ (cleanChildren E logoSrc (cleanBelow E logoSrc)
                         (length done) l).1 ++ extra),
     m0 ++ (cleanChildren E logoSrc (cleanBelow E logoSrc) (length done) l).2).
Proof.
  induction 1 as [|c r Hc _ IH]; intros done extra m0 p'.
  - cbn. by rewrite app_nil_r.
  - rewrite selectFrom_cons, foldl_app, cleanChildren_cons. cbn [fst snd].
    rewrite <- (app_nil_r m0) at 1.
    change (@nil path) with (map (cons (length done)) (@nil path)) at 1.
    rewrite (foldl_cleanAt_child E logoSrc (length done) _ p' _ c).
    2:{ by rewrite lookup_app_r, Nat.sub_diag. }
    rewrite cleanChild_loop by done.
    set (cc := cleanChild E logoSrc (cleanBelow E logoSrc) c).
    replace (<[length done := cc.1]> (done ++ (c :: r) ++ extra))
      with ((done ++ [cc.1]) ++ r ++ extra).
    2:{ rewrite insert_app_r_alt, Nat.sub_diag by lia. cbn.
        by rewrite <- app_assoc. }
    replace (S (length done)) with (length (done ++ [cc.1]))
      by (rewrite length_app; cbn; lia).
    rewrite IH. rewrite <- !app_assoc. reflexivity.
Qed.

Lemma cleanBelow_loop E logoSrc t : cleanLoopOk E logoSrc t.
Proof.
  induction t as [p cs IH] using node_ind'. intros p' extra m0.
  rewrite select_unfold, cleanBelow_unfold. cbn [childNodes fst snd].
  apply (cleanChildren_loop E logoSrc cs IH []).
Qed.

(** The first loop, taken node by node from the list of the elements,
    leaves what the recursion on the tree leaves. *)
Lemma cleanLoop_cleanBelow E logoSrc navPanel :
  foldl (cleanAt E logoSrc) (navPanel, []) (select isElement navPanel)
  = cleanBelow E logoSrc navPanel.
Proof.
  pose proof (cleanBelow_loop E logoSrc navPanel (nprops navPanel) [] []) as H.
  rewrite !app_nil_r in H. rewrite <- node_eta in H. rewrite H. cbn [app].
  rewrite <- (nprops_cleanBelow E logoSrc navPanel).
  rewrite <- node_eta. by destruct (cleanBelow E logoSrc navPanel).
Qed.

Lemma below_elem i marks q' : q' ∈ below i marks <-> i :: q' ∈ marks.
Proof.
  unfold below. rewrite list_elem_of_omap. split.
  - intros (q & Hq & Hm). destruct q as [|j q0]; [done|].
    destruct (Nat.eqb_spec j i) as [->|]; [|done]. by injection Hm as ->.
  - intros H. exists (i :: q'). split; [done|]. by rewrite Nat.eqb_refl.
Qed.

Lemma pruneChildren_lookup marks l : forall i j c',
  (pruneChildren prune marks i l) !! j = Some c' ->
  exists k c, l !! k = Some c /\ ([i + k] ∉ marks)
              /\ c' = prune (below (i + k) marks) c.
Proof.
  induction l as [|c r IH]; intros i j c' H; [done|].
  cbn [pruneChildren] in H.
  destruct (decide ([i] ∈ marks)) as [Hin|Hin].
  - rewrite bool_decide_eq_true_2 in H by done. cbn [app] in H.
    destruct (IH (S i) j c' H) as (k & c0 & Hk & Hm & Hc).
    exists (S k), c0. replace (i + S k) with (S i + k) by lia. done.
  - rewrite bool_decide_eq_false_2 in H by done. cbn [app] in H.
    destruct j as [|j].
    + injection H as <-. exists 0, c. rewrite Nat.add_0_r. done.
    + destruct (IH (S i) j c' H) as (k & c0 & Hk & Hm & Hc).
      exists (S k), c0. replace (i + S k) with (S i + k) by lia. done.
Qed.

Lemma nprops_prune marks t : nprops (prune marks t) = nprops t.
Proof. by destruct t. Qed.

(** A node of the pruned tree is a node of the tree that lies below none of
    the marks. *)
Lemma nodeAt_prune : forall q marks t n,
  nodeAt (prune marks t) q = Some n ->
  exists q0 n0,
    nodeAt t q0 = Some n0 /\ nprops n = nprops n0 /\
    (q = [] <-> q0 = []) /\
    forall r, r <> [] -> isPrefix r q0 = true -> r ∉ marks.
Proof.
  induction q as [|j q IH]; intros marks t n Hn.
  - cbn in Hn. injection Hn as <-. exists [], t.
    split; [done|]. split; [apply nprops_prune|]. split; [done|].
    intros r Hr Hp. by destruct r.
  - destruct t as [p cs]. cbn [prune] in Hn. rewrite nodeAt_cons in Hn.
    destruct ((pruneChildren prune marks 0 cs) !! j) as [c'|] eqn:Hj; [|done].
    cbn in Hn.
    apply pruneChildren_lookup in Hj as (k & c & Hk & Hm & ->). cbn in Hm.
    destruct (IH _ _ _ Hn) as (q0 & n0 & Hq0 & Hp & _ & Hpre).
    exists (k :: q0), n0. split; [by rewrite nodeAt_cons, Hk|].
    split; [done|]. split; [done|].
    intros r Hr Hpr. destruct r as [|i r]; [done|].
    cbn [isPrefix] in Hpr. apply andb_prop in Hpr as [Hi Hpr].
    apply Nat.eqb_eq in Hi. subst i. destruct r as [|i' r]; [done|].
    intros Hin. apply (Hpre (i' :: r)); [done|done|]. by apply below_elem.
Qed.


Lemma cleanChildren_fst E logoSrc rec l : forall i,
  (cleanChildren E logoSrc rec i l).1 = map (fun c => (cleanChild E logoSrc rec c).1) l.
Proof.
  induction l as [|c r IH]; intros i; [done|].
  rewrite cleanChildren_cons. cbn [fst map]. by rewrite IH.
Qed.

Lemma cleanChildren_marks E logoSrc rec l : forall k i c m,
  l !! i = Some c -> m ∈ (cleanChild E logoSrc rec c).2 ->
  (k + i) :: m ∈ (cleanChildren E logoSrc rec k l).2.
Proof.
  induction l as [|y r IH]; intros k i c m Hc Hm; [done|].
  rewrite cleanChildren_cons. cbn [snd]. apply elem_of_app.
  destruct i as [|i].
  - injection Hc as ->. left. rewrite Nat.add_0_r.
    apply list_elem_of_fmap. eauto.
  - right. replace (k + S i) with (S k + i) by lia. by apply (IH (S k) i c).
Qed.

Lemma cleanNode_extra E logoSrc nd x :
  x ∈ drop (length (childNodes nd)) (childNodes (cleanNode E logoSrc nd).1) ->
  exists s, x = Sample.createTextNode s.
Proof.
  destruct nd as [p cs]. unfold cleanNode.
  set (nd1 := removeAttribute "height" _).
  assert (H1 : childNodes nd1 = cs) by reflexivity.
  cbn [childNodes].
  destruct (isTag "A" nd1).
  - destruct (String.eqb (textContent nd1) "" && hasAttribute nd1 "title");
      cbn [fst childNodes appendTo]; rewrite H1.
    + rewrite drop_app_length. intros Hx. apply list_elem_of_singleton in Hx. eauto.
    + rewrite drop_all. intros Hx. by apply elem_of_nil in Hx.
  - destruct (isTag "IMG" nd1); cbn [fst]; rewrite H1, drop_all;
      intros Hx; by apply elem_of_nil in Hx.
Qed.

Lemma length_cleanChildren E logoSrc rec l i :
  length (cleanChildren E logoSrc rec i l).1 = length l.
Proof. by rewrite cleanChildren_fst, length_map. Qed.

Lemma childNodes_cleanBelow_length E logoSrc c :
  length (childNodes (cleanBelow E logoSrc c).1) = length (childNodes c).
Proof.
  destruct c as [p cs]. rewrite cleanBelow_unfold. cbn [fst childNodes].
  apply length_cleanChildren.
Qed.

(** An element of the tree the first loop leaves is an element of the panel,
    as its turn left it; it is in the queue if its turn queued it. *)
Lemma cleanBelow_elements E logoSrc t : forall q n1,
  q <> [] ->
  nodeAt (cleanBelow E logoSrc t).1 q = Some n1 -> isElement n1 = true ->
  exists n0,
    nodeAt t q = Some n0 /\ isElement n0 = true /\
    nprops n1 = nprops (cleanNode E logoSrc n0).1 /\
    ((cleanNode E logoSrc n0).2 = true -> q ∈ (cleanBelow E logoSrc t).2).
Proof.
  induction t as [p cs IH] using node_ind'. intros q n1 Hq Hn He.
  destruct q as [|i q]; [done|]. clear Hq.
  rewrite cleanBelow_unfold in *. cbn [fst snd] in *.
  rewrite nodeAt_cons, cleanChildren_fst, list_lookup_fmap in Hn.
  destruct (cs !! i) as [c|] eqn:Hc; [|done]. cbn in Hn.
  eapply Forall_lookup_1 in IH; [|exact Hc].
  assert (Hmarks : forall m,
    m ∈ (cleanChild E logoSrc (cleanBelow E logoSrc) c).2 ->
    i :: m ∈ (cleanChildren E logoSrc (cleanBelow E logoSrc) 0 cs).2).
  { intros m Hm. by apply (cleanChildren_marks E logoSrc _ cs 0 i c). }
  rewrite nodeAt_cons, Hc. cbn [mbind option_bind].
  unfold cleanChild in Hn, Hmarks.
  pose proof (nprops_cleanBelow E logoSrc c) as Hp.
  pose proof (childNodes_cleanBelow_length E logoSrc c) as Hlen.
  destruct (cleanBelow E logoSrc c) as [below sub] eqn:Hb. cbn [fst snd] in *.
  destruct (isElement c) eqn:Hce.
  - pose proof (cleanNode_extra E logoSrc c) as Hex.
    destruct (cleanNode E logoSrc c) as [c' queued] eqn:Hcn. cbn [fst snd] in *.
    destruct q as [|j q].
    + cbn in Hn. injection Hn as <-. exists c. rewrite Hcn. cbn [fst snd nprops].
      split; [done|]. split; [done|]. split; [done|].
      intros ->. apply Hmarks. by left.
    + rewrite nodeAt_cons in Hn.
      destruct (decide (j < length (childNodes below))) as [Hj|Hj].
      * rewrite lookup_app_l in Hn by done.
        assert (Hn' : nodeAt below (j :: q) = Some n1).
        { rewrite (node_eta below), nodeAt_cons. exact Hn. }
        destruct (IH (j :: q) n1 ltac:(done) Hn' He) as (n0 & H0 & He0 & Hp0 & Hm0).
        exists n0. do 3 (split; [done|]).
        intros Hqd. apply Hmarks. apply elem_of_app. right. by apply Hm0.
      * rewrite lookup_app_r in Hn by lia.
        destruct (drop (length (childNodes c)) (childNodes c')
                    !! (j - length (childNodes below))) as [x|] eqn:Hx; [|done].
        apply list_elem_of_lookup_2, Hex in Hx as [s ->].
        cbn in Hn. destruct q as [|? ?]; [|done]. injection Hn as <-. done.
  - destruct q as [|j q].
    + cbn in Hn. injection Hn as <-.
      rewrite (isElement_props below c) in He by done. congruence.
    + destruct (IH (j :: q) n1 ltac:(done) Hn He) as (n0 & H0 & He0 & Hp0 & Hm0).
      exists n0. do 3 (split; [done|]).
      intros Hqd. apply Hmarks. by apply Hm0.
Qed.

Lemma descFrom_heads desc l : forall i q,
  q ∈ descFrom desc i l -> exists j q', q = j :: q' /\ i <= j.
Proof.
  induction l as [|c r IH]; intros i q Hq; [by apply elem_of_nil in Hq|].
  cbn [descFrom] in Hq. apply elem_of_app in Hq as [Hq|Hq].
  - apply elem_of_cons in Hq as [->|Hq]; [by exists i, []|].
    apply list_elem_of_fmap in Hq as (q' & -> & _). by exists i, q'.
  - destruct (IH _ _ Hq) as (j & q' & -> & Hj). exists j, q'. split; [done|lia].
Qed.

Lemma NoDup_descFrom desc l :
  Forall (fun c => NoDup (desc c) /\ [] ∉ desc c) l ->
  forall i, NoDup (descFrom desc i l).
Proof.
  induction 1 as [|c r [Hnd Hnil] _ IH]; intros i; [apply NoDup_nil_2|].
  cbn [descFrom]. apply NoDup_app. split; [|split; [|apply IH]].
  - apply NoDup_cons. split.
    + intros Hin. apply list_elem_of_fmap in Hin as (q' & Heq & Hq').
      injection Heq as <-. done.
    + apply NoDup_fmap_2; [|done]. intros a b Hab. by injection Hab.
  - intros q Hq Hq'. apply descFrom_heads in Hq' as (j & q' & -> & Hj).
    apply elem_of_cons in Hq as [Hq|Hq].
    + injection Hq as -> _. lia.
    + apply list_elem_of_fmap in Hq as (q0 & Heq & _). injection Heq as -> _. lia.
Qed.

Lemma NoDup_descendants t : NoDup (descendants t).
Proof.
  induction t as [p cs IH] using node_ind'. cbn [descendants].
  apply NoDup_descFrom. eapply Forall_impl; [exact IH|].
  intros c Hc. split; [done|apply descendants_not_nil].
Qed.

Lemma NoDup_List_filter {A} (f : A -> bool) (l : list A) :
  NoDup l -> NoDup (List.filter f l).
Proof.
  induction 1 as [|x l Hx _ IH]; [apply NoDup_nil_2|].
  cbn [List.filter]. destruct (f x); [|done].
  apply NoDup_cons. split; [|done]. intros Hin. apply Hx.
  apply list_elem_of_In, List.filter_In in Hin as [Hin _]. by apply list_elem_of_In.
Qed.

Lemma NoDup_select f t : NoDup (select f t).
Proof. unfold select. apply NoDup_List_filter, NoDup_descendants. Qed.

Lemma propsAt_rewriteAll g f t q :
  propsAt (rewriteAll g (select f t) t) q =
  if decide (q ∈ select f t) then g <$> propsAt t q else propsAt t q.
Proof. unfold rewriteAll. apply propsAt_foldl_updateAt, NoDup_select. Qed.

Lemma lookupAttr_dropAttr k k' l :
  lookupAttr k (dropAttr k' l) = if String.eqb k k' then None else lookupAttr k l.
Proof.
  induction l as [|[k0 v] l IH]; cbn [dropAttr lookupAttr].
  - by destruct (String.eqb k k').
  - destruct (String.eqb_spec k' k0) as [->|Hne].
    + rewrite IH. destruct (String.eqb_spec k k0); done.
    + cbn [lookupAttr]. rewrite IH.
      destruct (String.eqb_spec k k0) as [->|]; [|done].
      destruct (String.eqb_spec k0 k'); [congruence|done].
Qed.

Lemma lookupAttr_storeAttr_ne k k' v l :
  k <> k' -> lookupAttr k (storeAttr k' v l) = lookupAttr k l.
Proof.
  intros Hne. induction l as [|[k0 v0] l IH]; cbn [storeAttr lookupAttr].
  - apply String.eqb_neq in Hne. by rewrite Hne.
  - destruct (String.eqb_spec k' k0) as [->|Hne']; cbn [lookupAttr].
    + apply String.eqb_neq in Hne. by rewrite Hne.
    + by rewrite IH.
Qed.

(** The properties a turn of the first loop leaves on a node. *)
Lemma cleanNode_props E logoSrc nd :
  let p := nprops (cleanNode E logoSrc nd).1 in
  nodeType p = nodeType (nprops nd) /\ nodeName p = nodeName (nprops nd) /\
  styleTop p = "" /\
  forall k, lookupAttr k (attrs p) =
            if bool_decide (k ∈ ["style"; "width"; "height"]) then None
            else lookupAttr k (attrs (nprops nd)).
Proof.
  destruct nd as [[nt nn at' dt op it cp ct st rt sv] cs]. unfold cleanNode.
  set (nd1 := removeAttribute "height" _).
  assert (H1 : nprops nd1 =
    Props nt nn (dropAttr "height" (dropAttr "width" (dropAttr "style" at')))
          dt op it cp ct "" rt sv) by reflexivity.
  assert (Hp : nprops (if isTag "A" nd1 then
      (if String.eqb (textContent nd1) "" && hasAttribute nd1 "title"
       then Panel.appendTo nd1 (Sample.createTextNode
              (default "" (getAttribute nd1 "title")))
       else nd1,
       String.eqb (hrefOf E
         (if String.eqb (textContent nd1) "" && hasAttribute nd1 "title"
          then Panel.appendTo nd1 (Sample.createTextNode
                 (default "" (getAttribute nd1 "title")))
          else nd1)) "")
    else if isTag "IMG" nd1 then (nd1, bool_decide (srcOf E nd1 = logoSrc))
    else (nd1, false)).1 = nprops nd1).
  { destruct (isTag "A" nd1); [|by destruct (isTag "IMG" nd1)].
    by destruct (String.eqb (textContent nd1) "" && hasAttribute nd1 "title"). }
  cbn zeta. rewrite Hp, H1. cbn [nodeType nodeName styleTop attrs nprops].
  do 3 (split; [done|]). intros k. rewrite !lookupAttr_dropAttr.
  destruct (String.eqb_spec k "height") as [->|Hh]; [done|].
  destruct (String.eqb_spec k "width") as [->|Hw]; [done|].
  destruct (String.eqb_spec k "style") as [->|Hs]; [done|].
  rewrite bool_decide_eq_false_2; [done|].
  intros Hin. repeat (apply elem_of_cons in Hin as [->|Hin]; [done|]).
  by apply elem_of_nil in Hin.
Qed.

Lemma capHeight_props P p :
  nodeType (capHeight P p) = nodeType p /\ nodeName (capHeight P p) = nodeName p /\
  styleTop (capHeight P p) = styleTop p /\
  (exists h, h <= 40 /\ lookupAttr "height" (attrs (capHeight P p)) = Some (JS.ofNat h)) /\
  forall k, k <> "height" ->
            lookupAttr k (attrs (capHeight P p)) = lookupAttr k (attrs p).
Proof.
  destruct p. unfold capHeight. cbn. do 3 (split; [done|]). split.
  - eexists. split; [|apply lookupAttr_storeAttr]. lia.
  - intros k Hk. by apply lookupAttr_storeAttr_ne.
Qed.

Lemma addClass_props c p :
  nodeType (addClass c p) = nodeType p /\ nodeName (addClass c p) = nodeName p /\
  styleTop (addClass c p) = styleTop p /\
  forall k, k <> "class" ->
            lookupAttr k (attrs (addClass c p)) = lookupAttr k (attrs p).
Proof.
  destruct p. unfold addClass. cbn. do 3 (split; [done|]).
  intros k Hk. by apply lookupAttr_storeAttr_ne.
Qed.

Lemma restyled_refl P p : restyled P p p.
Proof. unfold restyled. split; [done|]. split; [done|]. split; [done|]. split; [done|]. by left. Qed.

Lemma restyled_addClass P c p p' : restyled P p p' -> restyled P p (addClass c p').
Proof.
  intros (Ht & Hn & Hs & Hk & Hh).
  destruct (addClass_props c p') as (Ht' & Hn' & Hs' & Hk').
  split; [congruence|]. split; [congruence|]. split; [congruence|]. split.
  - intros k H1 H2. rewrite Hk' by done. by apply Hk.
  - rewrite Hk' by done. exact Hh.
Qed.

Lemma isNamed_props tag n :
  isNamed tag n = true <->
  nodeType (nprops n) = ELEMENT /\ JS.toUpperCase (nodeName (nprops n)) = tag.
Proof.
  unfold isNamed, isElement, isTag. rewrite andb_true_iff, bool_decide_eq_true.
  by rewrite String.eqb_eq.
Qed.

Lemma rewriteAll_restyled_class P c f t q p :
  (exists p0, propsAt t q = Some p0 /\ restyled P p p0) ->
  exists p1, propsAt (rewriteAll (addClass c) (select f t) t) q = Some p1
             /\ restyled P p p1.
Proof.
  intros (p0 & Hq & Hr). rewrite propsAt_rewriteAll, Hq.
  destruct (decide (q ∈ select f t)); cbn; eauto using restyled_addClass.
Qed.

Lemma propsAt_nodeAt t q p :
  propsAt t q = Some p <-> exists n, nodeAt t q = Some n /\ nprops n = p.
Proof.
  unfold propsAt. destruct (nodeAt t q) as [n|]; cbn.
  - split; [intros [= <-]; eauto|]. by intros (n' & [= <-] & <-).
  - split; [done|]. by intros (n' & ? & _).
Qed.

(** Where a node of the result comes from: an element below the panel the
    clean-up returns is an element below the panel it was given, it lies
    below none of the list items removed, and it has the properties its
    turn of the first loop left, but for height and class. *)
Lemma cleanup_node E P logoImg navPanel final q n :
  cleanupNavPanel_ E P logoImg navPanel = Some final ->
  q <> [] -> nodeAt final q = Some n -> isElement n = true ->
  exists q0 n0 lis,
    q0 <> [] /\ nodeAt navPanel q0 = Some n0 /\ isElement n0 = true /\
    mapM (enclosingLi (cleanBelow E (logoSrcOf E logoImg) navPanel).1)
         (cleanBelow E (logoSrcOf E logoImg) navPanel).2 = Some lis /\
    (forall r, r <> [] -> isPrefix r q0 = true -> r ∉ lis) /\
    ((cleanNode E (logoSrcOf E logoImg) n0).2 = true ->
     q0 ∈ (cleanBelow E (logoSrcOf E logoImg) navPanel).2) /\
    restyled P (nprops (cleanNode E (logoSrcOf E logoImg) n0).1) (nprops n).
Proof.
  intros Hrun Hq Hn He. unfold cleanupNavPanel_, getElementsByTagName in Hrun.
  rewrite cleanLoop_cleanBelow in Hrun.
  destruct (cleanBelow E (logoSrcOf E logoImg) navPanel) as [p1 marks] eqn:Hclean.
  unfold removeQueued in Hrun.
  destruct (mapM (enclosingLi p1) marks) as [lis|] eqn:Hlis; [|done].
  destruct (bool_decide (NoDup lis)); [|done].
  set (p2 := prune lis p1) in *.
  set (isImage := fun n => isNamed "IMG" n
                   && negb (bool_decide (MENU_EXPAND_ICON P ∈ classList n))) in *.
  set (p3 := rewriteAll (capHeight P) (select isImage p2) p2) in *.
  (* the node at [q] in [p2] *)
  assert (H2 : exists n2, nodeAt p2 q = Some n2 /\ restyled P (nprops n2) (nprops n)).
  { assert (H3 : forall pp, propsAt p3 q = Some pp ->
               exists n2, nodeAt p2 q = Some n2 /\ restyled P (nprops n2) pp).
    { intros pp Hpp. unfold p3 in Hpp. rewrite propsAt_rewriteAll in Hpp.
      destruct (decide (q ∈ select isImage p2)) as [Hin|Hin].
      - apply select_sound in Hin as (_ & n2 & Hn2 & Hf).
        unfold propsAt in Hpp. rewrite Hn2 in Hpp. cbn in Hpp. injection Hpp as <-.
        exists n2. split; [done|].
        destruct (capHeight_props P (nprops n2)) as (Ht & Hnm & Hs & Hh & Hk).
        do 3 (split; [done|]). split; [intros k H1 H2; by apply Hk|].
        right. unfold isImage in Hf. apply andb_prop in Hf as [Hf _].
        apply isNamed_props in Hf as [Hf1 Hf2]. done.
      - apply propsAt_nodeAt in Hpp as (n2 & Hn2 & <-).
        exists n2. split; [done|apply restyled_refl]. }
    assert (Hfin : exists pp, propsAt p3 q = Some pp /\ restyled P pp (nprops n)).
    { assert (Hpn : propsAt final q = Some (nprops n))
        by (apply propsAt_nodeAt; eauto).
      destruct (FastClick P).
      - injection Hrun as <-.
        rewrite propsAt_rewriteAll in Hpn.
        set (p4 := rewriteAll _ _ p3) in *.
        assert (H4 : exists pp4, propsAt p4 q = Some pp4
                                 /\ restyled P pp4 (nprops n)).
        { destruct (propsAt p4 q) as [pp4|] eqn:H4;
            [|destruct (decide (q ∈ select (isNamed "DIV") p4)); cbn in Hpn; done].
          exists pp4. split; [done|].
          destruct (decide (q ∈ select (isNamed "DIV") p4)); cbn in Hpn;
            injection Hpn as <-;
            [apply restyled_addClass|]; apply restyled_refl. }
        destruct H4 as (pp4 & H4 & Hr4). unfold p4 in H4.
        rewrite propsAt_rewriteAll in H4.
        destruct (propsAt p3 q) as [pp3|] eqn:H3';
          [|destruct (decide (q ∈ select (isNamed "A") p3)); cbn in H4; done].
        exists pp3. split; [done|].
        destruct (decide (q ∈ select (isNamed "A") p3)); cbn in H4;
          injection H4 as <-; [|done].
        destruct Hr4 as (Ht & Hnm & Hs & Hk & Hh).
        destruct (addClass_props "needsclick" pp3) as (Ht' & Hnm' & Hs' & Hk').
        split; [congruence|]. split; [congruence|]. split; [congruence|]. split.
        + intros k H1 H2. rewrite Hk by done. by apply Hk'.
        + rewrite <- (Hk' "height") by done.
          destruct Hh as [Hh|(Hh1 & Hh2 & Hh3)]; [by left|right].
          split; [congruence|]. split; [congruence|done].
      - injection Hrun as <-. eauto using restyled_refl. }
    destruct Hfin as (pp & Hpp & Hr). destruct (H3 pp Hpp) as (n2 & Hn2 & Hr2).
    exists n2. split; [done|].
    destruct Hr as (Ht & Hnm & Hs & Hk & Hh), Hr2 as (Ht2 & Hnm2 & Hs2 & Hk2 & Hh2).
    split; [congruence|]. split; [congruence|]. split; [congruence|]. split.
    - intros k H1 H2. rewrite Hk by done. by apply Hk2.
    - destruct Hh as [Hh|(Hh1 & Hh2' & Hh3)].
      + rewrite Hh. exact Hh2.
      + right. split; [congruence|]. split; [congruence|done]. }
  destruct H2 as (n2 & Hn2 & Hr2).
  destruct (nodeAt_prune q lis p1 n2 Hn2) as (q0 & n1 & Hn1 & Hp1 & Hq0 & Hpre).
  assert (Hq0' : q0 <> []) by (intros ->; apply Hq; by apply Hq0).
  assert (He1 : isElement n1 = true).
  { destruct Hr2 as (Ht & _). unfold isElement in *. by rewrite <- Hp1, <- Ht. }
  pose proof (cleanBelow_elements E (logoSrcOf E logoImg) navPanel q0 n1 Hq0') as Hcb.
  rewrite Hclean in Hcb. cbn [fst snd] in Hcb.
  destruct (Hcb Hn1 He1) as (n0 & Hn0 & He0 & Hp0 & Hm0).
  exists q0, n0, lis. do 6 (split; [done|]). by rewrite <- Hp0, <- Hp1.
Qed.

Lemma cleanNode_queued E logoSrc nd :
  (cleanNode E logoSrc nd).2 =
  if isTag "A" nd then String.eqb (hrefOf E (cleanNode E logoSrc nd).1) ""
  else if isTag "IMG" nd
       then bool_decide (srcOf E (cleanNode E logoSrc nd).1 = logoSrc)
       else false.
Proof.
  unfold cleanNode. set (nd1 := removeAttribute "height" _).
  assert (Ht : forall tag, isTag tag nd1 = isTag tag nd) by (by destruct nd as [[] ?]).
  rewrite !Ht. destruct (isTag "A" nd); [done|]. by destruct (isTag "IMG" nd).
Qed.




(** X16.  When the clean-up returns, no element below the panel carries a
    style or a width, as an attribute or inline, and a height is there only
    on images, where it is at most 40. *)
Theorem cleanupNavPanel_strips_presentation
    (E : Env) (P : Page) (logoImg : option node) (navPanel final : node)
    (q : path) (n : node) :
  cleanupNavPanel_ E P logoImg navPanel = Some final ->
  q <> [] -> nodeAt final q = Some n -> isElement n = true ->
  getAttribute n "style" = None /\
  getAttribute n "width" = None /\
  styleTop (nprops n) = "" /\
  (getAttribute n "height" = None \/
   (isTag "IMG" n = true /\
    exists h, h <= 40 /\ getAttribute n "height" = Some (JS.ofNat h))).
Proof.
  intros Hrun Hq Hn He.
  destruct (cleanup_node E P logoImg navPanel final q n Hrun Hq Hn He)
    as (q0 & n0 & lis & _ & _ & _ & _ & _ & _ & Hr).
  destruct (cleanNode_props E (logoSrcOf E logoImg) n0) as (Ht & Hnm & Hs & Hk).
  destruct Hr as (Ht' & Hnm' & Hs' & Hk' & Hh).
  unfold getAttribute. rewrite !Hk' by done. rewrite !Hk. cbn [bool_decide].
  split; [done|]. split; [done|]. split; [congruence|].
  destruct Hh as [Hh|(_ & Himg & h & Hle & Hh)].
  - left. rewrite Hh, Hk. done.
  - right. split; [|eauto]. unfold isTag. rewrite Hnm'. by apply String.eqb_eq.
Qed.

Lemma cleanupNavPanel_strips_presentation_witness :
  let img := Sample.element "img" [("src", "a.png"); ("height", "30")] [] in
  getAttribute img "style" = None /\
  getAttribute img "width" = None /\
  styleTop (nprops img) = "" /\
  (getAttribute img "height" = None \/
   (isTag "IMG" img = true /\
    exists h, h <= 40 /\ getAttribute img "height" = Some (JS.ofNat h))).
Proof.
  refine (cleanupNavPanel_strips_presentation sampleEnv samplePage None
            samplePanel _ [0; 0; 0; 0] _ _ _ _ _).
  - vm_compute. reflexivity.
  - discriminate.
  - reflexivity.
  - reflexivity.
Defined.






Lemma cleanNode_queues E logoSrc nd :
  (cleanNode E logoSrc nd).2 = queues E logoSrc nd.
Proof.
  rewrite cleanNode_queued. unfold queues.
  destruct (cleanNode_props E logoSrc nd) as (_ & Hn & _ & Hk).
  assert (Hh : hrefOf E (cleanNode E logoSrc nd).1 = hrefOf E nd).
  { unfold hrefOf, getAttribute. by rewrite Hk. }
  assert (Hs : srcOf E (cleanNode E logoSrc nd).1 = srcOf E nd).
  { unfold srcOf, getAttribute. by rewrite Hn, Hk. }
  by rewrite Hh, Hs.
Qed.






Lemma cleanChildren_none E logoSrc rec l : forall k,
  Forall (fun c => (cleanChild E logoSrc rec c).2 = []) l ->
  (cleanChildren E logoSrc rec k l).2 = [].
Proof.
  induction l as [|c r IH]; intros k Hl; [done|].
  apply Forall_cons in Hl as [Hc Hr].
  rewrite cleanChildren_cons. cbn [snd]. by rewrite Hc, IH.
Qed.

(** Nothing is queued in a panel none of whose elements the loop queues. *)
Lemma cleanBelow_none E logoSrc t :
  (forall q n, q <> [] -> nodeAt t q = Some n -> isElement n = true ->
               queues E logoSrc n = false) ->
  (cleanBelow E logoSrc t).2 = [].
Proof.
  induction t as [p cs IH] using node_ind'. intros Hlive.
  rewrite cleanBelow_unfold. cbn [snd]. apply cleanChildren_none.
  apply Forall_lookup. intros i c Hc.
  eapply Forall_lookup_1 in IH; [|exact Hc].
  unfold cleanChild.
  destruct (cleanBelow E logoSrc c) as [below sub] eqn:Hb. cbn [snd] in IH.
  assert (Hsub : sub = []).
  { apply IH. intros q n Hq Hn He.
    destruct q as [|j q]; [done|].
    apply (Hlive (i :: j :: q) n); [done| |done].
    rewrite nodeAt_cons, Hc. exact Hn. }
  subst sub. destruct (isElement c) eqn:He; [|done].
  pose proof (cleanNode_queues E logoSrc c) as Hq.
  destruct (cleanNode E logoSrc c) as [c' queued]. cbn [snd] in *.
  rewrite (Hlive [i] c) in Hq; [by subst queued| done | | done].
  rewrite nodeAt_cons, Hc. done.
Qed.

Lemma selectFrom_app f l1 : forall k l2,
  selectFrom f k (l1 ++ l2) = selectFrom f k l1 ++ selectFrom f (k + length l1) l2.
Proof.
  induction l1 as [|c r IH]; intros k l2.
  - cbn. by rewrite Nat.add_0_r.
  - cbn [app length]. rewrite !selectFrom_cons, IH, <- app_assoc.
    by rewrite Nat.add_succ_r.
Qed.

Lemma selectFrom_texts f l : forall k,
  (forall s, f (Sample.createTextNode s) = false) ->
  Forall (fun x => exists s, x = Sample.createTextNode s) l ->
  selectFrom f k l = [].
Proof.
  induction l as [|c r IH]; intros k Hf Hl; [done|].
  apply Forall_cons in Hl as [[s ->] Hr].
  rewrite selectFrom_cons, Hf, IH by done. reflexivity.
Qed.

Lemma selectFrom_ext f l l' : forall k,
  Forall2 (fun c c' => f c' = f c /\ select f c' = select f c) l l' ->
  selectFrom f k l' = selectFrom f k l.
Proof.
  intros k H. revert k. induction H as [|c c' r r' [H1 H2] _ IH]; intros k; [done|].
  by rewrite !selectFrom_cons, H1, H2, IH.
Qed.

Section ByName.
Variable f : node -> bool.
Hypothesis f_name : forall a b,
  nodeType (nprops a) = nodeType (nprops b) ->
  nodeName (nprops a) = nodeName (nprops b) -> f a = f b.
Hypothesis f_text : forall s, f (Sample.createTextNode s) = false.

(** The first loop neither adds nor takes an element, nor renames one. *)
Lemma select_cleanBelow E logoSrc t :
  select f (cleanBelow E logoSrc t).1 = select f t.
Proof.
  induction t as [p cs IH] using node_ind'.
  rewrite cleanBelow_unfold. cbn [fst]. rewrite !select_unfold.
  apply selectFrom_ext. rewrite cleanChildren_fst.
  apply Forall2_fmap_r, Forall_Forall2_diag.
  eapply Forall_impl; [exact IH|]. cbn beta. intros c Hc.
  unfold compose, cleanChild. cbn beta.
  pose proof (nprops_cleanBelow E logoSrc c) as Hp.
  destruct (cleanBelow E logoSrc c) as [below sub]. cbn [fst] in *.
  destruct (isElement c).
  - destruct (cleanNode_props E logoSrc c) as (Ht & Hn & _).
    pose proof (cleanNode_extra E logoSrc c) as Hx.
    destruct (cleanNode E logoSrc c) as [c' queued]. cbn [fst] in *.
    split; [apply f_name; cbn [nprops]; [exact Ht|exact Hn]|].
    rewrite select_unfold, selectFrom_app.
    rewrite (selectFrom_texts f (drop _ _) _ f_text).
    + rewrite app_nil_r, <- Hc. destruct below. by rewrite select_unfold.
    + apply Forall_forall. exact Hx.
  - split; [|done]. apply f_name; cbn [fst]; by rewrite Hp.
Qed.

Lemma select_updateAt_props g :
  (forall p, nodeType (g p) = nodeType p /\ nodeName (g p) = nodeName p) ->
  forall q t, f (updateAt (setProps g) q t) = f t /\
              select f (updateAt (setProps g) q t) = select f t.
Proof.
  intros Hg. induction q as [|i q IH]; intros [p cs].
  - cbn [updateAt setProps]. split; [apply f_name; apply Hg|].
    by rewrite !select_unfold.
  - rewrite updateAt_cons. split; [by apply f_name|].
    rewrite !select_unfold. apply selectFrom_ext.
    apply Forall2_lookup. intros j. rewrite list_lookup_alter.
    destruct (decide (i = j)) as [->|].
    + destruct (cs !! j) as [c|]; cbn; constructor. apply IH.
    + destruct (cs !! j) as [c|]; cbn; by constructor.
Qed.

Lemma select_rewriteAll g refs :
  (forall p, nodeType (g p) = nodeType p /\ nodeName (g p) = nodeName p) ->
  forall t, select f (rewriteAll g refs t) = select f t.
Proof.
  intros Hg. unfold rewriteAll.
  induction refs as [|q r IH]; intros t; [done|].
  cbn [foldl]. rewrite IH. by apply select_updateAt_props.
Qed.
End ByName.

Lemma select_cleanup (f : node -> bool) E P logoImg navPanel :
  (forall a b, nodeType (nprops a) = nodeType (nprops b) ->
               nodeName (nprops a) = nodeName (nprops b) -> f a = f b) ->
  (forall s, f (Sample.createTextNode s) = false) ->
  (cleanBelow E (logoSrcOf E logoImg) navPanel).2 = [] ->
  exists final, cleanupNavPanel_ E P logoImg navPanel = Some final /\
                select f final = select f navPanel.
Proof.
  intros Hf Ht Hnone. unfold cleanupNavPanel_.
  rewrite cleanLoop_cleanBelow.
  pose proof (select_cleanBelow f Hf Ht E (logoSrcOf E logoImg) navPanel) as Hsel.
  destruct (cleanBelow E (logoSrcOf E logoImg) navPanel) as [p1 marks].
  cbn [fst snd] in *. subst marks.
  unfold removeQueued. change (mapM (enclosingLi p1) []) with (Some (@nil path)).
  cbn beta iota. rewrite bool_decide_eq_true_2 by constructor.
  rewrite prune_nil.
  assert (Hcap : forall p, nodeType (capHeight P p) = nodeType p
                           /\ nodeName (capHeight P p) = nodeName p) by (by intros []).
  assert (Hcls : forall p, nodeType (addClass "needsclick" p) = nodeType p
                           /\ nodeName (addClass "needsclick" p) = nodeName p)
    by (by intros []).
  destruct (FastClick P); eexists; (split; [reflexivity|]).
  - by rewrite !(select_rewriteAll f Hf (addClass "needsclick")),
               (select_rewriteAll f Hf (capHeight P)).
  - by rewrite (select_rewriteAll f Hf (capHeight P)).
Qed.

(** X20.  On a panel none of whose elements the first loop queues (every A
    has an [href] that is not empty, no IMG has the [src] of the logo) the
    clean-up returns, and the panel it leaves has the elements of the panel
    it was given, at the same places and of the same names. *)
Theorem cleanupNavPanel_keeps_live_panel (E : Env) (P : Page)
    (logoImg : option node) (navPanel : node) :
  (forall q n, q <> [] -> nodeAt navPanel q = Some n -> isElement n = true ->
               queues E (logoSrcOf E logoImg) n = false) ->
  exists final,
    cleanupNavPanel_ E P logoImg navPanel = Some final /\
    select isElement final = select isElement navPanel /\
    forall tag, getElementsByTagName final tag = getElementsByTagName navPanel tag.
Proof.
  intros Hlive. apply cleanBelow_none in Hlive.
  destruct (select_cleanup isElement E P logoImg navPanel) as (final & Hrun & Hel);
    [by intros a b Ht _; unfold isElement; rewrite Ht|done|done|].
  exists final. split; [done|]. split; [done|]. intros tag.
  destruct (select_cleanup (isNamed tag) E P logoImg navPanel) as (final' & Hrun' & Htag);
    [|done|done|].
  - intros a b Ht Hn. unfold isNamed, isElement, isTag. by rewrite Ht, Hn.
  - unfold getElementsByTagName. congruence.
Qed.

Lemma cleanupNavPanel_keeps_live_panel_witness :
  exists final,
    cleanupNavPanel_ sampleEnv samplePage None livePanel = Some final /\
    select isElement final = select isElement livePanel /\
    forall tag, getElementsByTagName final tag = getElementsByTagName livePanel tag.
Proof.
  apply (cleanupNavPanel_keeps_live_panel sampleEnv samplePage None livePanel).
  intros q n Hq Hn _.
  destruct q as [|[|?] [|[|?] [|[|?] [|[|?] [|? ?]]]]]; try done;
    injection Hn as <-; reflexivity.
Defined.

Import Whole.









Import Arrows.

Lemma removelast_cons_ne {A} (x : A) l : l <> [] -> removelast (x :: l) = x :: removelast l.
Proof. by destruct l. Qed.

Lemma filter_isChildOfAt_cons ptag ctag p cs i c X :
  cs !! i = Some c ->
  Forall (fun q => q <> []) X ->
  List.filter (isChildOfAt ptag ctag (Node p cs)) (map (cons i) X) =
  map (cons i) (List.filter (isChildOfAt ptag ctag c) X).
Proof.
  intros Hc HX. induction HX as [|q X Hq _ IH]; [reflexivity|].
  cbn [map List.filter]. rewrite IH.
  assert (He : isChildOfAt ptag ctag (Node p cs) (i :: q) = isChildOfAt ptag ctag c q).
  { unfold isChildOfAt, holdsAt, parentNode. rewrite nodeAt_cons, Hc.
    cbn [mbind option_bind]. destruct q as [|j q]; [done|].
    rewrite removelast_cons_ne by done. by rewrite nodeAt_cons, Hc. }
  rewrite He. by destruct (isChildOfAt ptag ctag c q).
Qed.

Lemma selectChildren_from ptag ctag p pre l :
  List.filter (isChildOfAt ptag ctag (Node p (pre ++ l)))
              (descFrom descendants (length pre) l) =
  selectChildrenFrom ptag ctag (isNamed ptag (Node p (pre ++ l))) (length pre) l.
Proof.
  revert pre. induction l as [|c r IH]; intros pre; [reflexivity|].
  assert (Hi : (pre ++ c :: r) !! length pre = Some c).
  { rewrite lookup_app_r by lia. by rewrite Nat.sub_diag. }
  cbn [descFrom selectChildrenFrom]. rewrite List.filter_app.
  specialize (IH (pre ++ [c])).
  rewrite length_app, Nat.add_1_r in IH. cbn [length] in IH.
  rewrite <- app_assoc in IH. cbn [app] in IH.
  f_equal; [|exact IH].
  cbn [List.filter]. rewrite map_app.
  rewrite (filter_isChildOfAt_cons _ _ _ _ _ c) by
    (try done; apply Forall_forall; intros q Hq ->;
     by apply descendants_not_nil in Hq).
  unfold isChildOfAt at 1, holdsAt. cbn [parentNode removelast nodeAt childNodes].
  rewrite Hi.
  by destruct (isNamed ctag c && isNamed ptag (Node p (pre ++ c :: r))).
Qed.

Lemma selectChildren_unfold ptag ctag p cs :
  selectChildren ptag ctag (Node p cs) =
  selectChildrenFrom ptag ctag (isNamed ptag (Node p cs)) 0 cs.
Proof. exact (selectChildren_from ptag ctag p [] cs). Qed.

Lemma pushed_other q : forall r,
  (forall i r', r <> q ++ i :: r') -> pushed q r = r.
Proof.
  induction q as [|i q IH]; intros [|j t'] Hr; try reflexivity.
  - by destruct (Hr j t').
  - cbn [pushed]. destruct (Nat.eqb_spec i j) as [->|]; [|done].
    rewrite IH; [done|]. intros k r' ->. by apply (Hr k r').
Qed.

Lemma selectChildren_select ptag ctag t q :
  q ∈ selectChildren ptag ctag t -> q ∈ select (isNamed ctag) t.
Proof.
  unfold selectChildren, select. rewrite !list_elem_of_In, !List.filter_In.
  intros [Hd Hc]. split; [done|]. unfold isChildOfAt in Hc.
  by apply andb_true_iff in Hc as [Hc _].
Qed.

(** In a panel with no link inside a link no match of [DIV > A] lies below
    another. *)
Lemma plainPanel_apart t q r :
  plainPanel t ->
  q ∈ selectChildren "DIV" "A" t -> r ∈ selectChildren "DIV" "A" t ->
  pushed q r = r.
Proof.
  intros Hplain Hq Hr. apply pushed_other. intros i r' ->.
  apply selectChildren_select, select_sound in Hq as (_ & a & Ha & Hna).
  apply selectChildren_select, select_sound in Hr as (_ & b & Hb & Hnb).
  rewrite nodeAt_app, Ha in Hb. cbn [mbind option_bind] in Hb.
  assert (Hin : i :: r' ∈ getElementsByTagName a "A")
    by (by apply (select_complete _ _ _ b)).
  rewrite (Hplain q a Ha Hna) in Hin. by apply elem_of_nil in Hin.
Qed.

Lemma map_fixed {A} (f : A -> A) (l : list A) :
  (forall x, x ∈ l -> f x = x) -> map f l = l.
Proof.
  induction l as [|x l IH]; intros H; [done|]. cbn [map].
  rewrite H by left. rewrite IH; [done|]. intros y Hy. apply H. by right.
Qed.

(** The loop over references none of which lies below another. *)
Lemma arrowLoop_apart icon refs :
  (forall q r, q ∈ refs -> r ∈ refs -> pushed q r = r) ->
  forall m k t, k + m = length refs ->
  foldl (arrowTurn icon) (t, refs) (seq k m) =
  (foldl (fun t q => updateAt (insertFirst icon) q t) t (take m (drop k refs)), refs).
Proof.
  intros Hapart. induction m as [|m IH]; intros k t Hlen; [done|].
  cbn [seq foldl]. unfold arrowTurn at 2. cbn [fst snd].
  destruct (refs !! k) as [q|] eqn:Hq;
    [|apply lookup_ge_None in Hq; lia].
  rewrite (map_fixed (pushed q)).
  - rewrite IH by lia. rewrite (drop_S refs q k Hq). reflexivity.
  - intros r Hr. apply Hapart; [|done]. by apply list_elem_of_lookup_2 in Hq.
Qed.

Lemma foldl_updateAt_child f p k L : forall cs,
  foldl (fun t q => updateAt f q t) (Node p cs) (map (cons k) L) =
  Node p (alter (fun c => foldl (fun t q => updateAt f q t) c L) k cs).
Proof.
  induction L as [|q L IH]; intros cs.
  - cbn. f_equal. symmetry. apply list_alter_id. done.
  - cbn [map foldl]. rewrite updateAt_cons, IH. f_equal.
    by rewrite list_alter_alter_eq.
Qed.

Lemma plainPanel_child p cs i c :
  plainPanel (Node p cs) -> cs !! i = Some c -> plainPanel c.
Proof.
  intros Hplain Hc q a Ha. apply (Hplain (i :: q)).
  by rewrite nodeAt_cons, Hc.
Qed.

Lemma selectChildren_in_link c :
  plainPanel c -> isNamed "A" c = true -> selectChildren "DIV" "A" c = [].
Proof.
  intros Hplain Ha. destruct (selectChildren "DIV" "A" c) as [|q l] eqn:Hs; [done|].
  assert (Hq : q ∈ selectChildren "DIV" "A" c) by (rewrite Hs; left).
  apply selectChildren_select in Hq. fold (getElementsByTagName c "A") in Hq.
  rewrite (Hplain [] c eq_refl Ha) in Hq. by apply elem_of_nil in Hq.
Qed.

Lemma arrowChildren_fold icon p ok l :
  Forall (fun c => plainPanel c /\
            foldl (fun t q => updateAt (insertFirst icon) q t) c
                  (selectChildren "DIV" "A" c) = arrowsBelow icon c) l ->
  forall pre,
  foldl (fun t q => updateAt (insertFirst icon) q t) (Node p (pre ++ l))
        (selectChildrenFrom "DIV" "A" ok (length pre) l) =
  Node p (pre ++ map (arrowChild icon (arrowsBelow icon) ok) l).
Proof.
  induction 1 as [|c r [Hplain Hc] _ IH]; intros pre; [done|].
  cbn [selectChildrenFrom map]. rewrite foldl_app, foldl_updateAt_child.
  rewrite alter_app_r_alt by lia. rewrite Nat.sub_diag. cbn [alter list_alter].
  specialize (IH (pre ++ [arrowChild icon (arrowsBelow icon) ok c])).
  rewrite length_app, Nat.add_1_r in IH. cbn [length] in IH.
  rewrite <- !app_assoc in IH. cbn [app] in IH.
  assert (Hxy : foldl (fun t q => updateAt (insertFirst icon) q t) c
                  ((if isNamed "A" c && ok then [[]] else [])
                   ++ selectChildren "DIV" "A" c)
                = arrowChild icon (arrowsBelow icon) ok c).
  { unfold arrowChild. rewrite (andb_comm ok).
    destruct (isNamed "A" c && ok) eqn:Hsel.
    - apply andb_true_iff in Hsel as [Ha _].
      rewrite <- Hc, (selectChildren_in_link c Hplain Ha). reflexivity.
    - exact Hc. }
  rewrite Hxy. apply IH.
Qed.

(** The icons put in one by one, at the matches of [DIV > A] in a panel
    with no link inside a link, give the panel with its arrows. *)
Lemma arrows_fold icon t :
  plainPanel t ->
  foldl (fun t q => updateAt (insertFirst icon) q t) t (selectChildren "DIV" "A" t)
  = arrowsBelow icon t.
Proof.
  induction t as [p cs IH] using node_ind'. intros Hplain.
  rewrite selectChildren_unfold. cbn [arrowsBelow].
  apply (arrowChildren_fold icon p _ cs) with (pre := []).
  apply Forall_lookup. intros i c Hc.
  eapply Forall_lookup_1 in IH; [|exact Hc].
  pose proof (plainPanel_child p cs i c Hplain Hc). by split; [|apply IH].
Qed.

Lemma nprops_arrowsBelow icon c : nprops (arrowsBelow icon c) = nprops c.
Proof. by destruct c. Qed.

Lemma textContent_arrowsBelow icon t :
  textContent icon = "" -> nodeType (nprops icon) = ELEMENT ->
  textContent (arrowsBelow icon t) = textContent t.
Proof.
  intros Hicon Hel. induction t as [p cs IH] using node_ind'.
  cbn [arrowsBelow textContent].
  generalize (isNamed "DIV" (Node p cs)) as ok. intros ok.
  destruct (nodeType p); try reflexivity;
    (induction IH as [|c r Hc _ IHr]; [reflexivity|];
     cbn [map textOfChildren]; rewrite IHr; f_equal;
     unfold arrowChild;
     destruct (ok && isNamed "A" c) eqn:Hsel; [|by rewrite Hc; destruct c];
     apply andb_true_iff in Hsel as [_ Ha];
     apply andb_true_iff in Ha as [He _];
     apply bool_decide_eq_true in He;
     rewrite <- Hc; destruct (arrowsBelow icon c) as [pc cc] eqn:Hb;
     assert (Hp : pc = nprops c) by (by rewrite <- (nprops_arrowsBelow icon c), Hb);
     subst pc; cbn [insertFirst nprops childNodes textContent];
     rewrite He; cbn [textOfChildren]; by rewrite Hicon, Hel).
Qed.

(** X22.  On a panel with no link inside a link, and with an arrow image
    that is not empty, [addSubmenuArrows_] leaves the panel with the icon
    put first into every A whose parent is a DIV, once each, and with
    nothing else changed; the text of the panel stays as it was. *)
Theorem addSubmenuArrows_marks_titles (P : Page) (src : string) (navPanel : node) :
  src <> "" -> plainPanel navPanel ->
  addSubmenuArrows_ P (Some src) navPanel = arrowsBelow (expandIcon P src) navPanel /\
  textContent (addSubmenuArrows_ P (Some src) navPanel) = textContent navPanel.
Proof.
  intros Hsrc Hplain.
  assert (Hrun : addSubmenuArrows_ P (Some src) navPanel
                 = arrowsBelow (expandIcon P src) navPanel).
  { unfold addSubmenuArrows_. rewrite <- (arrows_fold _ _ Hplain).
    destruct (Nat.eqb_spec (length (selectChildren "DIV" "A" navPanel)) 0) as [H0|_].
    - apply nil_length_inv in H0. by rewrite H0.
    - apply String.eqb_neq in Hsrc. rewrite Hsrc.
      rewrite (arrowLoop_apart _ _ (fun q r => plainPanel_apart navPanel q r Hplain))
        by done.
      cbn [fst drop]. by rewrite firstn_all. }
  split; [done|]. rewrite Hrun. by apply textContent_arrowsBelow.
Qed.

Lemma addSubmenuArrows_marks_titles_witness :
  addSubmenuArrows_ samplePage (Some "data:image/png;base64,AA") titledPanel
    = arrowsBelow (expandIcon samplePage "data:image/png;base64,AA") titledPanel /\
  textContent (addSubmenuArrows_ samplePage (Some "data:image/png;base64,AA") titledPanel)
    = textContent titledPanel.
Proof.
  apply addSubmenuArrows_marks_titles; [discriminate|].
  intros q a Hn Ha. destruct q as [|i q]; [by injection Hn as <-|].
  assert (Hsel : i :: q ∈ select (isNamed "A") titledPanel)
    by (by apply (select_complete _ _ _ a)).
  vm_compute in Hsel.
  repeat (apply elem_of_cons in Hsel as [Hq|Hsel];
          [rewrite Hq in Hn; vm_compute in Hn; injection Hn as <-; reflexivity|]).
  by apply elem_of_nil in Hsel.
Defined.
